(** * TxSetFrame: the transaction set of the herder

    A shallow embedding of [src/herder/TxSetFrame.cpp] and the properties of
    its canonical hash, apply order, surge-pricing filter and validation.

    Conventions of the embedding.
    - [Hash] (a 32-byte [xdr::opaque_array]) is the natural number its bytes
      spell in big-endian order, so that the lexicographic [operator<] of
      the source is [N.ltb] and the bytewise XOR is [N.lxor].
    - [size_t] values are integers in [Z]; the subtractions and additions the
      source performs on them are written with their wrap-around at 2^64.
    - [double] fee ratios are only compared ([==], [<], [>]), never computed
      with, in this file; finite doubles are rationals and are modelled by
      [Q] with [Qeq_bool] and [Qle_bool].  That is the model of
      [surgePricingFilter]: with a NaN among the ratios its comparator is no
      strict weak ordering, and [std::sort] has no defined result.  The
      comparator and the loop that fills the fee map are defined on every
      double; module [Double] has them with NaN and the infinities.
    - a [TransactionFramePtr] is a shared pointer: [txAddr] is the identity
      of the object it points to, and two pointers are equal when the whole
      record (address included) is.
    - [std::sort] and SHA-256 belong to the platform: [Platform] states the
      contract of [std::sort] (a permutation, sorted for the comparator, when
      the comparator is a strict weak ordering) and names the digest.
    - what a transaction answers when asked with the application or the
      ledger manager ([isWhitelisted], [checkValid], [getFeeRatio],
      [getSourceAccount]) is a field of [Application] or [LedgerManager];
      the whitelist is a record of its two methods.
    - fees and balances ([int64_t]) are in [Z]: their sums stay in range in
      the source, where a signed overflow has no meaning.  Vectors are
      shorter than 2^32, the range of the index [getContentsHash] walks the
      set with.  Logging and the read-only database scope have no part in
      what the functions return and are left out. *)

From Stdlib Require Import ZArith NArith QArith Lia.
From stdpp Require Import base tactics option list gmap sorting.

Local Open Scope Z_scope.
Close Scope Q_scope.

(** ** Data model *)

Abbreviation Hash := N (only parsing).
Abbreviation AccountID := N (only parsing).
Abbreviation SequenceNumber := N (only parsing).
Abbreviation byte := N (only parsing).

(** The envelope in its canonical external (XDR) form; this file never looks
    inside it. *)
Abbreviation TransactionEnvelope := (list byte) (only parsing).

Definition xdr_to_opaque (e : TransactionEnvelope) : list byte := e.

Record TransactionFrame := mkTx {
  txAddr : nat;
  getSourceID : AccountID;
  getSeqNum : SequenceNumber;
  getFee : Z;
  getFullHash : Hash;
  getEnvelope : TransactionEnvelope
}.

(** A [TransactionFramePtr] is used wherever the source shares a frame. *)
Abbreviation TransactionFramePtr := TransactionFrame (only parsing).

#[global] Instance TransactionFrame_eq_dec : EqDecision TransactionFrame.
Proof. solve_decision. Defined.

Record LedgerHeader := { maxTxSetSize : Z }.

Record LedgerHeaderHistoryEntry := { hash : Hash; header : LedgerHeader }.

Record LedgerManager := {
  getLastClosedLedgerHeader : LedgerHeaderHistoryEntry;
  getMaxTxSetSize : Z;
  feeRatioOf : TransactionFramePtr -> Q
}.

Record AccountFrame := {
  getBalance : Z;
  getMinimumBalance : LedgerManager -> Z
}.

Record Whitelist := {
  unwhitelistedReserve : Z -> Z;
  accountID : option AccountID
}.

(** What the transaction methods that take the application ask of it: the
    whitelist oracle, the validity check and the source account a
    transaction loads. *)
Record Application := {
  getLedgerManager : LedgerManager;
  getWhitelist : Whitelist;
  whitelistedBy : TransactionFramePtr -> bool;
  checkValidBy : TransactionFramePtr -> SequenceNumber -> bool;
  getSourceAccount : TransactionFramePtr -> AccountFrame
}.

Definition isWhitelisted (tx : TransactionFramePtr) (app : Application) : bool :=
  whitelistedBy app tx.

Definition getFeeRatio (tx : TransactionFramePtr) (lm : LedgerManager) : Q :=
  feeRatioOf lm tx.

Definition txCheckValid (tx : TransactionFramePtr) (app : Application)
    (lastSeq : SequenceNumber) : bool :=
  checkValidBy app tx lastSeq.

Record TxSetFrame := mkTxSet {
  mHashIsValid : bool;
  mHash : Hash;
  mPreviousLedgerHash : Hash;
  mTransactions : list TransactionFramePtr
}.

(** ** The platform: [std::sort] and SHA-256 *)

(** The requirements of C++ on a [Compare]: irreflexive, transitive, and
    with a transitive incomparability. *)
Record StrictWeakOrder {A} (cmp : A -> A -> bool) : Prop := {
  swo_irrefl : forall a, cmp a a = false;
  swo_trans : forall a b c, cmp a b = true -> cmp b c = true -> cmp a c = true;
  swo_incomp : forall a b c,
    cmp a b = false -> cmp b a = false -> cmp b c = false -> cmp c b = false ->
    cmp a c = false /\ cmp c a = false
}.

(** [notAfter cmp a b]: [b] does not come before [a]; a range is sorted for
    [cmp] when every element is [notAfter] all the later ones. *)
Definition notAfter {A} (cmp : A -> A -> bool) (a b : A) : Prop := cmp b a = false.

Class Platform := {
  std_sort : forall {A}, (A -> A -> bool) -> list A -> list A;
  std_sort_perm : forall A (cmp : A -> A -> bool) (l : list A),
    StrictWeakOrder cmp -> std_sort cmp l ≡ₚ l;
  std_sort_sorted : forall A (cmp : A -> A -> bool) (l : list A),
    StrictWeakOrder cmp -> StronglySorted (notAfter cmp) (std_sort cmp l);
  sha256 : list byte -> Hash
}.

(** *** A platform to run examples on: insertion sort, and a stand-in digest *)

Fixpoint insert_sorted {A} (cmp : A -> A -> bool) (x : A) (l : list A) : list A :=
  match l with
  | [] => [x]
  | y :: l' => if cmp x y then x :: l else y :: insert_sorted cmp x l'
  end.

Definition insertion_sort {A} (cmp : A -> A -> bool) (l : list A) : list A :=
  foldl (fun acc x => insert_sorted cmp x acc) [] l.

Definition toy_digest (bs : list byte) : Hash :=
  foldl (fun acc b => ((acc * 257 + b + 1) mod 2 ^ 256)%N) 7%N bs.

(** ** The frame's operations *)

Definition size {A} (v : list A) : Z := Z.of_nat (length v).

(** [size_t] arithmetic. *)
Definition size_t_sub (a b : Z) : Z := (a - b) mod 2 ^ 64.
Definition size_t_add (a b : Z) : Z := (a + b) mod 2 ^ 64.

(** The 32 bytes of a hash, most significant first. *)
Definition hashBytes (h : Hash) : list byte :=
  map (fun i => N.land (N.shiftr h (8 * (31 - N.of_nat i))) 255)%N (seq 0 32).

(** [std::find] followed by [erase]: the first element equal to [tx] goes. *)
Fixpoint erase_first (tx : TransactionFramePtr) (v : list TransactionFramePtr)
    : list TransactionFramePtr :=
  match v with
  | [] => []
  | x :: v' => if decide (x = tx) then v' else x :: erase_first tx v'
  end.

Definition HashTxSorter (tx1 tx2 : TransactionFramePtr) : bool :=
  (getFullHash tx1 <? getFullHash tx2)%N.

Definition SeqSorter (tx1 tx2 : TransactionFramePtr) : bool :=
  (getSeqNum tx1 <? getSeqNum tx2)%N.

(** Modelled from the spec: [lessThanXored] is declared outside this file;
    the spec gives it as [(a XOR k) < (b XOR k)]. *)
Definition lessThanXored (l r x : Hash) : bool :=
  (N.lxor l x <? N.lxor r x)%N.

Definition ApplyTxSorter (mSetHash : Hash) (tx1 tx2 : TransactionFramePtr) : bool :=
  lessThanXored (getFullHash tx1) (getFullHash tx2) mSetHash.

(** [mAccountFeeMap[id]]: [operator[]] of [std::map] reads 0 for a key that
    is not there. *)
Definition feeAt (m : gmap AccountID Q) (id : AccountID) : Q :=
  default 0%Q (m !! id).

Definition Qlt_bool (a b : Q) : bool := negb (Qle_bool b a).

Definition SurgeSorter (mAccountFeeMap : gmap AccountID Q) (mWhitelisted : bool)
    (mWhitelistID : option AccountID) (tx1 tx2 : TransactionFramePtr) : bool :=
  if decide (getSourceID tx1 = getSourceID tx2) then
    (getSeqNum tx1 <? getSeqNum tx2)%N
  else
    let holder :=
      match mWhitelistID with
      | Some wlID =>
          if decide (getSourceID tx1 = wlID) then Some true
          else if decide (getSourceID tx2 = wlID) then Some false
          else None
      | None => None
      end in
    match holder with
    | Some b => b
    | None =>
        if mWhitelisted then (getSourceID tx1 <? getSourceID tx2)%N
        else
          let fee1 := feeAt mAccountFeeMap (getSourceID tx1) in
          let fee2 := feeAt mAccountFeeMap (getSourceID tx2) in
          if Qeq_bool fee1 fee2 then (getSourceID tx1 <? getSourceID tx2)%N
          else Qlt_bool fee2 fee1
    end.

(** One round of the loop that fills [accountFeeMap]. *)
Definition feeMapStep (lm : LedgerManager) (accountFeeMap : gmap AccountID Q)
    (tx : TransactionFramePtr) : gmap AccountID Q :=
  let r := getFeeRatio tx lm in
  let now := feeAt accountFeeMap (getSourceID tx) in
  if Qeq_bool now 0 then <[getSourceID tx := r]> accountFeeMap
  else if Qlt_bool r now then <[getSourceID tx := r]> accountFeeMap
  else accountFeeMap.

Definition accountFeeMapOf (lm : LedgerManager) (txs : list TransactionFramePtr)
    : gmap AccountID Q :=
  foldl (feeMapStep lm) ∅ txs.

(** One round of the loop that fills [txBatches] in [sortForApply]. *)
Definition batchStep
    (st : list (list TransactionFramePtr) * gmap AccountID nat)
    (tx : TransactionFramePtr)
    : list (list TransactionFramePtr) * gmap AccountID nat :=
  let '(txBatches, accountTxCountMap) := st in
  let v := default 0%nat (accountTxCountMap !! getSourceID tx) in
  let txBatches :=
    if decide (length txBatches <= v)%nat then resize (v + 4) [] txBatches
    else txBatches in
  (alter (fun batch => batch ++ [tx]) v txBatches,
   <[getSourceID tx := S v]> accountTxCountMap).

Definition buildBatches (retList : list TransactionFramePtr)
    : list (list TransactionFramePtr) :=
  fst (foldl batchStep (replicate 4 [], ∅) retList).

(** [accountTxMap[tx->getSourceID()].push_back(tx)] on the [std::map] of
    [checkOrTrim]. *)
Definition accountTxMap_push_back
    (accountTxMap : gmap AccountID (list TransactionFramePtr))
    (tx : TransactionFramePtr) : gmap AccountID (list TransactionFramePtr) :=
  <[getSourceID tx := default [] (accountTxMap !! getSourceID tx) ++ [tx]]>
    accountTxMap.

(** The entries of a [std::map] in the order a range-for walks them:
    ascending in the key. *)
Definition keyLe (e1 e2 : AccountID * list TransactionFramePtr) : Prop :=
  (fst e1 <= fst e2)%N.

#[global] Instance keyLe_dec : RelDecision keyLe.
Proof. intros e1 e2. unfold keyLe. apply _. Defined.

Definition inKeyOrder (accountTxMap : gmap AccountID (list TransactionFramePtr))
    : list (AccountID * list TransactionFramePtr) :=
  merge_sort keyLe (map_to_list accountTxMap).

(** The first loop of [checkOrTrim]: [None] when the set is not in hash
    order, the account map otherwise. *)
Fixpoint groupByAccount (txs : list TransactionFramePtr) (lastHash : Hash)
    (accountTxMap : gmap AccountID (list TransactionFramePtr))
    : option (gmap AccountID (list TransactionFramePtr)) :=
  match txs with
  | [] => Some accountTxMap
  | tx :: rest =>
      if (getFullHash tx <? lastHash)%N then None
      else groupByAccount rest (getFullHash tx)
             (accountTxMap_push_back accountTxMap tx)
  end.

Section Frame.
Context {P : Platform}.

Definition sortForHash (s : TxSetFrame) : TxSetFrame :=
  {| mHashIsValid := false;
     mHash := mHash s;
     mPreviousLedgerHash := mPreviousLedgerHash s;
     mTransactions := std_sort HashTxSorter (mTransactions s) |}.

(** The incremental hasher: [add] appends to what [finish] digests. *)
Definition SHA256_create : list byte := [].
Definition SHA256_add (hasher : list byte) (bs : list byte) : list byte :=
  hasher ++ bs.
Definition SHA256_finish (hasher : list byte) : Hash := sha256 hasher.

Definition getContentsHash (s : TxSetFrame) : Hash * TxSetFrame :=
  if mHashIsValid s then (mHash s, s)
  else
    let s := sortForHash s in
    let hasher := SHA256_add SHA256_create (hashBytes (mPreviousLedgerHash s)) in
    let hasher :=
      foldl (fun h tx => SHA256_add h (xdr_to_opaque (getEnvelope tx)))
            hasher (mTransactions s) in
    let h := SHA256_finish hasher in
    (h, {| mHashIsValid := true;
           mHash := h;
           mPreviousLedgerHash := mPreviousLedgerHash s;
           mTransactions := mTransactions s |}).

Definition removeTx (tx : TransactionFramePtr) (s : TxSetFrame) : TxSetFrame :=
  {| mHashIsValid := false;
     mHash := mHash s;
     mPreviousLedgerHash := mPreviousLedgerHash s;
     mTransactions := erase_first tx (mTransactions s) |}.

(** The last loop of [sortForApply]: every batch is sorted with the set's
    hash, asked for anew at each round, and appended. *)
Definition applyBatch (acc : list TransactionFramePtr * TxSetFrame)
    (batch : list TransactionFramePtr) : list TransactionFramePtr * TxSetFrame :=
  let '(retList, s) := acc in
  let '(h, s) := getContentsHash s in
  (retList ++ std_sort (ApplyTxSorter h) batch, s).

Definition sortForApply (s : TxSetFrame)
    : list TransactionFramePtr * TxSetFrame :=
  let retList := std_sort SeqSorter (mTransactions s) in
  let txBatches := buildBatches retList in
  foldl applyBatch ([], s) txBatches.

Definition surgePricingFilter (lm : LedgerManager) (app : Application)
    (s : TxSetFrame) : TxSetFrame :=
  let max := getMaxTxSetSize lm in
  if decide (size (mTransactions s) > max) then
    let whitelist := getWhitelist app in
    let reserveCapacity := unwhitelistedReserve whitelist max in
    let whitelisted :=
      filter (fun tx => isWhitelisted tx app = true) (mTransactions s) in
    let unwhitelisted :=
      filter (fun tx => isWhitelisted tx app <> true) (mTransactions s) in
    let reserveCapacity :=
      if decide (size unwhitelisted < reserveCapacity) then size unwhitelisted
      else reserveCapacity in
    let accountFeeMap := accountFeeMapOf lm (mTransactions s) in
    let whitelisted :=
      std_sort (SurgeSorter accountFeeMap true (accountID whitelist))
               whitelisted in
    let s :=
      if decide (size whitelisted > size_t_sub max reserveCapacity) then
        foldl (fun s tx => removeTx tx s) s
              (drop (Z.to_nat (size_t_sub max reserveCapacity)) whitelisted)
      else s in
    let extraWhitelistCapacity :=
      if decide (size whitelisted > size_t_sub max reserveCapacity) then 0
      else size_t_sub (size_t_sub max reserveCapacity) (size whitelisted) in
    let totalCapacity := size_t_add reserveCapacity extraWhitelistCapacity in
    if decide (size unwhitelisted <= totalCapacity) then s
    else
      let tempList :=
        std_sort (SurgeSorter accountFeeMap false (accountID whitelist))
                 unwhitelisted in
      foldl (fun s tx => removeTx tx s) s
            (drop (Z.to_nat totalCapacity) tempList)
  else s.

(** [checkOrTrim].  The member function reads [mTransactions] once, in its
    first loop; its two callbacks reach the frame (and whatever else they
    capture) through the state [St] they thread. *)
Section CheckOrTrim.
Context {St : Type}.
Variable app : Application.
Variable processInvalidTxLambda :
  TransactionFramePtr -> SequenceNumber -> St -> bool * St.
Variable processInsufficientBalance :
  list TransactionFramePtr -> St -> bool * St.

(** The loop over one account's transactions: [None] when a callback
    asked to stop, the last valid transaction and the fee total
    otherwise. *)
Fixpoint scanAccount (item : list TransactionFramePtr)
    (lastTx : option TransactionFramePtr) (lastSeq : SequenceNumber)
    (totFee : Z) (st : St)
    : option (option TransactionFramePtr * Z) * St :=
  match item with
  | [] => (Some (lastTx, totFee), st)
  | tx :: rest =>
      if txCheckValid tx app lastSeq then
        scanAccount rest (Some tx) (getSeqNum tx)
          (totFee + (if isWhitelisted tx app then 0 else getFee tx)) st
      else
        let '(continue, st) := processInvalidTxLambda tx lastSeq st in
        if continue then scanAccount rest lastTx lastSeq totFee st
        else (None, st)
  end.

(** The body of the loop over [accountTxMap]; [false] is [return false]. *)
Definition checkAccount (item : list TransactionFramePtr) (st : St)
    : bool * St :=
  let item := std_sort SeqSorter item in
  match scanAccount item None 0%N 0 st with
  | (None, st) => (false, st)
  | (Some (None, _), st) => (true, st)
  | (Some (Some lastTx, totFee), st) =>
      let newBalance := getBalance (getSourceAccount app lastTx) - totFee in
      if decide (newBalance <
                 getMinimumBalance (getSourceAccount app lastTx)
                                   (getLedgerManager app))
      then processInsufficientBalance item st
      else (true, st)
  end.

(** The loop over the entries of [accountTxMap]. *)
Fixpoint forAccounts (entries : list (AccountID * list TransactionFramePtr))
    (st : St) : bool * St :=
  match entries with
  | [] => (true, st)
  | (_, item) :: entries' =>
      let '(ok, st) := checkAccount item st in
      if ok then forAccounts entries' st else (false, st)
  end.

Definition checkOrTrim (txs : list TransactionFramePtr) (st : St)
    : bool * St :=
  match groupByAccount txs 0%N ∅ with
  | None => (false, st)
  | Some accountTxMap => forAccounts (inKeyOrder accountTxMap) st
  end.
End CheckOrTrim.

(** The callbacks of [trimInvalid], on the frame and the [trimmed] vector. *)
Definition trimInvalidTx (tx : TransactionFramePtr) (lastSeq : SequenceNumber)
    (st : TxSetFrame * list TransactionFramePtr)
    : bool * (TxSetFrame * list TransactionFramePtr) :=
  (true, (removeTx tx (fst st), snd st ++ [tx])).

Definition trimInsufficientBalance (item : list TransactionFramePtr)
    (st : TxSetFrame * list TransactionFramePtr)
    : bool * (TxSetFrame * list TransactionFramePtr) :=
  (true, foldl (fun st tx => (removeTx tx (fst st), snd st ++ [tx])) st item).

Definition trimInvalid (app : Application) (s : TxSetFrame)
    (trimmed : list TransactionFramePtr)
    : TxSetFrame * list TransactionFramePtr :=
  let s := sortForHash s in
  snd (checkOrTrim app trimInvalidTx trimInsufficientBalance
                   (mTransactions s) (s, trimmed)).

Definition checkValid (app : Application) (s : TxSetFrame) : bool :=
  let lcl := getLastClosedLedgerHeader (getLedgerManager app) in
  if decide (hash lcl <> mPreviousLedgerHash s) then false
  else if decide (size (mTransactions s) > maxTxSetSize (header lcl)) then false
  else
    fst (checkOrTrim app
           (fun _ _ (st : unit) => (false, st))
           (fun _ (st : unit) => (false, st))
           (mTransactions s) tt).
End Frame.

(** ** Notions the properties are stated with *)

(** What the hasher is fed for a parent hash and a list of transactions. *)
Definition hashInput (prev : Hash) (txs : list TransactionFramePtr) : list byte :=
  hashBytes prev ++ concat (map (fun tx => xdr_to_opaque (getEnvelope tx)) txs).

(** The cache, when valid, holds the digest of the frame's contents. *)
Definition cacheCoherent `{P : Platform} (s : TxSetFrame) : Prop :=
  mHashIsValid s = true ->
  mHash s = sha256 (hashInput (mPreviousLedgerHash s)
                              (std_sort HashTxSorter (mTransactions s))).

Definition fromAccount (A : AccountID) (tx : TransactionFramePtr) : Prop :=
  getSourceID tx = A.

#[global] Instance fromAccount_dec A tx : Decision (fromAccount A tx).
Proof. unfold fromAccount. apply _. Defined.

(** [txBatches[j]], read as empty past the end. *)
Definition batchAt (txBatches : list (list TransactionFramePtr)) (j : nat)
    : list TransactionFramePtr :=
  default [] (txBatches !! j).

(** [c1] first, [c2] among those [c1] does not tell apart. *)
Definition lexCmp {A} (c1 c2 : A -> A -> bool) (a b : A) : bool :=
  c1 a b || (negb (c1 b a) && c2 a b).

Definition holderRank (mWhitelistID : option AccountID) (tx : TransactionFramePtr) : N :=
  match mWhitelistID with
  | Some wlID => if decide (getSourceID tx = wlID) then 0%N else 1%N
  | None => 1%N
  end.

(** The order [SurgeSorter] spells out with its tests: the whitelist holder
    first, then (for the transactions that are not whitelisted) the greater
    account fee ratio, then the smaller account, then the smaller sequence
    number. *)
Definition surgeOrder (afm : gmap AccountID Q) (mWhitelisted : bool)
    (mWhitelistID : option AccountID) : TransactionFramePtr -> TransactionFramePtr -> bool :=
  let bySource :=
    lexCmp (fun a b => (getSourceID a <? getSourceID b)%N) SeqSorter in
  lexCmp (fun a b => (holderRank mWhitelistID a <? holderRank mWhitelistID b)%N)
    (if mWhitelisted then bySource
     else lexCmp (fun a b => Qlt_bool (feeAt afm (getSourceID b))
                                      (feeAt afm (getSourceID a)))
                 bySource).

(** The transactions of one account that pass [checkValid] in the scan of
    [checkOrTrim], when the scan is not stopped: a transaction is checked
    against the sequence number of the last one that passed. *)
Fixpoint passedTxs (app : Application) (lastSeq : SequenceNumber)
    (item : list TransactionFramePtr) : list TransactionFramePtr :=
  match item with
  | [] => []
  | tx :: rest =>
      if txCheckValid tx app lastSeq then tx :: passedTxs app (getSeqNum tx) rest
      else passedTxs app lastSeq rest
  end.

(** The fees of the transactions that are not whitelisted. *)
Definition nonWhitelistedFees (app : Application)
    (txs : list TransactionFramePtr) : Z :=
  foldr (fun tx acc => (if isWhitelisted tx app then 0 else getFee tx) + acc) 0 txs.

(** [item]'s balance is found short: the source account of the last
    transaction of [item] that passed cannot pay the fees of those that
    passed and keep its minimum balance. *)
Definition foundShort (app : Application) (item : list TransactionFramePtr) : Prop :=
  exists lastTx,
    last (passedTxs app 0%N item) = Some lastTx
    /\ getBalance (getSourceAccount app lastTx)
       - nonWhitelistedFees app (passedTxs app 0%N item)
       < getMinimumBalance (getSourceAccount app lastTx) (getLedgerManager app).

(** The calls of the two callbacks, in the order they are made. *)
Inductive Invocation :=
  | InvalidTx (tx : TransactionFramePtr) (lastSeq : SequenceNumber)
  | InsufficientBalance (item : list TransactionFramePtr).

Definition recordInvalidTx {St}
    (processInvalidTxLambda : TransactionFramePtr -> SequenceNumber -> St -> bool * St)
    (tx : TransactionFramePtr) (lastSeq : SequenceNumber)
    (st : St * list Invocation) : bool * (St * list Invocation) :=
  let '(continue, st') := processInvalidTxLambda tx lastSeq (fst st) in
  (continue, (st', snd st ++ [InvalidTx tx lastSeq])).

Definition recordInsufficientBalance {St}
    (processInsufficientBalance : list TransactionFramePtr -> St -> bool * St)
    (item : list TransactionFramePtr)
    (st : St * list Invocation) : bool * (St * list Invocation) :=
  let '(continue, st') := processInsufficientBalance item (fst st) in
  (continue, (st', snd st ++ [InsufficientBalance item])).

(** [trimInvalid]'s callbacks only take transactions out of the frame and
    only append to [trimmed]. *)
Definition trimsTo (st st' : TxSetFrame * list TransactionFramePtr) : Prop :=
  mTransactions (fst st') `sublist_of` mTransactions (fst st)
  /\ exists more, snd st' = snd st ++ more.

(** ** Sample data *)

Definition txA1 : TransactionFramePtr := mkTx 1 10%N 1%N 100 0xAA%N [1; 1]%N.
Definition txA2 : TransactionFramePtr := mkTx 2 10%N 2%N 100 0x31%N [1; 2]%N.
Definition txB5 : TransactionFramePtr := mkTx 3 11%N 5%N 100 0x55%N [2; 5]%N.
(** A second transaction of account 10 with the sequence number of [txA1]. *)
Definition txA1' : TransactionFramePtr := mkTx 4 10%N 1%N 200 0x77%N [1; 1; 7]%N.

Definition frameOf (txs : list TransactionFramePtr) : TxSetFrame :=
  {| mHashIsValid := false; mHash := 0%N; mPreviousLedgerHash := 17%N;
     mTransactions := txs |}.

(** The last closed ledger has hash 17 and room for two transactions; the
    fee ratio is the fee over a minimum fee of 100. *)
Definition sampleLedger : LedgerManager :=
  {| getLastClosedLedgerHeader :=
       {| hash := 17%N; header := {| maxTxSetSize := 2 |} |};
     getMaxTxSetSize := 2;
     feeRatioOf := fun tx => Qmake (getFee tx) 100 |}.

(** Zero-fee transactions are the whitelisted ones; a transaction is valid
    when it follows the last sequence number seen (any number may start);
    every source account holds 1000 over a minimum of 100. *)
Definition sampleApp : Application :=
  {| getLedgerManager := sampleLedger;
     getWhitelist := {| unwhitelistedReserve := fun max => max / 2;
                        accountID := None |};
     whitelistedBy := fun tx => (getFee tx =? 0);
     checkValidBy := fun tx lastSeq =>
       ((lastSeq =? 0) || (getSeqNum tx =? lastSeq + 1))%N;
     getSourceAccount := fun _ =>
       {| getBalance := 1000; getMinimumBalance := fun _ => 100 |} |}.

(** A zero-fee transaction and a transaction paying five times the minimum
    fee, both of account 10. *)
Definition txFree : TransactionFramePtr := mkTx 5 10%N 1%N 0 0x21%N [1; 0]%N.
Definition txPaid : TransactionFramePtr := mkTx 6 10%N 2%N 500 0x22%N [1; 5]%N.



(** Account 12 offers three transactions; the third skips a sequence number,
    and the fees of the first two are more than the account can pay. *)
Definition txC1 : TransactionFramePtr := mkTx 7 12%N 1%N 600 0x41%N [3; 1]%N.
Definition txC2 : TransactionFramePtr := mkTx 8 12%N 2%N 600 0x13%N [3; 2]%N.
Definition txC4 : TransactionFramePtr := mkTx 9 12%N 4%N 100 0x99%N [3; 4]%N.

(** ** Construction, the parent hash and the wire form *)

(** The XDR [TransactionSet]: [previousLedgerHash] and [txs]. *)
Record TransactionSet := {
  wire_previousLedgerHash : Hash;
  wire_txs : list TransactionEnvelope
}.

(** [TxSetFrame(Hash const& previousLedgerHash)]: no transaction, the cache
    not valid.  [mHash] is not read before [getContentsHash] assigns it; it
    is 0 here. *)
Definition TxSetFrame_new (previousLedgerHash : Hash) : TxSetFrame :=
  {| mHashIsValid := false;
     mHash := 0%N;
     mPreviousLedgerHash := previousLedgerHash;
     mTransactions := [] |}.

(** [TxSetFrame(Hash const& networkID, TransactionSet const& xdrSet)].
    [TransactionFrame::makeTransactionFromWire] is declared outside this
    file and is an argument here. *)
Definition TxSetFrame_fromWire
    (makeTransactionFromWire : Hash -> TransactionEnvelope -> TransactionFramePtr)
    (networkID : Hash) (xdrSet : TransactionSet) : TxSetFrame :=
  {| mHashIsValid := false;
     mHash := 0%N;
     mPreviousLedgerHash := wire_previousLedgerHash xdrSet;
     mTransactions :=
       foldl (fun v txEnvelope => v ++ [makeTransactionFromWire networkID txEnvelope])
             [] (wire_txs xdrSet) |}.

(** [Hash& previousLedgerHash()]: the call clears the valid flag and hands
    out the member. *)
Definition previousLedgerHash (s : TxSetFrame) : Hash * TxSetFrame :=
  (mPreviousLedgerHash s,
   {| mHashIsValid := false;
      mHash := mHash s;
      mPreviousLedgerHash := mPreviousLedgerHash s;
      mTransactions := mTransactions s |}).

(** [Hash const& previousLedgerHash() const]. *)
Definition previousLedgerHash_const (s : TxSetFrame) : Hash :=
  mPreviousLedgerHash s.

(** [s.previousLedgerHash() = h]: the call, then the assignment through the
    reference it returned. *)
Definition previousLedgerHash_assign (h : Hash) (s : TxSetFrame) : TxSetFrame :=
  let s := snd (previousLedgerHash s) in
  {| mHashIsValid := mHashIsValid s;
     mHash := mHash s;
     mPreviousLedgerHash := h;
     mTransactions := mTransactions s |}.

(** [toXDR], on the [TransactionSet] it is handed.  [xdr::size32] is the
    checked narrowing of the XDR library: it throws when the size does not
    fit 32 bits, which is [None] here.  [resize] cuts the vector of [txSet]
    or fills it with empty envelopes; the loop then assigns slot [n] for
    every [n] below the size. *)
Definition toXDR (s : TxSetFrame) (txSet : TransactionSet)
    : option TransactionSet :=
  if decide (size (mTransactions s) < 2 ^ 32) then
    let txs := resize (length (mTransactions s)) [] (wire_txs txSet) in
    let txs :=
      foldl (fun txs '(n, tx) => <[n := getEnvelope tx]> txs) txs
            (imap (fun n tx => (n, tx)) (mTransactions s)) in
    Some {| wire_txs := txs;
            wire_previousLedgerHash := mPreviousLedgerHash s |}
  else None.

(** What [getContentsHash] digests of a [TransactionSet]. *)
Definition wireInput (w : TransactionSet) : list byte :=
  hashBytes (wire_previousLedgerHash w) ++ concat (map xdr_to_opaque (wire_txs w)).

(** [x] stands before [y] in [l]. *)
Definition standsBefore {A} (x y : A) (l : list A) : Prop :=
  exists l1 l2 l3, l = l1 ++ x :: l2 ++ y :: l3.

(** The transactions of one account that fail [checkValid] in the scan of
    [checkOrTrim], when the scan is not stopped. *)
Fixpoint failedTxs (app : Application) (lastSeq : SequenceNumber)
    (item : list TransactionFramePtr) : list TransactionFramePtr :=
  match item with
  | [] => []
  | tx :: rest =>
      if txCheckValid tx app lastSeq then failedTxs app (getSeqNum tx) rest
      else tx :: failedTxs app lastSeq rest
  end.

(** A factory that keeps the envelope it is given, for the examples. *)
Definition sampleFactory (networkID : Hash) (e : TransactionEnvelope)
    : TransactionFramePtr :=
  {| txAddr := 0; getSourceID := 0%N; getSeqNum := 0%N; getFee := 0;
     getFullHash := toy_digest (hashBytes networkID ++ e); getEnvelope := e |}.

Definition sampleWire : TransactionSet :=
  {| wire_previousLedgerHash := 17%N; wire_txs := [[1; 2]; [1; 1]; [2; 5]]%N |}.

(** A [TransactionSet] used before, for [toXDR] to overwrite. *)
Definition usedWire : TransactionSet :=
  {| wire_previousLedgerHash := 3%N; wire_txs := [[9]; [9]; [9]; [9]; [9]]%N |}.

(** The two vectors [surgePricingFilter] splits the set in, the reserve
    after its adjustment to the number of transactions that are not
    whitelisted, and the number of places the whitelisted ones are left. *)
Definition whitelistedOf (app : Application) (txs : list TransactionFramePtr)
    : list TransactionFramePtr :=
  filter (fun tx => isWhitelisted tx app = true) txs.

Definition unwhitelistedOf (app : Application) (txs : list TransactionFramePtr)
    : list TransactionFramePtr :=
  filter (fun tx => isWhitelisted tx app <> true) txs.

Definition surgeReserve (lm : LedgerManager) (app : Application)
    (txs : list TransactionFramePtr) : Z :=
  Z.min (size (unwhitelistedOf app txs))
        (unwhitelistedReserve (getWhitelist app) (getMaxTxSetSize lm)).

Definition whitelistedSeats (lm : LedgerManager) (app : Application)
    (txs : list TransactionFramePtr) : Z :=
  Z.min (size (whitelistedOf app txs))
        (getMaxTxSetSize lm - surgeReserve lm app txs).

(** The transactions of one account, in sequence order, are fine for
    [checkOrTrim]: every one passes [checkValid] and the balance is not
    found short. *)
Definition itemOk (app : Application) (item : list TransactionFramePtr) : Prop :=
  failedTxs app 0%N item = [] /\ ~ foundShort app item.

Definition accountOk `{P : Platform} (app : Application)
    (txs : list TransactionFramePtr) (A : AccountID) : Prop :=
  itemOk app (std_sort SeqSorter (filter (fromAccount A) txs)).

(** The callbacks of [checkValid]. *)
Definition rejectInvalidTx (tx : TransactionFramePtr) (lastSeq : SequenceNumber)
    (st : unit) : bool * unit := (false, st).
Definition rejectInsufficientBalance (item : list TransactionFramePtr)
    (st : unit) : bool * unit := (false, st).

Definition surgeFrame : TxSetFrame :=
  {| mHashIsValid := false; mHash := 0%N; mPreviousLedgerHash := 17%N;
     mTransactions := [txA1; txA2; txB5; txFree; txPaid] |}.

(** What [trimInvalid] takes out for one account, given the account's
    transactions in sequence order: the ones that fail [checkValid], as the
    scan meets them, then every transaction of the account when the balance
    is found short. *)
Definition shortItem (app : Application) (item : list TransactionFramePtr)
    : list TransactionFramePtr :=
  match last (passedTxs app 0%N item) with
  | Some lastTx =>
      if decide (getBalance (getSourceAccount app lastTx)
                 - nonWhitelistedFees app (passedTxs app 0%N item)
                 < getMinimumBalance (getSourceAccount app lastTx)
                                     (getLedgerManager app))
      then item else []
  | None => []
  end.

#[global] Instance foundShort_dec app item : Decision (foundShort app item).
Proof.
  unfold foundShort. destruct (last (passedTxs app 0%N item)) as [t|].
  - destruct (decide (getBalance (getSourceAccount app t)
                      - nonWhitelistedFees app (passedTxs app 0%N item)
                      < getMinimumBalance (getSourceAccount app t)
                                          (getLedgerManager app))) as [H|H].
    + left. by exists t.
    + right. intros (t' & E & H'). by simplify_eq.
  - right. by intros (t' & E & _).
Defined.

Definition trimmedOf (app : Application) (item : list TransactionFramePtr)
    : list TransactionFramePtr :=
  failedTxs app 0%N item ++ shortItem app item.

(** The same for a set in hash order: account after account, in the order
    of the account map. *)
Definition trimmedOfSet `{P : Platform} (app : Application)
    (txs : list TransactionFramePtr) : list TransactionFramePtr :=
  concat (map (fun e => trimmedOf app (std_sort SeqSorter (snd e)))
              (inKeyOrder (foldl accountTxMap_push_back ∅ txs))).

(** One transaction trimmed: appended to [trimmed] and removed. *)
Definition trimOne (st : TxSetFrame * list TransactionFramePtr)
    (tx : TransactionFramePtr) : TxSetFrame * list TransactionFramePtr :=
  (removeTx tx (fst st), snd st ++ [tx]).

(** ** Fee ratios as doubles *)

(** [SurgeSorter] and [feeMapStep] above take the fee ratios as rational
    numbers, which is what [surgePricingFilter] can be given: [std::sort]
    has no defined result for a comparator that is not a strict weak
    ordering.  The comparator itself and the loop that fills [accountFeeMap]
    are defined on every [double]; this module has them on what a [double]
    can hold, as far as they use one -- they store it and compare it with
    [==], [<] and [>].  A NaN compares false with every double, itself
    included; the other doubles compare as the numbers they stand for (the
    two zeros stand for one number), the infinities below and above all of
    them. *)
Module Double.

Inductive t := NaN | NegInf | Num (q : Q) | PosInf.

(** [a < b]. *)
Definition ltb (a b : t) : bool :=
  match a with
  | NaN => false
  | NegInf => match b with NaN | NegInf => false | Num _ | PosInf => true end
  | Num p =>
      match b with
      | NaN | NegInf => false
      | Num q => Qlt_bool p q
      | PosInf => true
      end
  | PosInf => false
  end.

(** [a == b]. *)
Definition eqb (a b : t) : bool :=
  match a with
  | NaN => false
  | NegInf => match b with NegInf => true | _ => false end
  | Num p => match b with Num q => Qeq_bool p q | _ => false end
  | PosInf => match b with PosInf => true | _ => false end
  end.

(** [a <= b]. *)
Definition leb (a b : t) : bool := ltb a b || eqb a b.

Definition zero : t := Num 0.

(** [mAccountFeeMap[id]]: 0 for a key that is not there. *)
Definition feeAt (m : gmap AccountID t) (id : AccountID) : t :=
  default zero (m !! id).

Definition SurgeSorter (mAccountFeeMap : gmap AccountID t) (mWhitelisted : bool)
    (mWhitelistID : option AccountID) (tx1 tx2 : TransactionFramePtr) : bool :=
  if decide (getSourceID tx1 = getSourceID tx2) then
    (getSeqNum tx1 <? getSeqNum tx2)%N
  else
    let holder :=
      match mWhitelistID with
      | Some wlID =>
          if decide (getSourceID tx1 = wlID) then Some true
          else if decide (getSourceID tx2 = wlID) then Some false
          else None
      | None => None
      end in
    match holder with
    | Some b => b
    | None =>
        if mWhitelisted then (getSourceID tx1 <? getSourceID tx2)%N
        else
          let fee1 := feeAt mAccountFeeMap (getSourceID tx1) in
          let fee2 := feeAt mAccountFeeMap (getSourceID tx2) in
          if eqb fee1 fee2 then (getSourceID tx1 <? getSourceID tx2)%N
          else ltb fee2 fee1
    end.

(** One round of the loop that fills [accountFeeMap]; [getFeeRatio tx] is
    what [tx->getFeeRatio(lm)] returns. *)
Definition feeMapStep (getFeeRatio : TransactionFramePtr -> t)
    (accountFeeMap : gmap AccountID t) (tx : TransactionFramePtr)
    : gmap AccountID t :=
  let r := getFeeRatio tx in
  let now := feeAt accountFeeMap (getSourceID tx) in
  if eqb now zero then <[getSourceID tx := r]> accountFeeMap
  else if ltb r now then <[getSourceID tx := r]> accountFeeMap
  else accountFeeMap.

Definition accountFeeMapOf (getFeeRatio : TransactionFramePtr -> t)
    (txs : list TransactionFramePtr) : gmap AccountID t :=
  foldl (feeMapStep getFeeRatio) ∅ txs.

End Double.

(** A fee map with a NaN entry: account 10 at 5, account 11 at NaN, account
    12 at 1. *)
Definition nanFeeMap : gmap AccountID Double.t :=
  <[10%N := Double.Num 5]>
    (<[11%N := Double.NaN]> (<[12%N := Double.Num 1]> ∅)).

(** The fee ratios of [sampleLedger], as doubles. *)
Definition sampleRatio (tx : TransactionFramePtr) : Double.t :=
  Double.Num (getFeeRatio tx sampleLedger).

(** * Properties *)

(** ** Strict weak orderings and the reference platform *)

Lemma swo_asym {A} (cmp : A -> A -> bool) a b :
  StrictWeakOrder cmp -> cmp a b = true -> cmp b a = false.
Proof.
  intros H Hab. destruct (cmp b a) eqn:Hba; [|done].
  rewrite <- (swo_irrefl cmp H a). symmetry. by eapply swo_trans.
Qed.

Lemma swo_negtrans {A} (cmp : A -> A -> bool) a b c :
  StrictWeakOrder cmp -> cmp a c = true -> cmp a b = true \/ cmp b c = true.
Proof.
  intros H Hac.
  destruct (cmp a b) eqn:Hab; [by left|].
  destruct (cmp b c) eqn:Hbc; [by right|].
  destruct (cmp b a) eqn:Hba.
  { right. rewrite <- Hbc. by eapply swo_trans. }
  destruct (cmp c b) eqn:Hcb.
  { left. rewrite <- Hab. by eapply swo_trans. }
  destruct (swo_incomp cmp H a b c) as [E _]; congruence.
Qed.

Lemma notAfter_trans {A} (cmp : A -> A -> bool) a b c :
  StrictWeakOrder cmp -> notAfter cmp a b -> notAfter cmp b c -> notAfter cmp a c.
Proof.
  unfold notAfter. intros H Hab Hbc.
  destruct (cmp c a) eqn:Hca; [|done].
  destruct (swo_negtrans cmp c b a H Hca); congruence.
Qed.

Lemma insert_sorted_perm {A} (cmp : A -> A -> bool) x l :
  insert_sorted cmp x l ≡ₚ x :: l.
Proof.
  induction l as [|y l IH]; simpl; [done|].
  destruct (cmp x y); [done|]. rewrite IH. apply Permutation_swap.
Qed.

Lemma insert_sorted_sorted {A} (cmp : A -> A -> bool) x l :
  StrictWeakOrder cmp ->
  StronglySorted (notAfter cmp) l ->
  StronglySorted (notAfter cmp) (insert_sorted cmp x l).
Proof.
  intros H. induction 1 as [|y l Hl IH Hy]; simpl.
  - repeat constructor.
  - destruct (cmp x y) eqn:Hxy.
    + constructor; [by constructor|]. constructor.
      * by apply swo_asym.
      * eapply Forall_impl; [exact Hy|]. intros z Hz.
        eapply notAfter_trans; [done| |exact Hz]. by apply swo_asym.
    + constructor; [done|]. rewrite insert_sorted_perm. by constructor.
Qed.

Lemma insertion_sort_snoc {A} (cmp : A -> A -> bool) l x :
  insertion_sort cmp (l ++ [x]) = insert_sorted cmp x (insertion_sort cmp l).
Proof. unfold insertion_sort. by rewrite foldl_app. Qed.

Lemma insertion_sort_perm {A} (cmp : A -> A -> bool) l :
  insertion_sort cmp l ≡ₚ l.
Proof.
  induction l as [|x l IH] using rev_ind; [done|].
  rewrite insertion_sort_snoc, insert_sorted_perm, IH.
  by rewrite Permutation_app_comm.
Qed.

Lemma insertion_sort_sorted {A} (cmp : A -> A -> bool) l :
  StrictWeakOrder cmp -> StronglySorted (notAfter cmp) (insertion_sort cmp l).
Proof.
  intros H. induction l as [|x l IH] using rev_ind; [constructor|].
  rewrite insertion_sort_snoc. by apply insert_sorted_sorted.
Qed.

#[global] Program Instance reference_platform : Platform := {|
  std_sort := @insertion_sort;
  sha256 := toy_digest
|}.
Next Obligation. intros. apply insertion_sort_perm. Qed.
Next Obligation. intros. by apply insertion_sort_sorted. Qed.

(** ** Comparators are strict weak orderings *)

Lemma swo_by_key {A} (key : A -> N) :
  StrictWeakOrder (fun a b => (key a <? key b)%N).
Proof.
  split.
  - intros a. apply N.ltb_irrefl.
  - intros a b c. rewrite !N.ltb_lt. lia.
  - intros a b c. rewrite !N.ltb_ge. split; lia.
Qed.

Lemma HashTxSorter_swo : StrictWeakOrder HashTxSorter.
Proof. apply (swo_by_key getFullHash). Qed.

Lemma SeqSorter_swo : StrictWeakOrder SeqSorter.
Proof. apply (swo_by_key getSeqNum). Qed.

Lemma ApplyTxSorter_swo h : StrictWeakOrder (ApplyTxSorter h).
Proof. apply (swo_by_key (fun tx => N.lxor (getFullHash tx) h)). Qed.

Lemma notAfter_HashTxSorter a b :
  notAfter HashTxSorter a b <-> (getFullHash a <= getFullHash b)%N.
Proof. unfold notAfter, HashTxSorter. rewrite N.ltb_ge. done. Qed.

Lemma notAfter_SeqSorter a b :
  notAfter SeqSorter a b <-> (getSeqNum a <= getSeqNum b)%N.
Proof. unfold notAfter, SeqSorter. rewrite N.ltb_ge. done. Qed.

Lemma StronglySorted_impl {A} (R1 R2 : A -> A -> Prop) l :
  (forall a b, R1 a b -> R2 a b) -> StronglySorted R1 l -> StronglySorted R2 l.
Proof.
  intros HR. induction 1 as [|x l Hl IH Hx]; constructor; [done|].
  eapply Forall_impl; [exact Hx|]. auto.
Qed.

Lemma StronglySorted_filter {A} (R : A -> A -> Prop) (Q : A -> Prop)
    `{!forall x, Decision (Q x)} l :
  StronglySorted R l -> StronglySorted R (filter Q l).
Proof.
  induction 1 as [|x l Hl IH Hx]; [constructor|].
  rewrite filter_cons. case_decide; [|done].
  constructor; [done|].
  rewrite Forall_forall in Hx |- *. intros y Hy.
  apply list_elem_of_filter in Hy as [_ Hy]. by apply Hx.
Qed.

(** ** The content hash *)

Section ContentsHash.
Context {P : Platform}.

Lemma hasher_foldl (txs : list TransactionFramePtr) acc :
  foldl (fun h tx => SHA256_add h (xdr_to_opaque (getEnvelope tx))) acc txs
  = acc ++ concat (map (fun tx => xdr_to_opaque (getEnvelope tx)) txs).
Proof.
  revert acc. induction txs as [|tx txs IH]; intros acc; simpl.
  - by rewrite app_nil_r.
  - rewrite IH. unfold SHA256_add. by rewrite <- app_assoc.
Qed.

Lemma getContentsHash_invalid s :
  mHashIsValid s = false ->
  getContentsHash s =
    (sha256 (hashInput (mPreviousLedgerHash s)
                       (std_sort HashTxSorter (mTransactions s))),
     {| mHashIsValid := true;
        mHash := sha256 (hashInput (mPreviousLedgerHash s)
                                   (std_sort HashTxSorter (mTransactions s)));
        mPreviousLedgerHash := mPreviousLedgerHash s;
        mTransactions := std_sort HashTxSorter (mTransactions s) |}).
Proof.
  intros Hv. unfold getContentsHash. rewrite Hv. simpl.
  rewrite hasher_foldl. done.
Qed.

Lemma getContentsHash_valid s :
  mHashIsValid s = true -> getContentsHash s = (mHash s, s).
Proof. intros Hv. unfold getContentsHash. by rewrite Hv. Qed.

Lemma getContentsHash_cached s :
  mHashIsValid (snd (getContentsHash s)) = true /\
  mHash (snd (getContentsHash s)) = fst (getContentsHash s).
Proof.
  destruct (mHashIsValid s) eqn:Hv.
  - by rewrite getContentsHash_valid.
  - by rewrite getContentsHash_invalid.
Qed.

Lemma getContentsHash_again s :
  getContentsHash (snd (getContentsHash s))
  = (fst (getContentsHash s), snd (getContentsHash s)).
Proof.
  destruct (getContentsHash_cached s) as [Hv Hh].
  rewrite (getContentsHash_valid _ Hv). by rewrite Hh.
Qed.

Lemma sortForHash_sorted s :
  StronglySorted (fun a b => (getFullHash a <= getFullHash b)%N)
                 (mTransactions (sortForHash s)).
Proof.
  eapply StronglySorted_impl; [|apply std_sort_sorted, HashTxSorter_swo].
  intros a b. by rewrite notAfter_HashTxSorter.
Qed.

(** C1. [getContentsHash] returns the cached hash when the cache is valid
    and leaves the frame alone; otherwise it puts the transactions in
    ascending [fullHash] order (a permutation of what was there), returns
    the SHA-256 digest of the bytes of [previousLedgerHash] followed by the
    wire form of each envelope in that order, and stores the digest with
    the valid flag set.  However many calls came before, with nothing else
    done to the frame, the next call returns the same hash. *)
Theorem getContentsHash_spec (s : TxSetFrame) :
  let canonical := std_sort HashTxSorter (mTransactions s) in
  let digest :=
    sha256 (hashBytes (mPreviousLedgerHash s)
            ++ concat (map (fun tx => xdr_to_opaque (getEnvelope tx)) canonical)) in
  (if mHashIsValid s then getContentsHash s = (mHash s, s)
   else getContentsHash s =
          (digest, {| mHashIsValid := true;
                      mHash := digest;
                      mPreviousLedgerHash := mPreviousLedgerHash s;
                      mTransactions := canonical |}))
  /\ canonical ≡ₚ mTransactions s
  /\ StronglySorted (fun a b => (getFullHash a <= getFullHash b)%N) canonical
  /\ (forall n : nat,
        fst (getContentsHash (Nat.iter n (fun s' => snd (getContentsHash s')) s))
        = fst (getContentsHash s)).
Proof.
  intros canonical digest. repeat split.
  - destruct (mHashIsValid s) eqn:Hv.
    + by apply getContentsHash_valid.
    + by apply getContentsHash_invalid.
  - apply std_sort_perm, HashTxSorter_swo.
  - apply (sortForHash_sorted s).
  - intros n. induction n as [|n IH]; [done|].
    simpl. by rewrite getContentsHash_again.
Qed.
End ContentsHash.

(** ** The batches of [sortForApply] *)

Lemma batchAt_resize bs n j :
  (length bs <= n)%nat -> batchAt (resize n [] bs) j = batchAt bs j.
Proof.
  intros Hn. unfold batchAt.
  destruct (decide (j < length bs)%nat) as [Hj|Hj].
  - rewrite lookup_resize by lia. done.
  - rewrite (lookup_ge_None_2 bs j) by lia.
    destruct (decide (j < n)%nat).
    + rewrite lookup_resize_new by lia. done.
    + rewrite lookup_resize_old by lia. done.
Qed.

Lemma batchAt_alter f bs v j :
  (v < length bs)%nat ->
  batchAt (alter f v bs) j = if decide (j = v) then f (batchAt bs v) else batchAt bs j.
Proof.
  intros Hv. unfold batchAt. case_decide as Hj.
  - subst j. rewrite list_lookup_alter_eq.
    destruct (lookup_lt_is_Some_2 bs v Hv) as [b Hb]. by rewrite Hb.
  - by rewrite list_lookup_alter_ne.
Qed.

Lemma filter_snoc_account A (p : list TransactionFramePtr) tx :
  filter (fromAccount A) (p ++ [tx])
  = filter (fromAccount A) p ++ (if decide (getSourceID tx = A) then [tx] else []).
Proof.
  rewrite filter_app. by f_equal.
Qed.

Lemma batchStep_length bs m tx :
  (length bs <= length (fst (batchStep (bs, m) tx)))%nat.
Proof.
  simpl. rewrite length_alter. case_decide; [|done].
  rewrite length_resize. lia.
Qed.

Lemma foldl_batchStep_length p bs m :
  (length bs <= length (fst (foldl batchStep (bs, m) p)))%nat.
Proof.
  revert bs m. induction p as [|tx p IH]; intros bs m; [done|].
  change (foldl batchStep (bs, m) (tx :: p))
    with (foldl batchStep (batchStep (bs, m) tx) p).
  destruct (batchStep (bs, m) tx) as [bs' m'] eqn:E.
  pose proof (batchStep_length bs m tx) as H. rewrite E in H.
  etrans; [exact H|apply IH].
Qed.

Lemma buildBatches_nonempty retList : buildBatches retList <> [].
Proof.
  unfold buildBatches. intros E.
  pose proof (foldl_batchStep_length retList (replicate 4 []) ∅) as H.
  rewrite E in H. simpl in H. lia.
Qed.

(** After the transactions [p] were distributed, the count of an account is
    the number of its transactions in [p], and batch [j] holds of each
    account exactly its [j]-th transaction of [p], if there is one. *)
Lemma foldl_batchStep_inv (p : list TransactionFramePtr) :
  forall bs m, foldl batchStep (replicate 4 [], ∅) p = (bs, m) ->
    (forall A, default 0%nat (m !! A) = length (filter (fromAccount A) p)) /\
    (forall A j, filter (fromAccount A) (batchAt bs j)
                 = option_list (filter (fromAccount A) p !! j)).
Proof.
  induction p as [|tx p IH] using rev_ind; intros bs m E.
  - simpl in E. injection E as <- <-. split; [done|].
    intros A j. unfold batchAt. rewrite filter_nil, lookup_nil.
    do 4 (destruct j as [|j]; [done|]). done.
  - rewrite foldl_app in E.
    destruct (foldl batchStep (replicate 4 [], ∅) p) as [bs0 m0] eqn:E0.
    destruct (IH bs0 m0 eq_refl) as [Hcount Hbatch]. clear IH.
    simpl in E. injection E as <- <-.
    set (v := default 0%nat (m0 !! getSourceID tx)).
    set (bs1 := if decide (length bs0 <= v)%nat then resize (v + 4) [] bs0 else bs0).
    assert (Hlen : (v < length bs1)%nat).
    { unfold bs1. case_decide; [rewrite length_resize|]; lia. }
    assert (Hat : forall j, batchAt bs1 j = batchAt bs0 j).
    { intros j. unfold bs1. case_decide; [|done]. apply batchAt_resize. lia. }
    assert (Hv : v = length (filter (fromAccount (getSourceID tx)) p)).
    { unfold v. apply Hcount. }
    split.
    + intros A. rewrite filter_snoc_account, length_app.
      destruct (decide (getSourceID tx = A)) as [<-|Hne].
      * rewrite lookup_insert_eq. simpl. lia.
      * rewrite lookup_insert_ne by done. rewrite Hcount. simpl. lia.
    + intros A j. rewrite batchAt_alter by done. rewrite !Hat.
      rewrite filter_snoc_account.
      destruct (decide (getSourceID tx = A)) as [<-|Hne].
      * case_decide as Hj.
        -- subst j. rewrite filter_app, Hbatch.
           rewrite (lookup_ge_None_2 (filter _ p)) by lia.
           rewrite filter_cons, filter_nil. unfold fromAccount at 1.
           rewrite decide_True by done. simpl.
           rewrite lookup_app_r by lia. rewrite <- Hv, Nat.sub_diag. done.
        -- rewrite Hbatch. destruct (decide (j < v)%nat).
           ++ rewrite lookup_app_l by lia. done.
           ++ rewrite (lookup_ge_None_2 (filter _ p)) by lia.
              rewrite lookup_ge_None_2; [done|]. rewrite length_app. simpl. lia.
      * rewrite app_nil_r. case_decide as Hj; [|apply Hbatch].
        subst j. rewrite filter_app, Hbatch.
        rewrite filter_cons, filter_nil. unfold fromAccount at 2.
        rewrite decide_False by done. by rewrite app_nil_r.
Qed.

Lemma filter_concat {A} (Q : A -> Prop) `{!forall x, Decision (Q x)} (ls : list (list A)) :
  filter Q (concat ls) = concat (map (filter Q) ls).
Proof.
  induction ls as [|l ls IH]; [done|]. simpl. by rewrite filter_app, IH.
Qed.

Lemma Permutation_short {A} (l1 l2 : list A) :
  l1 ≡ₚ l2 -> (length l2 <= 1)%nat -> l1 = l2.
Proof.
  intros Hp Hlen. destruct l2 as [|x [|y l2]]; simpl in Hlen; [| |lia].
  - by apply Permutation_nil_r.
  - by apply Permutation_singleton_r.
Qed.

Lemma map_batchAt {B} (g : list TransactionFramePtr -> B) bs :
  map g bs = map (fun j => g (batchAt bs j)) (seq 0 (length bs)).
Proof.
  apply list_eq. intros i. rewrite !list_lookup_fmap.
  destruct (decide (i < length bs)%nat) as [Hi|Hi].
  - rewrite lookup_seq_lt by done. simpl. unfold batchAt.
    destruct (lookup_lt_is_Some_2 bs i Hi) as [b Hb]. by rewrite Hb.
  - rewrite lookup_ge_None_2 by lia.
    rewrite (lookup_ge_None_2 (seq 0 _)); [done|]. rewrite length_seq. lia.
Qed.

Lemma concat_option_list_lookup {A} (l : list A) n :
  (length l <= n)%nat ->
  concat (map (fun j => option_list (l !! j)) (seq 0 n)) = l.
Proof.
  revert n. induction l as [|x l IH]; intros n Hn.
  - clear Hn. induction n as [|n IHn] using nat_ind; [done|].
    rewrite seq_S, map_app, concat_app, IHn. done.
  - destruct n as [|n]; simpl in Hn; [lia|].
    simpl. f_equal. rewrite <- fmap_S_seq.
    change (map ?f (S <$> ?l)) with (f <$> (S <$> l)).
    rewrite <- list_fmap_compose. apply IH. lia.
Qed.

(** ** The apply order *)

Section ApplyOrder.
Context {P : Platform}.

Lemma applyBatches_valid s acc bs :
  mHashIsValid s = true ->
  foldl applyBatch (acc, s) bs
  = (acc ++ concat (map (std_sort (ApplyTxSorter (mHash s))) bs), s).
Proof.
  intros Hv. revert acc. induction bs as [|b bs IH]; intros acc; simpl.
  - by rewrite app_nil_r.
  - rewrite (getContentsHash_valid s Hv), IH. by rewrite <- app_assoc.
Qed.

(** [sortForApply] in one equation: the batches of the sequence-sorted
    copy, each sorted with the content hash, one after the other; the
    frame is left as [getContentsHash] leaves it. *)
Lemma sortForApply_eq s :
  sortForApply s =
    (concat (map (std_sort (ApplyTxSorter (fst (getContentsHash s))))
                 (buildBatches (std_sort SeqSorter (mTransactions s)))),
     snd (getContentsHash s)).
Proof.
  unfold sortForApply.
  pose proof (buildBatches_nonempty (std_sort SeqSorter (mTransactions s))) as Hne.
  destruct (buildBatches (std_sort SeqSorter (mTransactions s))) as [|b bs]; [done|].
  simpl. destruct (getContentsHash_cached s) as [Hv Hh].
  destruct (getContentsHash s) as [h s'] eqn:E. simpl in *.
  rewrite (applyBatches_valid s' _ bs Hv). by rewrite Hh.
Qed.

Lemma buildBatches_filter A retList j :
  filter (fromAccount A) (batchAt (buildBatches retList) j)
  = option_list (filter (fromAccount A) retList !! j).
Proof.
  unfold buildBatches.
  destruct (foldl batchStep (replicate 4 [], ∅) retList) as [bs m] eqn:E.
  by destruct (foldl_batchStep_inv retList bs m E) as [_ H].
Qed.

Lemma buildBatches_enough A retList :
  (length (filter (fromAccount A) retList) <= length (buildBatches retList))%nat.
Proof.
  destruct (decide (length (filter (fromAccount A) retList)
                    <= length (buildBatches retList))%nat) as [|Hlt]; [done|].
  exfalso.
  pose proof (buildBatches_filter A retList (length (buildBatches retList))) as H.
  unfold batchAt in H. rewrite lookup_ge_None_2 in H by lia. simpl in H.
  destruct (lookup_lt_is_Some_2 (filter (fromAccount A) retList)
              (length (buildBatches retList))) as [x Hx]; [lia|].
  rewrite Hx in H. done.
Qed.

(** Sorting the batches one by one does not disturb the order of one
    account's transactions: each batch holds at most one of them. *)
Lemma sorted_batches_filter A retList (f : list TransactionFramePtr -> list TransactionFramePtr) :
  (forall b, f b ≡ₚ b) ->
  filter (fromAccount A) (concat (map f (buildBatches retList)))
  = filter (fromAccount A) retList.
Proof.
  intros Hf. rewrite filter_concat, map_map.
  rewrite (map_batchAt (fun b => filter (fromAccount A) (f b))).
  etrans;
    [|apply (concat_option_list_lookup _ (length (buildBatches retList))),
        buildBatches_enough].
  f_equal. apply map_ext. intros j.
  rewrite <- buildBatches_filter. apply Permutation_short.
  - by rewrite Hf.
  - rewrite buildBatches_filter.
    destruct (filter (fromAccount A) retList !! j); simpl; lia.
Qed.

Lemma sortForApply_filter s A :
  filter (fromAccount A) (fst (sortForApply s))
  = filter (fromAccount A) (std_sort SeqSorter (mTransactions s)).
Proof.
  rewrite sortForApply_eq. simpl. apply sorted_batches_filter.
  intros b. apply std_sort_perm, ApplyTxSorter_swo.
Qed.

Lemma sortForApply_filter_perm s A :
  filter (fromAccount A) (fst (sortForApply s))
  ≡ₚ filter (fromAccount A) (mTransactions s).
Proof.
  rewrite sortForApply_filter.
  by rewrite (std_sort_perm _ SeqSorter (mTransactions s) SeqSorter_swo).
Qed.

Lemma sortForApply_filter_sorted s A :
  StronglySorted (fun a b => (getSeqNum a <= getSeqNum b)%N)
                 (filter (fromAccount A) (fst (sortForApply s))).
Proof.
  rewrite sortForApply_filter. apply StronglySorted_filter.
  eapply StronglySorted_impl; [|apply std_sort_sorted, SeqSorter_swo].
  intros a b. by rewrite notAfter_SeqSorter.
Qed.
End ApplyOrder.

Lemma strictly_sorted_of_NoDup (l : list TransactionFramePtr) :
  StronglySorted (fun a b => (getSeqNum a <= getSeqNum b)%N) l ->
  NoDup (map getSeqNum l) ->
  StronglySorted (fun a b => (getSeqNum a < getSeqNum b)%N) l.
Proof.
  induction 1 as [|x l Hl IH Hx]; intros Hnd; [constructor|].
  simpl in Hnd. apply NoDup_cons in Hnd as [Hnotin Hnd].
  constructor; [by apply IH|].
  rewrite Forall_forall in Hx |- *. intros y Hy.
  assert (getSeqNum x <> getSeqNum y).
  { intros E. apply Hnotin. rewrite E. by apply list_elem_of_fmap_2. }
  specialize (Hx y Hy). lia.
Qed.

Section ApplyOrderClaims.
Context {P : Platform}.

(** C3 (amended). In the list [sortForApply] returns, the transactions of
    an account [A] are exactly those the set holds for [A], in ascending
    (non-decreasing) [seqNum] order; the order is strictly ascending when
    the sequence numbers of [A]'s transactions in the set are pairwise
    distinct. *)
Theorem sortForApply_account_order (s : TxSetFrame) (A : AccountID) :
  let ofA := filter (fromAccount A) (fst (sortForApply s)) in
  ofA ≡ₚ filter (fromAccount A) (mTransactions s)
  /\ StronglySorted (fun a b => (getSeqNum a <= getSeqNum b)%N) ofA
  /\ (NoDup (map getSeqNum (filter (fromAccount A) (mTransactions s))) ->
      StronglySorted (fun a b => (getSeqNum a < getSeqNum b)%N) ofA).
Proof.
  intros ofA. split; [apply sortForApply_filter_perm|].
  split; [apply sortForApply_filter_sorted|].
  intros Hnd. apply strictly_sorted_of_NoDup; [apply sortForApply_filter_sorted|].
  unfold ofA. by rewrite sortForApply_filter_perm.
Qed.

(** C4 (amended). [sortForApply] returns a new list and keeps the parent
    hash and the multiset of stored transactions; the stored order is kept
    when the hash cache is valid on entry, and is otherwise the
    [fullHash] order [sortForHash] gives, because the content hash is
    computed on the way. *)
Theorem sortForApply_stored_transactions (s : TxSetFrame) :
  mTransactions (snd (sortForApply s))
    = (if mHashIsValid s then mTransactions s
       else std_sort HashTxSorter (mTransactions s))
  /\ mTransactions (snd (sortForApply s)) ≡ₚ mTransactions s
  /\ mPreviousLedgerHash (snd (sortForApply s)) = mPreviousLedgerHash s.
Proof.
  rewrite sortForApply_eq. simpl.
  destruct (mHashIsValid s) eqn:Hv.
  - by rewrite getContentsHash_valid.
  - rewrite getContentsHash_invalid by done. simpl.
    split; [done|]. split; [|done]. apply std_sort_perm, HashTxSorter_swo.
Qed.
End ApplyOrderClaims.

(** C3, as stated, fails: two transactions of account 10 with the same
    sequence number come out next to each other whatever the platform's
    sort does, and 1 < 1 does not hold. *)
Lemma sortForApply_not_strictly_ascending :
  ~ (exists P : Platform,
       StronglySorted (fun a b => (getSeqNum a < getSeqNum b)%N)
         (filter (fromAccount 10%N)
                 (fst (@sortForApply P (frameOf [txA1; txA1']))))).
Proof.
  intros [P H].
  pose proof (@sortForApply_filter_perm P (frameOf [txA1; txA1']) 10%N) as Hp.
  change (filter (fromAccount 10%N) (mTransactions (frameOf [txA1; txA1'])))
    with [txA1; txA1'] in Hp.
  symmetry in Hp. apply Permutation_length_2_inv in Hp as [E|E];
    rewrite E in H; inversion H as [|? ? _ Hx]; subst;
    apply Forall_cons in Hx as [Hx _]; vm_compute in Hx; discriminate.
Qed.

Lemma sortForApply_account_order_witness :
  StronglySorted (fun a b => (getSeqNum a < getSeqNum b)%N)
    (filter (fromAccount 10%N)
            (fst (@sortForApply reference_platform (frameOf [txA2; txB5; txA1])))).
Proof.
  apply (sortForApply_account_order (frameOf [txA2; txB5; txA1]) 10%N).
  apply (bool_decide_unpack _). vm_compute. exact I.
Defined.

(** C4, as stated, fails: with the cache not valid, a frame that stores
    [0xAA] before [0x31] stores them the other way round after
    [sortForApply], whatever the platform's sort does with ties. *)
Lemma sortForApply_reorders_stored_transactions :
  ~ (exists P : Platform,
       mTransactions (snd (@sortForApply P (frameOf [txA1; txA2])))
       = mTransactions (frameOf [txA1; txA2])).
Proof.
  intros [P H]. rewrite sortForApply_eq in H. simpl in H.
  pose proof (std_sort_sorted _ HashTxSorter [txA1; txA2] HashTxSorter_swo) as Hs.
  rewrite H in Hs. inversion Hs as [|? ? _ Hx]; subst.
  apply Forall_cons in Hx as [Hx _]. vm_compute in Hx. discriminate.
Qed.

(** ** Determinism of the apply order *)

Lemma NoDup_at_most_one_per_account (b : list TransactionFramePtr) :
  (forall A, (length (filter (fromAccount A) b) <= 1)%nat) -> NoDup b.
Proof.
  induction b as [|x b IH]; intros H; [constructor|].
  apply NoDup_cons. split.
  - intros Hin. specialize (H (getSourceID x)).
    rewrite filter_cons_True in H by done. simpl in H.
    assert (x ∈ filter (fromAccount (getSourceID x)) b) as Hx
      by (by apply list_elem_of_filter).
    destruct (filter (fromAccount (getSourceID x)) b); [by inv Hx|simpl in H; lia].
  - apply IH. intros A. specialize (H A). rewrite filter_cons in H.
    case_decide; simpl in H; lia.
Qed.

Lemma fmap_inj_on_NoDup {A B} (f : A -> B) (l : list A) x y :
  NoDup (map f l) -> x ∈ l -> y ∈ l -> f x = f y -> x = y.
Proof.
  induction l as [|z l IH]; intros Hnd Hx Hy E; [by inv Hx|].
  simpl in Hnd. apply NoDup_cons in Hnd as [Hz Hnd].
  inv Hx; inv Hy; [done| | |by apply IH].
  - exfalso. apply Hz. rewrite E. by apply list_elem_of_fmap_2.
  - exfalso. apply Hz. rewrite <- E. by apply list_elem_of_fmap_2.
Qed.

Lemma lxor_cancel_r (a b k : N) : N.lxor a k = N.lxor b k -> a = b.
Proof.
  intros E. apply (f_equal (fun z => N.lxor z k)) in E.
  by rewrite !N.lxor_assoc, !N.lxor_nilpotent, !N.lxor_0_r in E.
Qed.

Lemma concat_nils {A B} (g : B -> list A) (l : list B) :
  (forall x, x ∈ l -> g x = []) -> concat (map g l) = [].
Proof.
  induction l as [|x l IH]; intros H; [done|]. simpl.
  rewrite (H x) by left. apply IH. intros y Hy. apply H. by right.
Qed.

Lemma concat_map_batchAt_pad (f : list TransactionFramePtr -> list TransactionFramePtr) bs n :
  f [] = [] -> (length bs <= n)%nat ->
  concat (map f bs) = concat (map (fun j => f (batchAt bs j)) (seq 0 n)).
Proof.
  intros Hnil Hn. rewrite (map_batchAt f).
  replace n with (length bs + (n - length bs))%nat at 1 by lia.
  rewrite seq_app, map_app, concat_app. simpl.
  rewrite (concat_nils _ (seq (length bs) _)); [by rewrite app_nil_r|].
  intros j Hj. apply elem_of_seq in Hj. unfold batchAt.
  rewrite lookup_ge_None_2 by lia. done.
Qed.

Section Determinism.
Context {P : Platform}.

Lemma getContentsHash_coherent s :
  cacheCoherent s ->
  fst (getContentsHash s)
  = sha256 (hashInput (mPreviousLedgerHash s)
                      (std_sort HashTxSorter (mTransactions s))).
Proof.
  intros Hc. destruct (mHashIsValid s) eqn:Hv.
  - rewrite getContentsHash_valid by done. by apply Hc.
  - by rewrite getContentsHash_invalid.
Qed.

Lemma std_sort_nil {A} (cmp : A -> A -> bool) :
  StrictWeakOrder cmp -> std_sort cmp [] = [].
Proof. intros H. apply Permutation_nil_r. by apply std_sort_perm. Qed.

Lemma batch_NoDup retList j : NoDup (batchAt (buildBatches retList) j).
Proof.
  apply NoDup_at_most_one_per_account. intros A.
  rewrite buildBatches_filter.
  destruct (filter (fromAccount A) retList !! j); simpl; lia.
Qed.

Lemma batch_elem retList j tx :
  tx ∈ batchAt (buildBatches retList) j
  <-> filter (fromAccount (getSourceID tx)) retList !! j = Some tx.
Proof.
  split.
  - intros Hin.
    assert (tx ∈ filter (fromAccount (getSourceID tx))
                   (batchAt (buildBatches retList) j)) as H
      by (by apply list_elem_of_filter).
    rewrite buildBatches_filter in H.
    destruct (filter _ retList !! j) as [y|]; simpl in H; [|by inv H].
    apply list_elem_of_singleton in H. by subst.
  - intros E.
    assert (tx ∈ filter (fromAccount (getSourceID tx))
                   (batchAt (buildBatches retList) j)) as H.
    { rewrite buildBatches_filter, E. simpl. by left. }
    by apply list_elem_of_filter in H as [_ H].
Qed.

Lemma batches_perm ret1 ret2 :
  (forall A, filter (fromAccount A) ret1 = filter (fromAccount A) ret2) ->
  forall j, batchAt (buildBatches ret1) j ≡ₚ batchAt (buildBatches ret2) j.
Proof.
  intros H j. apply NoDup_Permutation; [apply batch_NoDup..|].
  intros x. by rewrite !batch_elem, H.
Qed.

(** One account's transactions come out of the sequence sort in one order
    only, when no two of them share a sequence number. *)
Lemma seq_sorted_filter_unique txs1 txs2 A :
  txs1 ≡ₚ txs2 ->
  NoDup (map (fun tx => (getSourceID tx, getSeqNum tx)) txs1) ->
  filter (fromAccount A) (std_sort SeqSorter txs1)
  = filter (fromAccount A) (std_sort SeqSorter txs2).
Proof.
  intros Hp Hnd.
  apply (StronglySorted_unique_strong (notAfter SeqSorter)).
  - intros x1 x2 H1 H2 H12 H21.
    apply list_elem_of_filter in H1 as [HA1 H1].
    apply list_elem_of_filter in H2 as [HA2 H2].
    rewrite std_sort_perm in H1 by apply SeqSorter_swo.
    rewrite std_sort_perm, <- Hp in H2 by apply SeqSorter_swo.
    apply notAfter_SeqSorter in H12, H21.
    apply (fmap_inj_on_NoDup _ _ _ _ Hnd H1 H2).
    unfold fromAccount in *. f_equal; [congruence|lia].
  - apply StronglySorted_filter, std_sort_sorted, SeqSorter_swo.
  - apply StronglySorted_filter, std_sort_sorted, SeqSorter_swo.
  - rewrite !std_sort_perm by apply SeqSorter_swo. by rewrite Hp.
Qed.

(** A batch comes out of the hash-xor sort in one order only, when no two
    of its transactions share a full hash. *)
Lemma apply_sorted_unique h b1 b2 :
  b1 ≡ₚ b2 ->
  (forall x y, x ∈ b1 -> y ∈ b1 -> getFullHash x = getFullHash y -> x = y) ->
  std_sort (ApplyTxSorter h) b1 = std_sort (ApplyTxSorter h) b2.
Proof.
  intros Hp Hinj.
  apply (StronglySorted_unique_strong (notAfter (ApplyTxSorter h))).
  - intros x1 x2 H1 H2 H12 H21.
    rewrite std_sort_perm in H1 by apply ApplyTxSorter_swo.
    rewrite std_sort_perm, <- Hp in H2 by apply ApplyTxSorter_swo.
    apply Hinj; [done..|].
    unfold notAfter, ApplyTxSorter, lessThanXored in H12, H21.
    apply N.ltb_ge in H12, H21. apply (lxor_cancel_r _ _ h). lia.
  - apply std_sort_sorted, ApplyTxSorter_swo.
  - apply std_sort_sorted, ApplyTxSorter_swo.
  - rewrite !std_sort_perm by apply ApplyTxSorter_swo. done.
Qed.

Lemma batch_subset retList j tx :
  tx ∈ batchAt (buildBatches retList) j -> tx ∈ retList.
Proof.
  rewrite batch_elem. intros E. apply list_elem_of_lookup_2 in E.
  by apply list_elem_of_filter in E as [_ E].
Qed.

(** C8 (amended). Two frames with coherent hash caches, the same parent
    hash and the same canonical (hash-sorted) transaction list get the same
    apply list from [sortForApply], provided the full hashes in the set are
    pairwise distinct and no account has two transactions with the same
    sequence number. *)
Theorem sortForApply_deterministic (s1 s2 : TxSetFrame) :
  cacheCoherent s1 -> cacheCoherent s2 ->
  NoDup (map getFullHash (mTransactions s1)) ->
  NoDup (map (fun tx => (getSourceID tx, getSeqNum tx)) (mTransactions s1)) ->
  mPreviousLedgerHash s1 = mPreviousLedgerHash s2 ->
  mTransactions (sortForHash s1) = mTransactions (sortForHash s2) ->
  fst (sortForApply s1) = fst (sortForApply s2).
Proof.
  intros Hc1 Hc2 Hhash Hseq Hprev Hcanon. simpl in Hcanon.
  assert (Hp : mTransactions s1 ≡ₚ mTransactions s2).
  { rewrite <- (std_sort_perm _ HashTxSorter (mTransactions s1)),
            <- (std_sort_perm _ HashTxSorter (mTransactions s2))
      by apply HashTxSorter_swo.
    by rewrite Hcanon. }
  rewrite !sortForApply_eq. simpl.
  rewrite (getContentsHash_coherent s1 Hc1), (getContentsHash_coherent s2 Hc2).
  rewrite Hprev, Hcanon.
  set (h := sha256 _).
  set (bs1 := buildBatches (std_sort SeqSorter (mTransactions s1))).
  set (bs2 := buildBatches (std_sort SeqSorter (mTransactions s2))).
  rewrite (concat_map_batchAt_pad _ bs1 (length bs1 `max` length bs2));
    [|apply std_sort_nil, ApplyTxSorter_swo|lia].
  rewrite (concat_map_batchAt_pad _ bs2 (length bs1 `max` length bs2));
    [|apply std_sort_nil, ApplyTxSorter_swo|lia].
  f_equal. apply map_ext. intros j.
  apply apply_sorted_unique.
  - apply batches_perm. intros A. by apply seq_sorted_filter_unique.
  - intros x y Hx Hy. apply (fmap_inj_on_NoDup _ _ _ _ Hhash).
    + apply batch_subset in Hx.
      by rewrite std_sort_perm in Hx by apply SeqSorter_swo.
    + apply batch_subset in Hy.
      by rewrite std_sort_perm in Hy by apply SeqSorter_swo.
Qed.
End Determinism.

(** C8, as stated, fails: [txA1] and [txA1'] belong to one account and have
    one sequence number, so which of them is that account's first (batch 0)
    and which its second (batch 1) is left to the order [std::sort] finds
    them in; a sort that leaves two equivalent elements in place returns the
    stored order. *)
Lemma sortForApply_depends_on_stored_order :
  mPreviousLedgerHash (frameOf [txA1; txA1']) = mPreviousLedgerHash (frameOf [txA1'; txA1])
  /\ mTransactions (@sortForHash reference_platform (frameOf [txA1; txA1']))
     = mTransactions (@sortForHash reference_platform (frameOf [txA1'; txA1]))
  /\ fst (@sortForApply reference_platform (frameOf [txA1; txA1']))
     <> fst (@sortForApply reference_platform (frameOf [txA1'; txA1])).
Proof.
  split; [reflexivity|]. split; [by vm_compute|].
  intros H. vm_compute in H. discriminate H.
Qed.

Lemma sortForApply_deterministic_witness :
  fst (@sortForApply reference_platform (frameOf [txA1; txA2; txB5]))
  = fst (@sortForApply reference_platform (frameOf [txB5; txA2; txA1])).
Proof.
  apply sortForApply_deterministic.
  - intros H. discriminate H.
  - intros H. discriminate H.
  - apply (bool_decide_unpack _). vm_compute. exact I.
  - apply (bool_decide_unpack _). vm_compute. exact I.
  - reflexivity.
  - vm_compute. reflexivity.
Defined.

(** ** [removeTx] *)

Lemma erase_first_absent tx (v : list TransactionFramePtr) :
  tx ∉ v -> erase_first tx v = v.
Proof.
  induction v as [|x v IH]; intros Hnotin; [done|]. simpl.
  apply not_elem_of_cons in Hnotin as [Hne Hnotin].
  rewrite decide_False by done. by rewrite IH.
Qed.

Section RemoveTx.
Context {P : Platform}.

Lemma cacheCoherent_invalid s : mHashIsValid s = false -> cacheCoherent s.
Proof. intros Hv Hv'. congruence. Qed.

(** Every operation of the frame that changes it clears the valid flag, so
    a cache that is marked valid is coherent. *)
Lemma sortForHash_coherent s : cacheCoherent (sortForHash s).
Proof. by apply cacheCoherent_invalid. Qed.

Lemma removeTx_coherent tx s : cacheCoherent (removeTx tx s).
Proof. by apply cacheCoherent_invalid. Qed.

Lemma std_sort_canonical (txs : list TransactionFramePtr) :
  NoDup (map getFullHash txs) ->
  std_sort HashTxSorter (std_sort HashTxSorter txs) = std_sort HashTxSorter txs.
Proof.
  intros Hnd.
  apply (StronglySorted_unique_strong (notAfter HashTxSorter)).
  - intros x1 x2 H1 H2 H12 H21.
    rewrite !std_sort_perm in H1 by apply HashTxSorter_swo.
    rewrite std_sort_perm in H2 by apply HashTxSorter_swo.
    apply notAfter_HashTxSorter in H12, H21.
    apply (fmap_inj_on_NoDup _ _ _ _ Hnd H1 H2). lia.
  - apply std_sort_sorted, HashTxSorter_swo.
  - apply std_sort_sorted, HashTxSorter_swo.
  - apply std_sort_perm, HashTxSorter_swo.
Qed.

Lemma getContentsHash_keeps_coherent s :
  NoDup (map getFullHash (mTransactions s)) ->
  cacheCoherent s -> cacheCoherent (snd (getContentsHash s)).
Proof.
  intros Hnd Hc. destruct (mHashIsValid s) eqn:Hv.
  - by rewrite getContentsHash_valid.
  - rewrite getContentsHash_invalid by done. intros _. simpl.
    by rewrite std_sort_canonical.
Qed.

(** C9 (amended). [removeTx] of a transaction the set does not hold leaves the
    transaction sequence and the parent hash as they were, and the content
    hash asked for afterwards is the one the frame had, provided the cache
    of the frame is coherent: if the valid flag is set, the cached hash is
    the digest of what the frame holds. *)
Theorem removeTx_absent (tx : TransactionFramePtr) (s : TxSetFrame) :
  tx ∉ mTransactions s ->
  mTransactions (removeTx tx s) = mTransactions s
  /\ mPreviousLedgerHash (removeTx tx s) = mPreviousLedgerHash s
  /\ (cacheCoherent s ->
      fst (getContentsHash (removeTx tx s)) = fst (getContentsHash s)).
Proof.
  intros Hnotin.
  assert (E : mTransactions (removeTx tx s) = mTransactions s)
    by (by apply erase_first_absent).
  split; [done|]. split; [done|]. intros Hc.
  rewrite (getContentsHash_coherent s Hc).
  rewrite (getContentsHash_coherent _ (removeTx_coherent tx s)).
  by rewrite E.
Qed.
End RemoveTx.

Lemma removeTx_absent_witness :
  mHashIsValid (snd (@getContentsHash reference_platform (frameOf [txA1; txA2])))
  = true
  /\ fst (@getContentsHash reference_platform
            (removeTx txB5
               (snd (@getContentsHash reference_platform (frameOf [txA1; txA2])))))
     = fst (@getContentsHash reference_platform
              (snd (@getContentsHash reference_platform (frameOf [txA1; txA2])))).
Proof.
  split; [reflexivity|].
  apply (@removeTx_absent reference_platform txB5
           (snd (@getContentsHash reference_platform (frameOf [txA1; txA2])))).
  - apply (bool_decide_unpack _). vm_compute. exact I.
  - intros _. vm_compute. reflexivity.
Defined.

(** C9, as stated, fails without the condition on the cache, whatever the
    platform:
    two frames whose valid flag is set over different cached hashes, with
    the same parent hash and no transaction, return their cached hashes; after
    [removeTx] of a transaction neither holds, which clears the flag, both
    return the digest of the same contents.  One of the two hashes has
    changed. *)
Lemma removeTx_absent_stale_cache :
  ~ (exists P : Platform,
       forall (tx : TransactionFramePtr) (s : TxSetFrame),
         tx ∉ mTransactions s ->
         fst (@getContentsHash P (removeTx tx s)) = fst (@getContentsHash P s)).
Proof.
  intros [P H].
  pose (stale := fun h : Hash =>
          {| mHashIsValid := true; mHash := h;
             mPreviousLedgerHash := 17%N; mTransactions := [] |}).
  assert (Hno : forall h, txB5 ∉ mTransactions (stale h))
    by (intros h Hin; by inv Hin).
  pose proof (H txB5 (stale 0%N) (Hno _)) as H0.
  pose proof (H txB5 (stale 1%N) (Hno _)) as H1.
  rewrite (@getContentsHash_valid P (stale 0%N)) in H0 by done.
  rewrite (@getContentsHash_valid P (stale 1%N)) in H1 by done.
  rewrite (@getContentsHash_invalid P) in H0, H1 by done.
  simpl in H0, H1. rewrite H0 in H1. discriminate H1.
Qed.

(** ** [checkValid]: the structural checks *)

(** C7. [checkValid] answers [false] when the parent hash is not the hash of
    the last closed ledger, or the set holds more transactions than that
    ledger's [maxTxSetSize].  Both tests come first: the answer is the same
    for every application with this ledger manager, whatever its
    transaction-validity, whitelist and balance oracles say. *)
Theorem checkValid_structural `{P : Platform} (app : Application) (s : TxSetFrame) :
  hash (getLastClosedLedgerHeader (getLedgerManager app)) <> mPreviousLedgerHash s
  \/ size (mTransactions s)
     > maxTxSetSize (header (getLastClosedLedgerHeader (getLedgerManager app))) ->
  forall app', getLedgerManager app' = getLedgerManager app ->
    checkValid app' s = false.
Proof.
  intros Hbad app' Hlm. unfold checkValid. rewrite Hlm.
  destruct Hbad as [Hhash|Hsize].
  - by rewrite decide_True.
  - case_decide; [done|]. by rewrite decide_True.
Qed.

Lemma checkValid_structural_witness :
  @checkValid reference_platform sampleApp
    {| mHashIsValid := false; mHash := 0%N; mPreviousLedgerHash := 18%N;
       mTransactions := [txA1] |} = false.
Proof.
  apply (@checkValid_structural reference_platform sampleApp).
  - left. vm_compute. discriminate.
  - reflexivity.
Defined.

(** ** The fee ratio of an account *)

Lemma Qlt_bool_lt a b : Qlt_bool a b = true <-> Qlt a b.
Proof.
  unfold Qlt_bool. rewrite negb_true_iff, <- not_true_iff_false, Qle_bool_iff.
  split; [apply Qnot_le_lt|apply Qlt_not_le].
Qed.

Lemma Qlt_bool_ge a b : Qlt_bool a b = false <-> Qle b a.
Proof. unfold Qlt_bool. by rewrite negb_false_iff, Qle_bool_iff. Qed.

Lemma feeMapStep_other lm m tx A :
  getSourceID tx <> A -> feeMapStep lm m tx !! A = m !! A.
Proof.
  intros Hne. unfold feeMapStep.
  repeat case_match; by rewrite ?lookup_insert_ne.
Qed.

(** What [accountFeeMap] holds for [A] after the transactions [p], when none
    of [A]'s fee ratios is zero: nothing before [A]'s first transaction, the
    least of the ratios seen afterwards. *)
Lemma accountFeeMapOf_inv lm (p : list TransactionFramePtr) A :
  (forall tx, tx ∈ p -> getSourceID tx = A -> ~ Qeq (getFeeRatio tx lm) 0) ->
  match filter (fromAccount A) p with
  | [] => accountFeeMapOf lm p !! A = None
  | _ :: _ =>
      exists tx, tx ∈ p /\ getSourceID tx = A
        /\ accountFeeMapOf lm p !! A = Some (getFeeRatio tx lm)
        /\ forall tx', tx' ∈ p -> getSourceID tx' = A ->
             Qle (getFeeRatio tx lm) (getFeeRatio tx' lm)
  end.
Proof.
  unfold accountFeeMapOf.
  induction p as [|t p IH] using rev_ind; intros Hnz; [done|].
  rewrite foldl_app, filter_snoc_account. simpl.
  assert (Hnz' : forall tx, tx ∈ p -> getSourceID tx = A ->
                   ~ Qeq (getFeeRatio tx lm) 0).
  { intros tx Hin. apply Hnz. apply elem_of_app. by left. }
  specialize (IH Hnz'). set (m := foldl (feeMapStep lm) ∅ p) in *.
  destruct (decide (getSourceID t = A)) as [HA|HA].
  - assert (Hin : t ∈ p ++ [t]) by (apply elem_of_app; right; by left).
    destruct (filter (fromAccount A) p) as [|x l] eqn:Hf; simpl.
    + exists t. split; [done|]. split; [done|]. split.
      * unfold feeMapStep, feeAt. rewrite HA, IH. simpl.
        by rewrite lookup_insert_eq.
      * intros tx' Hin' HA'. apply elem_of_app in Hin' as [Hin'|Hin'].
        -- assert (tx' ∈ filter (fromAccount A) p) as Hx
             by (by apply list_elem_of_filter).
           rewrite Hf in Hx. by inv Hx.
        -- apply list_elem_of_singleton in Hin'. subst. apply Qle_refl.
    + destruct IH as (t0 & Hin0 & HA0 & Hm & Hmin).
      assert (Hnow : feeAt m (getSourceID t) = getFeeRatio t0 lm)
        by (unfold feeAt; by rewrite HA, Hm).
      unfold feeMapStep. rewrite Hnow.
      destruct (Qeq_bool (getFeeRatio t0 lm) 0) eqn:Hz.
      { apply Qeq_bool_iff in Hz. by destruct (Hnz' t0). }
      destruct (Qlt_bool (getFeeRatio t lm) (getFeeRatio t0 lm)) eqn:Hlt.
      * apply Qlt_bool_lt in Hlt. exists t.
        split; [done|]. split; [done|]. split; [by rewrite HA, lookup_insert_eq|].
        intros tx' Hin' HA'. apply elem_of_app in Hin' as [Hin'|Hin'].
        -- eapply Qle_trans; [apply Qlt_le_weak, Hlt|by apply Hmin].
        -- apply list_elem_of_singleton in Hin'. subst. apply Qle_refl.
      * apply Qlt_bool_ge in Hlt. exists t0.
        split; [apply elem_of_app; by left|]. split; [done|]. split; [done|].
        intros tx' Hin' HA'. apply elem_of_app in Hin' as [Hin'|Hin'].
        -- by apply Hmin.
        -- apply list_elem_of_singleton in Hin'. by subst.
  - rewrite app_nil_r, feeMapStep_other by done.
    destruct (filter (fromAccount A) p) as [|x l]; [done|].
    destruct IH as (t0 & Hin0 & HA0 & Hm & Hmin).
    exists t0. split; [apply elem_of_app; by left|].
    split; [done|]. split; [done|].
    intros tx' Hin' HA'. apply elem_of_app in Hin' as [Hin'|Hin'].
    + by apply Hmin.
    + apply list_elem_of_singleton in Hin'. by subst.
Qed.

(** With no zero ratio among them, the entry of an account that has a
    transaction in the set is the least of its fee ratios. *)
Lemma accountFeeMapOf_min_nonzero lm (txs : list TransactionFramePtr) A t :
  (forall tx, tx ∈ txs -> getSourceID tx = A -> ~ Qeq (getFeeRatio tx lm) 0) ->
  t ∈ txs -> getSourceID t = A ->
  exists tx, tx ∈ txs /\ getSourceID tx = A
    /\ feeAt (accountFeeMapOf lm txs) A = getFeeRatio tx lm
    /\ forall tx', tx' ∈ txs -> getSourceID tx' = A ->
         Qle (getFeeRatio tx lm) (getFeeRatio tx' lm).
Proof.
  intros Hnz Hin HA. pose proof (accountFeeMapOf_inv lm txs A Hnz) as H.
  assert (t ∈ filter (fromAccount A) txs) as Hx by (by apply list_elem_of_filter).
  destruct (filter (fromAccount A) txs) as [|x l]; [by inv Hx|].
  destruct H as (t0 & Hin0 & HA0 & Hm & Hmin). exists t0.
  unfold feeAt. by rewrite Hm.
Qed.

(** C5 fails on the code when a fee ratio is zero: zero is also what the loop
    reads for "no entry yet", so the entry of account 10 is overwritten by
    the next ratio it meets, 5, though the least ratio of the account is 0. *)
Lemma accountFeeMap_forgets_zero_ratio :
  Qeq (getFeeRatio txFree sampleLedger) 0
  /\ Qeq (getFeeRatio txPaid sampleLedger) 5
  /\ Qeq (feeAt (accountFeeMapOf sampleLedger [txFree; txPaid]) 10%N) 5.
Proof. by vm_compute. Qed.

(** ** [SurgeSorter] is a strict weak ordering *)

Lemma lexCmp_true {A} (c1 c2 : A -> A -> bool) a b :
  StrictWeakOrder c1 ->
  lexCmp c1 c2 a b = true
  <-> c1 a b = true \/ (c1 a b = false /\ c1 b a = false /\ c2 a b = true).
Proof.
  intros H1. unfold lexCmp.
  destruct (c1 a b) eqn:Hab, (c1 b a) eqn:Hba, (c2 a b); simpl;
    intuition congruence.
Qed.

Lemma lexCmp_false {A} (c1 c2 : A -> A -> bool) a b :
  lexCmp c1 c2 a b = false
  <-> c1 a b = false /\ (c1 b a = true \/ c2 a b = false).
Proof.
  unfold lexCmp.
  destruct (c1 a b), (c1 b a), (c2 a b); simpl; intuition congruence.
Qed.

Lemma swo_lt_equiv {A} (cmp : A -> A -> bool) a b c :
  StrictWeakOrder cmp ->
  cmp a b = true -> cmp b c = false -> cmp c b = false -> cmp a c = true.
Proof.
  intros H Hab Hbc Hcb.
  destruct (swo_negtrans cmp a c b H Hab) as [?|?]; congruence.
Qed.

Lemma swo_equiv_lt {A} (cmp : A -> A -> bool) a b c :
  StrictWeakOrder cmp ->
  cmp a b = false -> cmp b a = false -> cmp b c = true -> cmp a c = true.
Proof.
  intros H Hab Hba Hbc.
  destruct (swo_negtrans cmp b a c H Hbc) as [?|?]; congruence.
Qed.

Lemma lexCmp_swo {A} (c1 c2 : A -> A -> bool) :
  StrictWeakOrder c1 -> StrictWeakOrder c2 -> StrictWeakOrder (lexCmp c1 c2).
Proof.
  intros H1 H2. split.
  - intros a. unfold lexCmp.
    by rewrite (swo_irrefl c1 H1), (swo_irrefl c2 H2).
  - intros a b c. rewrite !lexCmp_true by done.
    intros [Hab|(Hab & Hba & Hab2)] [Hbc|(Hbc & Hcb & Hbc2)].
    + left. by eapply swo_trans.
    + left. by eapply swo_lt_equiv.
    + left. by eapply swo_equiv_lt.
    + right. destruct (swo_incomp c1 H1 a b c) as [? ?]; [done..|].
      split; [done|]. split; [done|]. by eapply swo_trans.
  - intros a b c. rewrite !lexCmp_false.
    intros [Hab Hab'] [Hba Hba'] [Hbc Hbc'] [Hcb Hcb'].
    assert (c2 a b = false) by (destruct Hab'; congruence).
    assert (c2 b a = false) by (destruct Hba'; congruence).
    assert (c2 b c = false) by (destruct Hbc'; congruence).
    assert (c2 c b = false) by (destruct Hcb'; congruence).
    destruct (swo_incomp c1 H1 a b c) as [? ?]; [done..|].
    destruct (swo_incomp c2 H2 a b c) as [? ?]; [done..|].
    split; (split; [done|by right]).
Qed.

Lemma swo_ext {A} (c c' : A -> A -> bool) :
  (forall a b, c a b = c' a b) -> StrictWeakOrder c -> StrictWeakOrder c'.
Proof.
  intros E [H1 H2 H3]. split.
  - intros a. by rewrite <- E.
  - intros a b d. rewrite <- !E. apply H2.
  - intros a b d. rewrite <- !E. apply H3.
Qed.

(** Greater rational key first. *)
Lemma swo_by_Qkey_desc {A} (key : A -> Q) :
  StrictWeakOrder (fun a b => Qlt_bool (key b) (key a)).
Proof.
  split.
  - intros a. apply Qlt_bool_ge, Qle_refl.
  - intros a b c. rewrite !Qlt_bool_lt. intros Hab Hbc. by eapply Qlt_trans.
  - intros a b c. rewrite !Qlt_bool_ge. intros Hab Hba Hbc Hcb.
    split; by eapply Qle_trans.
Qed.

Lemma surgeOrder_swo afm w wl : StrictWeakOrder (surgeOrder afm w wl).
Proof.
  unfold surgeOrder.
  apply lexCmp_swo; [apply (swo_by_key (holderRank wl))|].
  assert (StrictWeakOrder
            (lexCmp (fun a b => (getSourceID a <? getSourceID b)%N) SeqSorter))
    by (apply lexCmp_swo; [apply (swo_by_key getSourceID)|apply SeqSorter_swo]).
  destruct w; [done|].
  apply lexCmp_swo; [|done].
  apply (swo_by_Qkey_desc (fun tx => feeAt afm (getSourceID tx))).
Qed.

Lemma bySource_distinct (srcA srcB seqA seqB : N) :
  srcA <> srcB ->
  (srcA <? srcB)%N || negb (srcB <? srcA)%N && (seqA <? seqB)%N = (srcA <? srcB)%N.
Proof.
  intros Hne. destruct (srcA <? srcB)%N eqn:H1; [done|].
  destruct (srcB <? srcA)%N eqn:H2; [done|].
  apply N.ltb_ge in H1, H2. exfalso. apply Hne. lia.
Qed.

Lemma byFee_distinct (fee1 fee2 : Q) (rest : bool) :
  (if Qeq_bool fee1 fee2 then rest else Qlt_bool fee2 fee1)
  = Qlt_bool fee2 fee1 || negb (Qlt_bool fee1 fee2) && rest.
Proof.
  destruct (Qeq_bool fee1 fee2) eqn:Heq.
  - apply Qeq_bool_iff in Heq.
    assert (Qlt_bool fee2 fee1 = false) as ->
      by (apply Qlt_bool_ge; rewrite Heq; apply Qle_refl).
    assert (Qlt_bool fee1 fee2 = false) as ->
      by (apply Qlt_bool_ge; rewrite Heq; apply Qle_refl).
    done.
  - destruct (Qlt_bool fee2 fee1) eqn:Hlt; [done|].
    apply Qlt_bool_ge in Hlt. simpl.
    assert (Qlt_bool fee1 fee2 = true) as ->; [|done].
    apply Qlt_bool_lt. apply Qle_lt_or_eq in Hlt as [?|Heq']; [done|].
    apply Qeq_bool_iff in Heq'. congruence.
Qed.

Lemma SurgeSorter_surgeOrder afm w wl a b :
  SurgeSorter afm w wl a b = surgeOrder afm w wl a b.
Proof.
  unfold SurgeSorter, surgeOrder, lexCmp, holderRank, SeqSorter.
  destruct a as [addrA srcA seqA feeA hashA envA],
           b as [addrB srcB seqB feeB hashB envB].
  destruct w; simpl; (destruct (decide (srcA = srcB)) as [<-|Hne];
    [rewrite ?N.ltb_irrefl;
     rewrite ?(proj2 (Qlt_bool_ge (feeAt afm srcA) (feeAt afm srcA)) (Qle_refl _));
     done|]).
  - rewrite (bySource_distinct _ _ seqA seqB Hne).
    destruct wl as [wlID|]; [|done].
    destruct (decide (srcA = wlID)), (decide (srcB = wlID)); simpl;
      [congruence|done..].
  - rewrite (bySource_distinct _ _ seqA seqB Hne), <- byFee_distinct.
    destruct wl as [wlID|]; [|done].
    destruct (decide (srcA = wlID)), (decide (srcB = wlID)); simpl;
      [congruence|done..].
Qed.

Lemma SurgeSorter_swo afm w wl : StrictWeakOrder (SurgeSorter afm w wl).
Proof.
  apply (swo_ext (surgeOrder afm w wl)); [|apply surgeOrder_swo].
  intros a b. symmetry. apply SurgeSorter_surgeOrder.
Qed.

(** ** The surge-pricing filter *)

Lemma erase_first_Permutation x (l : list TransactionFramePtr) :
  x ∈ l -> l ≡ₚ x :: erase_first x l.
Proof.
  induction l as [|y l IH]; intros Hin; [by inv Hin|]. simpl.
  case_decide as E; [by subst|].
  apply elem_of_cons in Hin as [->|Hin]; [done|].
  rewrite (IH Hin) at 1. apply Permutation_swap.
Qed.

Lemma removeTx_foldl_transactions s (gone : list TransactionFramePtr) :
  mTransactions (foldl (fun s tx => removeTx tx s) s gone)
  = foldl (fun v tx => erase_first tx v) (mTransactions s) gone.
Proof.
  revert s. induction gone as [|x gone IH]; intros s; [done|].
  simpl. by rewrite IH.
Qed.

(** Removing, one by one, transactions that the vector holds (with their
    multiplicities) shortens it by their number and leaves the others. *)
Lemma erase_first_foldl_submseteq (gone keep v : list TransactionFramePtr) :
  gone ++ keep ⊆+ v ->
  keep ⊆+ foldl (fun v tx => erase_first tx v) v gone
  /\ (length (foldl (fun v tx => erase_first tx v) v gone) + length gone
      = length v)%nat.
Proof.
  revert v. induction gone as [|x gone IH]; intros v Hsub; simpl.
  - split; [done|lia].
  - simpl in Hsub. apply submseteq_cons_l in Hsub as (k & Hk & Hsub).
    assert (Hin : x ∈ v) by (rewrite Hk; by left).
    assert (Hp : x :: k ≡ₚ x :: erase_first x v)
      by (rewrite <- Hk; by apply erase_first_Permutation).
    apply Permutation_cons_inv in Hp.
    rewrite Hp in Hsub. destruct (IH _ Hsub) as [Hkeep Hlen].
    split; [done|].
    pose proof (Permutation_length (erase_first_Permutation x v Hin)) as Hv.
    simpl in Hv. lia.
Qed.

Section SurgePricing.
Context {P : Platform}.

End SurgePricing.

(** ** [checkOrTrim] *)

Lemma groupedMap_lookup (p : list TransactionFramePtr) k :
  foldl accountTxMap_push_back ∅ p !! k
  = match filter (fromAccount k) p with [] => None | _ :: _ => Some (filter (fromAccount k) p) end.
Proof.
  induction p as [|tx p IH] using rev_ind; [done|].
  rewrite foldl_app, filter_snoc_account. simpl.
  unfold accountTxMap_push_back at 1.
  destruct (decide (getSourceID tx = k)) as [<-|Hne].
  - rewrite lookup_insert_eq, IH.
    by destruct (filter (fromAccount (getSourceID tx)) p).
  - rewrite lookup_insert_ne by done. by rewrite app_nil_r.
Qed.

Lemma groupByAccount_Some txs lastHash m m' :
  groupByAccount txs lastHash m = Some m' ->
  m' = foldl accountTxMap_push_back m txs.
Proof.
  revert lastHash m. induction txs as [|tx txs IH]; intros lastHash m; simpl.
  - by intros [= <-].
  - case_match; [done|]. apply IH.
Qed.

Lemma groupByAccount_sorted txs lastHash m :
  StronglySorted (notAfter HashTxSorter) txs ->
  (forall tx, tx ∈ txs -> (lastHash <= getFullHash tx)%N) ->
  groupByAccount txs lastHash m = Some (foldl accountTxMap_push_back m txs).
Proof.
  intros Hs. revert lastHash m.
  induction Hs as [|tx txs Hs IH Htx]; intros lastHash m Hlast; [done|].
  simpl. rewrite (proj2 (N.ltb_ge _ _)) by (apply Hlast; by left).
  apply IH. intros y Hy. rewrite Forall_forall in Htx.
  by apply notAfter_HashTxSorter, Htx.
Qed.

Lemma elem_of_inKeyOrder m k v :
  (k, v) ∈ inKeyOrder m <-> m !! k = Some v.
Proof.
  unfold inKeyOrder. rewrite merge_sort_Permutation.
  apply elem_of_map_to_list.
Qed.

(** An entry of the account map of [txs] holds the transactions of its
    account, in the order of [txs]. *)
Lemma elem_of_grouped (txs : list TransactionFramePtr) k v :
  (k, v) ∈ inKeyOrder (foldl accountTxMap_push_back ∅ txs)
  <-> v = filter (fromAccount k) txs /\ v <> [].
Proof.
  rewrite elem_of_inKeyOrder, groupedMap_lookup.
  destruct (filter (fromAccount k) txs) as [|x l]; split.
  - done.
  - by intros [-> ?].
  - by intros [= <-].
  - by intros [-> _].
Qed.

Lemma last_cons_match {A} (x : A) l :
  last (x :: l) = match last l with Some y => Some y | None => Some x end.
Proof.
  destruct l as [|y l]; [done|]. rewrite last_cons_cons.
  destruct (last_is_Some (y :: l)) as [_ [z Hz]]; [done|]. by rewrite Hz.
Qed.

Lemma passedTxs_subset app lastSeq item tx :
  tx ∈ passedTxs app lastSeq item -> tx ∈ item.
Proof.
  revert lastSeq. induction item as [|x item IH]; intros lastSeq; simpl; [done|].
  destruct (txCheckValid x app lastSeq).
  - intros [->|Hin]%elem_of_cons; [by left|]. right. by eapply IH.
  - intros Hin. right. by eapply IH.
Qed.

Lemma passedTxs_none app lastSeq item :
  (forall tx, tx ∈ item -> txCheckValid tx app lastSeq = false) ->
  passedTxs app lastSeq item = [].
Proof.
  induction item as [|x item IH]; intros H; simpl; [done|].
  rewrite (H x) by left. apply IH. intros tx Hin. apply H. by right.
Qed.

Section CheckOrTrimFacts.
Context {P : Platform} {St : Type}.
Variable app : Application.
Variable f : TransactionFramePtr -> SequenceNumber -> St -> bool * St.
Variable g : list TransactionFramePtr -> St -> bool * St.

(** When the scan of an account runs to its end, the last transaction it
    holds is the last that passed, and the fee total is that of the
    transactions that passed. *)
Lemma scanAccount_completed item lastTx lastSeq totFee st lastTx' totFee' st' :
  scanAccount app f item lastTx lastSeq totFee st = (Some (lastTx', totFee'), st') ->
  lastTx' = match last (passedTxs app lastSeq item) with
            | Some t => Some t
            | None => lastTx
            end
  /\ totFee' = totFee + nonWhitelistedFees app (passedTxs app lastSeq item).
Proof.
  revert lastTx lastSeq totFee st.
  induction item as [|tx item IH]; intros lastTx lastSeq totFee st; simpl.
  - intros [= <- <- <-]. split; [done|]. unfold nonWhitelistedFees. simpl. lia.
  - destruct (txCheckValid tx app lastSeq) eqn:Hv.
    + intros E. apply IH in E as [-> ->]. split.
      * rewrite last_cons_match. by destruct (last _).
      * unfold nonWhitelistedFees. simpl. lia.
    + destruct (f tx lastSeq st) as [[] st1]; [apply IH|done].
Qed.

(** The balance check of one account, spelled out: it is made only when a
    transaction passed and the scan was not stopped, against the source
    account of the last transaction that passed and the fees of those that
    passed. *)
Lemma checkAccount_balance_check item st :
  let sorted := std_sort SeqSorter item in
  let scan := scanAccount app f sorted None 0%N 0 st in
  checkAccount app f g item st =
    match fst scan with
    | None => (false, snd scan)
    | Some _ =>
        match last (passedTxs app 0%N sorted) with
        | None => (true, snd scan)
        | Some lastTx =>
            if decide (getBalance (getSourceAccount app lastTx)
                       - nonWhitelistedFees app (passedTxs app 0%N sorted)
                       < getMinimumBalance (getSourceAccount app lastTx)
                                           (getLedgerManager app))
            then g sorted (snd scan)
            else (true, snd scan)
        end
    end.
Proof.
  intros sorted scan. unfold checkAccount. fold sorted. fold scan.
  destruct scan as [[[lastTx totFee]|] st1] eqn:E; [|done]. simpl.
  apply scanAccount_completed in E as [-> ->].
  destruct (last (passedTxs app 0%N sorted)) as [t|]; [|done].
  rewrite Z.add_0_l. done.
Qed.
End CheckOrTrimFacts.

Section Recorded.
Context {P : Platform} {St : Type}.
Variable app : Application.
Variable f : TransactionFramePtr -> SequenceNumber -> St -> bool * St.
Variable g : list TransactionFramePtr -> St -> bool * St.

Lemma scanAccount_recorded item lastTx lastSeq totFee st log r st' log' :
  scanAccount app (recordInvalidTx f) item lastTx lastSeq totFee (st, log)
    = (r, (st', log')) ->
  forall it, InsufficientBalance it ∈ log' -> InsufficientBalance it ∈ log.
Proof.
  revert lastTx lastSeq totFee st log.
  induction item as [|tx item IH]; intros lastTx lastSeq totFee st log; simpl.
  - by intros [= <- <- <-].
  - destruct (txCheckValid tx app lastSeq); [apply IH|].
    unfold recordInvalidTx at 1. simpl.
    destruct (f tx lastSeq st) as [[] st1].
    + intros E it Hit. eapply IH in Hit; [|exact E].
      apply elem_of_app in Hit as [Hit|Hit]; [done|].
      apply list_elem_of_singleton in Hit. done.
    + intros [= <- <- <-] it Hit.
      apply elem_of_app in Hit as [Hit|Hit]; [done|].
      apply list_elem_of_singleton in Hit. done.
Qed.

Lemma checkAccount_recorded item st log ok st' log' :
  checkAccount app (recordInvalidTx f) (recordInsufficientBalance g) item (st, log)
    = (ok, (st', log')) ->
  forall it, InsufficientBalance it ∈ log' ->
    InsufficientBalance it ∈ log
    \/ (it = std_sort SeqSorter item /\ foundShort app it).
Proof.
  unfold checkAccount.
  destruct (scanAccount app (recordInvalidTx f) (std_sort SeqSorter item)
              None 0%N 0 (st, log)) as [r [st1 log1]] eqn:Escan.
  pose proof (scanAccount_recorded _ _ _ _ _ _ _ _ _ Escan) as Hlog.
  destruct r as [[[lastTx|] totFee]|].
  - apply scanAccount_completed in Escan as [HlastTx HtotFee].
    case_decide as Hshort.
    + unfold recordInsufficientBalance. simpl.
      destruct (g (std_sort SeqSorter item) st1) as [b st2].
      intros [= <- <- <-] it Hit.
      apply elem_of_app in Hit as [Hit|Hit]; [left; by apply Hlog|].
      apply list_elem_of_singleton in Hit. injection Hit as ->.
      right. split; [done|]. exists lastTx.
      destruct (last (passedTxs app 0%N (std_sort SeqSorter item))) as [t|];
        [|done].
      injection HlastTx as <-. split; [done|]. lia.
    + intros [= <- <- <-] it Hit. left. by apply Hlog.
  - intros [= <- <- <-] it Hit. left. by apply Hlog.
  - intros [= <- <- <-] it Hit. left. by apply Hlog.
Qed.

Lemma forAccounts_recorded entries st log ok st' log' :
  forAccounts app (recordInvalidTx f) (recordInsufficientBalance g) entries (st, log)
    = (ok, (st', log')) ->
  forall it, InsufficientBalance it ∈ log' ->
    InsufficientBalance it ∈ log
    \/ exists k v, (k, v) ∈ entries /\ it = std_sort SeqSorter v /\ foundShort app it.
Proof.
  revert st log. induction entries as [|[k v] entries IH]; intros st log; simpl.
  - intros [= <- <- <-] it Hit. by left.
  - destruct (checkAccount app (recordInvalidTx f) (recordInsufficientBalance g)
                v (st, log)) as [ok1 [st1 log1]] eqn:E1.
    pose proof (checkAccount_recorded _ _ _ _ _ _ E1) as H1.
    destruct ok1.
    + intros E it Hit. destruct (IH _ _ E it Hit) as [Hit'|(k' & v' & Hin & ? & ?)].
      * destruct (H1 it Hit') as [?|[? ?]]; [by left|].
        right. exists k, v. split; [by left|done].
      * right. exists k', v'. split; [by right|done].
    + intros [= <- <- <-] it Hit.
      destruct (H1 it Hit) as [?|[? ?]]; [by left|].
      right. exists k, v. split; [by left|done].
Qed.

(** C10. In [checkOrTrim] the balance check of an account is made only when
    one of its transactions passed [checkValid] (and no callback stopped the
    scan), and the balance examined is that of the source account of the
    last transaction that passed.  With the callbacks recorded: whenever
    [processInsufficientBalance] is called, it is called with the
    sequence-sorted transactions of one account [A] of the set, of which at
    least one passed, and the balance found short is that of the source
    account of the last one that passed; so it is never called with the
    transactions of an account all of whose transactions fail [checkValid],
    whether the callback for invalid transactions goes on or stops. *)
Theorem checkOrTrim_insufficient_balance_call
    (txs : list TransactionFramePtr) (st : St) (item : list TransactionFramePtr) :
  InsufficientBalance item
    ∈ snd (snd (checkOrTrim app (recordInvalidTx f) (recordInsufficientBalance g)
                            txs (st, []))) ->
  (exists A lastTx,
      item = std_sort SeqSorter (filter (fromAccount A) txs)
      /\ last (passedTxs app 0%N item) = Some lastTx
      /\ getSourceID lastTx = A
      /\ getBalance (getSourceAccount app lastTx)
         - nonWhitelistedFees app (passedTxs app 0%N item)
         < getMinimumBalance (getSourceAccount app lastTx) (getLedgerManager app))
  /\ (forall A,
        (forall tx, tx ∈ txs -> getSourceID tx = A ->
                    txCheckValid tx app 0%N = false) ->
        forall tx, tx ∈ item -> getSourceID tx <> A)
  /\ (forall account st0,
        let sorted := std_sort SeqSorter account in
        let scan := scanAccount app f sorted None 0%N 0 st0 in
        checkAccount app f g account st0 =
          match fst scan with
          | None => (false, snd scan)
          | Some _ =>
              match last (passedTxs app 0%N sorted) with
              | None => (true, snd scan)
              | Some lastTx =>
                  if decide (getBalance (getSourceAccount app lastTx)
                             - nonWhitelistedFees app (passedTxs app 0%N sorted)
                             < getMinimumBalance (getSourceAccount app lastTx)
                                                 (getLedgerManager app))
                  then g sorted (snd scan)
                  else (true, snd scan)
              end
          end).
Proof.
  unfold checkOrTrim. intros Hit.
  destruct (groupByAccount txs 0%N ∅) as [m|] eqn:Em; [|by inv Hit].
  apply groupByAccount_Some in Em as ->.
  destruct (forAccounts app (recordInvalidTx f) (recordInsufficientBalance g)
              (inKeyOrder (foldl accountTxMap_push_back ∅ txs)) (st, []))
    as [ok [st' log']] eqn:E.
  destruct (forAccounts_recorded _ _ _ _ _ _ E item Hit)
    as [Hnil|(k & v & Hin & -> & lastTx & Hlast & Hshort)]; [by inv Hnil|].
  apply elem_of_grouped in Hin as [-> Hne].
  assert (Hsrc : forall tx,
            tx ∈ std_sort SeqSorter (filter (fromAccount k) txs) ->
            getSourceID tx = k /\ tx ∈ txs).
  { intros tx Hin. rewrite std_sort_perm in Hin by apply SeqSorter_swo.
    by apply list_elem_of_filter in Hin. }
  assert (HlastIn : lastTx ∈ passedTxs app 0%N
                      (std_sort SeqSorter (filter (fromAccount k) txs))).
  { apply last_Some in Hlast as [l' ->]. apply elem_of_app. right. by left. }
  split; [|split].
  - exists k, lastTx. split; [done|]. split; [done|]. split; [|done].
    apply passedTxs_subset in HlastIn. by apply Hsrc in HlastIn as [? _].
  - intros A Hfail tx Hin HA. apply Hsrc in Hin as [Hk _]. subst k.
    rewrite passedTxs_none in HlastIn; [by inv HlastIn|].
    intros tx' Hin' . apply Hsrc in Hin' as [? ?]. subst A. by apply Hfail.
  - intros account st0. apply checkAccount_balance_check.
Qed.
End Recorded.

Lemma checkOrTrim_insufficient_balance_call_witness :
  exists A lastTx,
    [txC1; txC2] = @std_sort reference_platform _ SeqSorter
                     (filter (fromAccount A) [txC2; txC1])
    /\ last (passedTxs sampleApp 0%N [txC1; txC2]) = Some lastTx
    /\ getSourceID lastTx = A
    /\ getBalance (getSourceAccount sampleApp lastTx)
       - nonWhitelistedFees sampleApp (passedTxs sampleApp 0%N [txC1; txC2])
       < getMinimumBalance (getSourceAccount sampleApp lastTx)
                           (getLedgerManager sampleApp).
Proof.
  apply (@checkOrTrim_insufficient_balance_call reference_platform unit sampleApp
           (fun _ _ st => (true, st)) (fun _ st => (true, st))
           [txC2; txC1] tt [txC1; txC2]).
  vm_compute. constructor.
Defined.

(** ** [trimInvalid] *)

Lemma erase_first_sublist x (l : list TransactionFramePtr) :
  erase_first x l `sublist_of` l.
Proof.
  induction l as [|y l IH]; simpl; [done|].
  case_decide; [by apply sublist_cons|by apply sublist_skip].
Qed.

Lemma erase_first_foldl_sublist (gone l : list TransactionFramePtr) :
  foldl (fun v tx => erase_first tx v) l gone `sublist_of` l.
Proof.
  revert l. induction gone as [|x gone IH]; intros l; simpl; [done|].
  etrans; [apply IH|apply erase_first_sublist].
Qed.

Lemma filter_sublist_mono {A} (Q : A -> Prop) `{!forall x, Decision (Q x)}
    (l1 l2 : list A) :
  l1 `sublist_of` l2 -> filter Q l1 `sublist_of` filter Q l2.
Proof.
  induction 1 as [|x l1 l2 Hs IH|x l1 l2 Hs IH]; [done| |].
  - rewrite !filter_cons. case_decide; [by apply sublist_skip|done].
  - rewrite filter_cons. case_decide; [by apply sublist_cons|done].
Qed.

(** Once every transaction of [gone] was removed, none of account [A] is
    left, if [gone] held all that the vector had of [A]. *)
Lemma erase_first_foldl_account A (gone l : list TransactionFramePtr) :
  filter (fromAccount A) l ⊆+ gone ->
  filter (fromAccount A) (foldl (fun v tx => erase_first tx v) l gone) = [].
Proof.
  revert l. induction gone as [|x gone IH]; intros l Hsub; simpl.
  - by apply submseteq_nil_r.
  - apply IH. destruct (decide (x ∈ filter (fromAccount A) l)) as [Hin|Hnotin].
    + apply list_elem_of_filter in Hin as [HA Hin].
      pose proof (erase_first_Permutation x l Hin) as Hp.
      rewrite Hp, filter_cons_True in Hsub by done.
      by apply (submseteq_app_inv_l _ _ [x]).
    + assert (Hsub' : filter (fromAccount A) l ⊆+ gone).
      { apply submseteq_cons_r in Hsub as [?|(l' & Hl' & _)]; [done|].
        exfalso. apply Hnotin. rewrite Hl'. by left. }
      etrans; [|exact Hsub'].
      apply sublist_submseteq, filter_sublist_mono, erase_first_sublist.
Qed.

Lemma trimsTo_refl st : trimsTo st st.
Proof. split; [done|]. exists []. by rewrite app_nil_r. Qed.

Lemma trimsTo_trans st1 st2 st3 :
  trimsTo st1 st2 -> trimsTo st2 st3 -> trimsTo st1 st3.
Proof.
  intros [H1 [m1 E1]] [H2 [m2 E2]]. split; [by etrans|].
  exists (m1 ++ m2). by rewrite E2, E1, app_assoc.
Qed.

Lemma forAccounts_app {P : Platform} {St} app
    (f : TransactionFramePtr -> SequenceNumber -> St -> bool * St)
    (g : list TransactionFramePtr -> St -> bool * St) entries1 entries2 st :
  forAccounts app f g (entries1 ++ entries2) st
  = (if fst (forAccounts app f g entries1 st)
     then forAccounts app f g entries2 (snd (forAccounts app f g entries1 st))
     else forAccounts app f g entries1 st).
Proof.
  revert st. induction entries1 as [|[k v] entries1 IH]; intros st; simpl; [done|].
  destruct (checkAccount app f g v st) as [[] st1]; [apply IH|done].
Qed.

Section TrimInvalid.
Context {P : Platform}.
Variable app : Application.

Lemma trimInsufficientBalance_eq item st :
  exists s',
    trimInsufficientBalance item st = (true, (s', snd st ++ item))
    /\ mTransactions s'
       = foldl (fun v tx => erase_first tx v) (mTransactions (fst st)) item.
Proof.
  unfold trimInsufficientBalance. revert st.
  induction item as [|tx item IH]; intros [s tr]; simpl.
  - exists s. by rewrite app_nil_r.
  - destruct (IH (removeTx tx s, tr ++ [tx])) as (s' & E & Htx).
    exists s'. injection E as E. rewrite E. simpl. by rewrite <- app_assoc.
Qed.

Lemma scanAccount_trim item lastTx lastSeq totFee st :
  exists r st',
    scanAccount app trimInvalidTx item lastTx lastSeq totFee st = (Some r, st')
    /\ trimsTo st st'.
Proof.
  revert lastTx lastSeq totFee st.
  induction item as [|tx item IH]; intros lastTx lastSeq totFee st; simpl.
  - eexists _, _. split; [done|apply trimsTo_refl].
  - destruct (txCheckValid tx app lastSeq); [apply IH|].
    destruct (IH lastTx lastSeq totFee (removeTx tx (fst st), snd st ++ [tx]))
      as (r & st' & E & Ht).
    exists r, st'. split; [done|].
    eapply trimsTo_trans; [|exact Ht].
    split; [apply erase_first_sublist|by eexists].
Qed.

Lemma checkAccount_trim item st :
  exists st',
    checkAccount app trimInvalidTx trimInsufficientBalance item st = (true, st')
    /\ trimsTo st st'.
Proof.
  unfold checkAccount.
  destruct (scanAccount_trim (std_sort SeqSorter item) None 0%N 0 st)
    as ([lastTx totFee] & st1 & -> & Ht).
  destruct lastTx as [lastTx|]; [|by exists st1].
  case_decide; [|by exists st1].
  destruct (trimInsufficientBalance_eq (std_sort SeqSorter item) st1)
    as (s' & -> & Htx).
  eexists. split; [done|]. eapply trimsTo_trans; [exact Ht|].
  split; [|by eexists]. simpl. rewrite Htx. apply erase_first_foldl_sublist.
Qed.

Lemma forAccounts_trim entries st :
  exists st',
    forAccounts app trimInvalidTx trimInsufficientBalance entries st = (true, st')
    /\ trimsTo st st'.
Proof.
  revert st. induction entries as [|[k v] entries IH]; intros st; simpl.
  - exists st. split; [done|apply trimsTo_refl].
  - destruct (checkAccount_trim v st) as (st1 & -> & H1).
    destruct (IH st1) as (st2 & -> & H2).
    exists st2. split; [done|]. by eapply trimsTo_trans.
Qed.

(** The account whose balance is found short loses every transaction of
    its entry, and all of them are appended to [trimmed]. *)
Lemma checkAccount_trim_short item st :
  foundShort app (std_sort SeqSorter item) ->
  exists st1 s2,
    trimsTo st st1
    /\ checkAccount app trimInvalidTx trimInsufficientBalance item st
       = (true, (s2, snd st1 ++ std_sort SeqSorter item))
    /\ mTransactions s2
       = foldl (fun v tx => erase_first tx v) (mTransactions (fst st1))
               (std_sort SeqSorter item).
Proof.
  intros (lastTx & Hlast & Hshort). unfold checkAccount.
  destruct (scanAccount_trim (std_sort SeqSorter item) None 0%N 0 st)
    as ([lastTx' totFee] & st1 & E & Ht).
  rewrite E. apply scanAccount_completed in E as [-> ->].
  rewrite Hlast. rewrite decide_True by lia.
  destruct (trimInsufficientBalance_eq (std_sort SeqSorter item) st1)
    as (s' & -> & Htx).
  by exists st1, s'.
Qed.

(** C6. When the balance of account [A] is found short -- one of its
    transactions passes [checkValid], and the source account of the last
    one that passes cannot pay the fees that are not whitelisted and keep
    its minimum balance -- [trimInvalid] leaves no transaction of [A] in
    the set, and appends all of [A]'s transactions, in sequence order, to
    [trimmed]. *)
Theorem trimInvalid_insufficient_balance (s : TxSetFrame)
    (trimmed : list TransactionFramePtr) (A : AccountID)
    (lastTx : TransactionFramePtr) :
  let item :=
    std_sort SeqSorter
      (filter (fromAccount A) (std_sort HashTxSorter (mTransactions s))) in
  last (passedTxs app 0%N item) = Some lastTx ->
  getBalance (getSourceAccount app lastTx)
    - nonWhitelistedFees app (passedTxs app 0%N item)
    < getMinimumBalance (getSourceAccount app lastTx) (getLedgerManager app) ->
  (forall tx, tx ∈ mTransactions (fst (trimInvalid app s trimmed)) ->
              getSourceID tx <> A)
  /\ (exists before after,
        snd (trimInvalid app s trimmed) = trimmed ++ before ++ item ++ after)
  /\ item ≡ₚ filter (fromAccount A) (mTransactions s).
Proof.
  intros item Hlast Hshort.
  set (txs0 := std_sort HashTxSorter (mTransactions s)) in *.
  assert (Hitem : item ≡ₚ filter (fromAccount A) txs0)
    by apply std_sort_perm, SeqSorter_swo.
  assert (Hne : filter (fromAccount A) txs0 <> []).
  { intros E. unfold item in Hlast. rewrite E in Hlast.
    rewrite std_sort_nil in Hlast by apply SeqSorter_swo. done. }
  unfold trimInvalid, checkOrTrim. simpl. fold txs0.
  rewrite groupByAccount_sorted;
    [|apply std_sort_sorted, HashTxSorter_swo|intros; lia].
  assert (Hin : (A, filter (fromAccount A) txs0)
                ∈ inKeyOrder (foldl accountTxMap_push_back ∅ txs0))
    by (by apply elem_of_grouped).
  apply list_elem_of_split in Hin as (e1 & e2 & ->).
  rewrite forAccounts_app.
  destruct (forAccounts_trim e1 (sortForHash s, trimmed))
    as ([sa tra] & -> & Ha1 & more1 & Ha2).
  simpl in Ha1, Ha2. simpl fst. simpl snd. cbv iota.
  change (forAccounts app trimInvalidTx trimInsufficientBalance
            ((A, filter (fromAccount A) txs0) :: e2) (sa, tra))
    with (let '(ok, st) :=
            checkAccount app trimInvalidTx trimInsufficientBalance
              (filter (fromAccount A) txs0) (sa, tra) in
          if ok then forAccounts app trimInvalidTx trimInsufficientBalance e2 st
          else (false, st)).
  destruct (checkAccount_trim_short (filter (fromAccount A) txs0) (sa, tra))
    as ([sb trb] & s2 & [Hb1 [more2 Hb2]] & -> & Hs2);
    [by exists lastTx|].
  simpl in Hb1, Hb2, Hs2. simpl snd.
  fold item.
  destruct (forAccounts_trim e2 (s2, trb ++ item))
    as ([sf trf] & -> & Hf1 & more3 & Hf2).
  simpl in Hf1, Hf2. simpl.
  split; [|split].
  - intros tx Hin HA.
    assert (Hgone : filter (fromAccount A) (mTransactions s2) = []).
    { rewrite Hs2. apply erase_first_foldl_account.
      fold item. rewrite Hitem. apply sublist_submseteq, filter_sublist_mono.
      by etrans. }
    assert (tx ∈ filter (fromAccount A) (mTransactions s2)) as Hx.
    { apply list_elem_of_filter. split; [done|].
      eapply elem_of_sublist; [exact Hin|done]. }
    rewrite Hgone in Hx. by inv Hx.
  - exists (more1 ++ more2), more3. rewrite Hf2, Hb2, Ha2.
    by rewrite <- !app_assoc.
  - rewrite Hitem. unfold txs0.
    by rewrite std_sort_perm by apply HashTxSorter_swo.
Qed.
End TrimInvalid.

Lemma trimInvalid_insufficient_balance_witness :
  (forall tx,
      tx ∈ mTransactions
             (fst (@trimInvalid reference_platform sampleApp
                     (frameOf [txA1; txC1; txB5; txC2; txC4; txA2]) [])) ->
      getSourceID tx <> 12%N)
  /\ (exists before after,
        snd (@trimInvalid reference_platform sampleApp
               (frameOf [txA1; txC1; txB5; txC2; txC4; txA2]) [])
        = [] ++ before
          ++ @std_sort reference_platform _ SeqSorter
               (filter (fromAccount 12%N)
                  (@std_sort reference_platform _ HashTxSorter
                     (mTransactions (frameOf [txA1; txC1; txB5; txC2; txC4; txA2]))))
          ++ after)
  /\ @std_sort reference_platform _ SeqSorter
       (filter (fromAccount 12%N)
          (@std_sort reference_platform _ HashTxSorter
             (mTransactions (frameOf [txA1; txC1; txB5; txC2; txC4; txA2]))))
     ≡ₚ filter (fromAccount 12%N)
          (mTransactions (frameOf [txA1; txC1; txB5; txC2; txC4; txA2])).
Proof.
  apply (@trimInvalid_insufficient_balance reference_platform sampleApp
           (frameOf [txA1; txC1; txB5; txC2; txC4; txA2]) [] 12%N txC2).
  - vm_compute. reflexivity.
  - vm_compute. reflexivity.
Defined.



(** * Further properties of the frame *)

(** ** Canonical order and the content hash *)

Lemma foldl_snoc_map {A B} (f : A -> B) (l : list A) acc :
  foldl (fun v x => v ++ [f x]) acc l = acc ++ map f l.
Proof.
  revert acc. induction l as [|x l IH]; intros acc; simpl.
  - by rewrite app_nil_r.
  - rewrite IH. by rewrite <- app_assoc.
Qed.

Lemma strictly_sorted_by_hash (l : list TransactionFramePtr) :
  StronglySorted (fun a b => (getFullHash a <= getFullHash b)%N) l ->
  NoDup (map getFullHash l) ->
  StronglySorted (fun a b => (getFullHash a < getFullHash b)%N) l.
Proof.
  induction 1 as [|x l Hl IH Hx]; intros Hnd; [constructor|].
  simpl in Hnd. apply NoDup_cons in Hnd as [Hnotin Hnd].
  constructor; [by apply IH|].
  rewrite Forall_forall in Hx |- *. intros y Hy.
  assert (getFullHash x <> getFullHash y).
  { intros E. apply Hnotin. rewrite E. by apply list_elem_of_fmap_2. }
  specialize (Hx y Hy). lia.
Qed.

Lemma assign_slots {A B} (f : A -> B) (l : list A) (v : list B) :
  (length l <= length v)%nat ->
  foldl (fun v '(n, x) => <[n := f x]> v) v (imap (fun n x => (n, x)) l)
  = map f l ++ drop (length l) v.
Proof.
  induction l as [|x l IH] using rev_ind; intros Hlen; [done|].
  rewrite length_app in Hlen. simpl in Hlen.
  rewrite imap_app, foldl_app. simpl. rewrite Nat.add_0_r.
  rewrite IH by lia. rewrite map_app, length_app. simpl.
  destruct (drop (length l) v) as [|y rest] eqn:E.
  { apply (f_equal length) in E. rewrite length_drop in E. simpl in E. lia. }
  rewrite insert_app_r_alt by (rewrite length_map; lia).
  rewrite length_map, Nat.sub_diag. simpl.
  rewrite <- app_assoc. simpl. f_equal. f_equal.
  rewrite <- drop_drop, E. done.
Qed.

Lemma toXDR_Some (s : TxSetFrame) (txSet : TransactionSet) :
  size (mTransactions s) < 2 ^ 32 ->
  toXDR s txSet
  = Some {| wire_txs := map getEnvelope (mTransactions s);
            wire_previousLedgerHash := mPreviousLedgerHash s |}.
Proof.
  intros Hsz. unfold toXDR. rewrite decide_True by done. simpl.
  rewrite assign_slots by (by rewrite length_resize).
  rewrite drop_ge by (by rewrite length_resize). by rewrite app_nil_r.
Qed.

Section Canonical.
Context {P : Platform}.

Lemma std_sort_hash_unique (txs1 txs2 : list TransactionFramePtr) :
  txs1 ≡ₚ txs2 ->
  NoDup (map getFullHash txs1) ->
  std_sort HashTxSorter txs1 = std_sort HashTxSorter txs2.
Proof.
  intros Hp Hnd.
  apply (StronglySorted_unique_strong (notAfter HashTxSorter)).
  - intros x1 x2 H1 H2 H12 H21.
    rewrite std_sort_perm in H1 by apply HashTxSorter_swo.
    rewrite std_sort_perm, <- Hp in H2 by apply HashTxSorter_swo.
    apply notAfter_HashTxSorter in H12, H21.
    apply (fmap_inj_on_NoDup _ _ _ _ Hnd H1 H2). lia.
  - apply std_sort_sorted, HashTxSorter_swo.
  - apply std_sort_sorted, HashTxSorter_swo.
  - rewrite !std_sort_perm by apply HashTxSorter_swo. done.
Qed.

(** X1. [sortForHash] keeps the parent hash and the transactions, puts them
    in ascending [fullHash] order and clears the valid flag; when the full
    hashes are pairwise distinct the order is strict and sorting again
    changes nothing. *)
Theorem sortForHash_canonical (s : TxSetFrame) :
  mTransactions (sortForHash s) ≡ₚ mTransactions s
  /\ StronglySorted (fun a b => (getFullHash a <= getFullHash b)%N)
                    (mTransactions (sortForHash s))
  /\ mHashIsValid (sortForHash s) = false
  /\ mPreviousLedgerHash (sortForHash s) = mPreviousLedgerHash s
  /\ (NoDup (map getFullHash (mTransactions s)) ->
      StronglySorted (fun a b => (getFullHash a < getFullHash b)%N)
                     (mTransactions (sortForHash s))
      /\ sortForHash (sortForHash s) = sortForHash s).
Proof.
  assert (Hp : mTransactions (sortForHash s) ≡ₚ mTransactions s)
    by apply std_sort_perm, HashTxSorter_swo.
  split; [done|]. split; [apply sortForHash_sorted|].
  split; [done|]. split; [done|]. intros Hnd. split.
  - apply strictly_sorted_by_hash; [apply sortForHash_sorted|]. by rewrite Hp.
  - unfold sortForHash at 1 3. simpl. f_equal.
    symmetry. apply std_sort_hash_unique; [|done].
    symmetry. apply std_sort_perm, HashTxSorter_swo.
Qed.

(** X2. The content hash does not depend on the order the transactions are
    stored in: two frames with coherent caches, the same parent hash and the
    same transactions in any order have the same hash, when the full hashes
    are pairwise distinct. *)
Theorem getContentsHash_order_independent (s1 s2 : TxSetFrame) :
  cacheCoherent s1 -> cacheCoherent s2 ->
  mPreviousLedgerHash s1 = mPreviousLedgerHash s2 ->
  mTransactions s1 ≡ₚ mTransactions s2 ->
  NoDup (map getFullHash (mTransactions s1)) ->
  fst (getContentsHash s1) = fst (getContentsHash s2).
Proof.
  intros Hc1 Hc2 Hprev Hp Hnd.
  rewrite (getContentsHash_coherent s1 Hc1), (getContentsHash_coherent s2 Hc2).
  by rewrite Hprev, (std_sort_hash_unique _ _ Hp Hnd).
Qed.

(** X3. The content hash is the SHA-256 digest of the wire form of the
    sorted frame: of the parent hash [toXDR] writes, then the envelopes it
    writes, whatever the [TransactionSet] it writes to held before.  For a
    frame whose cache is not valid this is the wire form of the frame as
    [getContentsHash] leaves it. *)
Theorem getContentsHash_wire_form (s : TxSetFrame) (txSet : TransactionSet) :
  cacheCoherent s ->
  size (mTransactions s) < 2 ^ 32 ->
  exists w,
    toXDR (sortForHash s) txSet = Some w
    /\ fst (getContentsHash s) = sha256 (wireInput w)
    /\ (mHashIsValid s = false ->
        toXDR (snd (getContentsHash s)) txSet = Some w).
Proof.
  intros Hc Hsz.
  assert (Hlen : length (mTransactions (sortForHash s)) = length (mTransactions s)).
  { apply Permutation_length, std_sort_perm, HashTxSorter_swo. }
  assert (Hx : toXDR (sortForHash s) txSet
               = Some {| wire_txs := map getEnvelope (mTransactions (sortForHash s));
                         wire_previousLedgerHash := mPreviousLedgerHash s |}).
  { rewrite toXDR_Some; [done|]. unfold size. rewrite Hlen. exact Hsz. }
  eexists. split; [exact Hx|]. split.
  - rewrite (getContentsHash_coherent s Hc). unfold wireInput, hashInput.
    simpl. by rewrite map_map.
  - intros Hinv. rewrite <- Hx. unfold getContentsHash. rewrite Hinv.
    unfold toXDR. simpl. reflexivity.
Qed.
End Canonical.

Lemma getContentsHash_order_independent_witness :
  fst (@getContentsHash reference_platform (frameOf [txA1; txA2; txB5]))
  = fst (@getContentsHash reference_platform (frameOf [txB5; txA1; txA2])).
Proof.
  apply getContentsHash_order_independent.
  - intros H. discriminate H.
  - intros H. discriminate H.
  - reflexivity.
  - apply (bool_decide_unpack _). vm_compute. exact I.
  - apply (bool_decide_unpack _). vm_compute. exact I.
Defined.

Lemma getContentsHash_wire_form_witness :
  exists w,
    @toXDR (@sortForHash reference_platform (frameOf [txA1; txA2])) usedWire = Some w
    /\ fst (@getContentsHash reference_platform (frameOf [txA1; txA2]))
       = @sha256 reference_platform (wireInput w)
    /\ (mHashIsValid (frameOf [txA1; txA2]) = false ->
        toXDR (snd (@getContentsHash reference_platform (frameOf [txA1; txA2]))) usedWire
        = Some w).
Proof.
  apply (@getContentsHash_wire_form reference_platform (frameOf [txA1; txA2]) usedWire).
  - intros H. discriminate H.
  - vm_compute. reflexivity.
Defined.

Lemma sortForHash_canonical_witness :
  StronglySorted (fun a b => (getFullHash a < getFullHash b)%N)
                 (mTransactions (@sortForHash reference_platform (frameOf [txA1; txA2; txB5])))
  /\ @sortForHash reference_platform (sortForHash (frameOf [txA1; txA2; txB5]))
     = sortForHash (frameOf [txA1; txA2; txB5]).
Proof.
  apply (@sortForHash_canonical reference_platform (frameOf [txA1; txA2; txB5])).
  apply (bool_decide_unpack _). vm_compute. exact I.
Defined.

(** ** Construction and the wire form *)

Lemma fromWire_transactions make networkID (xdrSet : TransactionSet) :
  mTransactions (TxSetFrame_fromWire make networkID xdrSet)
  = map (make networkID) (wire_txs xdrSet).
Proof. unfold TxSetFrame_fromWire. simpl. by rewrite foldl_snoc_map. Qed.

(** X4. A frame built from a [TransactionSet] and written back with [toXDR]
    gives that [TransactionSet] again, whatever the target held before, when
    the factory keeps the envelopes it is given and the set has fewer than
    2^32 of them.  Nothing is sorted on the way: the transactions stand in
    the order of the envelopes. *)
Theorem wire_round_trip
    (makeTransactionFromWire : Hash -> TransactionEnvelope -> TransactionFramePtr)
    (networkID : Hash) (xdrSet txSet : TransactionSet) :
  (forall e, e ∈ wire_txs xdrSet ->
             getEnvelope (makeTransactionFromWire networkID e) = e) ->
  size (wire_txs xdrSet) < 2 ^ 32 ->
  toXDR (TxSetFrame_fromWire makeTransactionFromWire networkID xdrSet) txSet
  = Some xdrSet.
Proof.
  intros Hkeep Hsz. rewrite toXDR_Some.
  - rewrite fromWire_transactions, map_map. destruct xdrSet as [prev txs].
    simpl in *. f_equal. f_equal.
    induction txs as [|e txs IH]; [done|]. simpl. f_equal.
    + apply Hkeep. left.
    + apply IH; [|unfold size in *; simpl in Hsz; lia].
      intros e' He'. apply Hkeep. by right.
  - rewrite fromWire_transactions. unfold size in *. by rewrite length_map.
Qed.

Lemma wire_round_trip_witness :
  toXDR (TxSetFrame_fromWire sampleFactory 5%N sampleWire) usedWire
  = Some sampleWire.
Proof.
  apply wire_round_trip.
  - intros e He. reflexivity.
  - vm_compute. reflexivity.
Defined.

Lemma inKeyOrder_empty : inKeyOrder ∅ = [].
Proof. unfold inKeyOrder. by rewrite map_to_list_empty. Qed.

Section EmptyFrame.
Context {P : Platform}.

(** X5. The frame the first constructor builds holds no transaction: its
    content hash is the digest of the 32 bytes of the parent hash alone, its
    apply list is empty, [surgePricingFilter] and [trimInvalid] leave it as
    it is and trim nothing, and [checkValid] accepts it exactly when its
    parent hash is the hash of the last closed ledger.  The two maxima are
    unsigned in the source. *)
Theorem empty_frame (parent : Hash) (lm : LedgerManager)
    (app : Application) (trimmed : list TransactionFramePtr) :
  0 <= getMaxTxSetSize lm ->
  0 <= maxTxSetSize (header (getLastClosedLedgerHeader (getLedgerManager app))) ->
  let s := TxSetFrame_new parent in
  fst (getContentsHash s) = sha256 (hashBytes parent)
  /\ fst (sortForApply s) = []
  /\ surgePricingFilter lm app s = s
  /\ trimInvalid app s trimmed = (s, trimmed)
  /\ (checkValid app s = true
      <-> hash (getLastClosedLedgerHeader (getLedgerManager app)) = parent).
Proof.
  intros Hmax Hmax' s.
  assert (Hnil : forall cmp : TransactionFramePtr -> TransactionFramePtr -> bool,
             StrictWeakOrder cmp -> std_sort cmp [] = [])
    by (intros; by apply std_sort_nil).
  split; [|split; [|split; [|split]]].
  - rewrite getContentsHash_invalid by done. simpl.
    rewrite Hnil by apply HashTxSorter_swo. unfold hashInput.
    change (concat _) with (@nil byte). by rewrite app_nil_r.
  - rewrite sortForApply_eq. simpl. rewrite (Hnil SeqSorter) by apply SeqSorter_swo.
    unfold buildBatches. simpl.
    rewrite !Hnil by apply ApplyTxSorter_swo. done.
  - unfold surgePricingFilter. simpl. rewrite decide_False; [done|].
    unfold size. simpl. lia.
  - unfold trimInvalid, sortForHash. simpl.
    rewrite Hnil by apply HashTxSorter_swo.
    unfold checkOrTrim. simpl. rewrite inKeyOrder_empty. done.
  - unfold checkValid. simpl. destruct (decide (hash _ <> _)) as [Hne|Heq].
    + split; [done|]. intros E. by destruct Hne.
    + rewrite decide_False by (unfold size; simpl; lia).
      unfold checkOrTrim. simpl. rewrite inKeyOrder_empty. simpl.
      split; [|done]. intros _.
      destruct (decide (hash (getLastClosedLedgerHeader (getLedgerManager app))
                        = parent)); [done|]. by destruct Heq.
Qed.

(** X6. The accessor [previousLedgerHash()] that is not [const] clears the
    valid flag even when the parent hash is only read through it: the next
    [getContentsHash] computes the hash anew, and for a frame whose cache is
    coherent gets the hash the frame had.  After an assignment through the
    accessor, the next [getContentsHash] digests the new parent hash with
    the transactions, which the assignment does not touch, whatever the
    cache held. *)
Theorem previousLedgerHash_assign_rehash (h : Hash) (s : TxSetFrame) :
  fst (previousLedgerHash s) = previousLedgerHash_const s
  /\ mHashIsValid (snd (previousLedgerHash s)) = false
  /\ (cacheCoherent s ->
      fst (getContentsHash (snd (previousLedgerHash s)))
      = fst (getContentsHash s))
  /\ mTransactions (previousLedgerHash_assign h s) = mTransactions s
  /\ fst (getContentsHash (previousLedgerHash_assign h s))
     = sha256 (hashInput h (std_sort HashTxSorter (mTransactions s))).
Proof.
  split; [done|]. split; [done|]. split; [|split; [done|]].
  - intros Hc. rewrite getContentsHash_invalid by done.
    by rewrite (getContentsHash_coherent s Hc).
  - by rewrite getContentsHash_invalid.
Qed.
End EmptyFrame.

Lemma empty_frame_witness :
  let s := TxSetFrame_new 17%N in
  fst (@getContentsHash reference_platform s)
  = @sha256 reference_platform (hashBytes 17%N)
  /\ fst (@sortForApply reference_platform s) = []
  /\ @surgePricingFilter reference_platform sampleLedger sampleApp s = s
  /\ @trimInvalid reference_platform sampleApp s [txA1] = (s, [txA1])
  /\ (@checkValid reference_platform sampleApp s = true
      <-> hash (getLastClosedLedgerHeader (getLedgerManager sampleApp)) = 17%N).
Proof.
  apply (@empty_frame reference_platform 17%N sampleLedger sampleApp [txA1]).
  - vm_compute. discriminate.
  - vm_compute. discriminate.
Defined.

(** ** Removing transactions *)

Lemma erase_first_split tx (v : list TransactionFramePtr) :
  tx ∈ v ->
  exists l1 l2, v = l1 ++ tx :: l2 /\ (tx ∉ l1) /\ erase_first tx v = l1 ++ l2.
Proof.
  induction v as [|x v IH]; intros Hin; [by inv Hin|]. simpl.
  case_decide as E.
  - subst x. exists [], v. split; [done|]. split; [|done]. by intros H; inv H.
  - apply elem_of_cons in Hin as [->|Hin]; [done|].
    destruct (IH Hin) as (l1 & l2 & -> & Hnot & ->).
    exists (x :: l1), l2. split; [done|]. split; [|done].
    intros H. apply elem_of_cons in H as [->|H]; [done|]. by apply Hnot.
Qed.

Lemma StronglySorted_sublist {A} (R : A -> A -> Prop) (l1 l2 : list A) :
  l1 `sublist_of` l2 -> StronglySorted R l2 -> StronglySorted R l1.
Proof.
  induction 1 as [|x l1 l2 Hsub IH|x l1 l2 Hsub IH]; intros Hs; [done| |].
  - inv Hs. constructor; [by apply IH|].
    rewrite Forall_forall in *. intros y Hy. eauto using elem_of_sublist.
  - inv Hs. by apply IH.
Qed.

Lemma StronglySorted_app_elems {A} (R : A -> A -> Prop) (l1 l2 : list A) x y :
  StronglySorted R (l1 ++ l2) -> x ∈ l1 -> y ∈ l2 -> R x y.
Proof.
  induction l1 as [|a l1 IH]; intros Hs Hx Hy; [by inv Hx|].
  simpl in Hs. inv Hs. apply elem_of_cons in Hx as [->|Hx].
  - rewrite Forall_forall in *. match goal with H : forall _, _ -> R a _ |- _ => apply H end.
    apply elem_of_app. by right.
  - by apply IH.
Qed.

Lemma foldl_removeTx_frame `{P : Platform} (gone : list TransactionFramePtr) s :
  mPreviousLedgerHash (foldl (fun s tx => removeTx tx s) s gone)
  = mPreviousLedgerHash s
  /\ (cacheCoherent s ->
      cacheCoherent (foldl (fun s tx => removeTx tx s) s gone)).
Proof.
  revert s. induction gone as [|x gone IH]; intros s; [done|]. simpl.
  destruct (IH (removeTx x s)) as [Hprev Hc]. split; [done|].
  intros _. apply Hc, removeTx_coherent.
Qed.

Lemma foldl_erase_first_Permutation (gone keep v : list TransactionFramePtr) :
  gone ++ keep ≡ₚ v ->
  foldl (fun v tx => erase_first tx v) v gone ≡ₚ keep.
Proof.
  intros Hp.
  destruct (erase_first_foldl_submseteq gone keep v) as [Hkeep Hlen];
    [by apply Permutation_submseteq|].
  symmetry. apply submseteq_length_Permutation; [done|].
  apply Permutation_length in Hp. rewrite length_app in Hp. lia.
Qed.

Section Removal.
Context {P : Platform}.

(** X7. [removeTx] of a transaction the set holds takes out its first
    occurrence and nothing else: the transactions before and after it stay,
    in their order.  The parent hash is kept and the valid flag cleared, so
    the next content hash is computed from what is left. *)
Theorem removeTx_present (tx : TransactionFramePtr) (s : TxSetFrame) :
  tx ∈ mTransactions s ->
  exists l1 l2,
    mTransactions s = l1 ++ tx :: l2
    /\ (tx ∉ l1)
    /\ mTransactions (removeTx tx s) = l1 ++ l2
    /\ mPreviousLedgerHash (removeTx tx s) = mPreviousLedgerHash s
    /\ fst (getContentsHash (removeTx tx s))
       = sha256 (hashInput (mPreviousLedgerHash s)
                           (std_sort HashTxSorter (l1 ++ l2))).
Proof.
  intros Hin. destruct (erase_first_split tx _ Hin) as (l1 & l2 & E & Hnot & E').
  exists l1, l2. split; [done|]. split; [done|]. split; [done|].
  split; [done|]. rewrite getContentsHash_invalid by done. simpl.
  by rewrite E'.
Qed.

Lemma surgePricingFilter_frame (lm : LedgerManager) (app : Application)
    (s : TxSetFrame) :
  mTransactions (surgePricingFilter lm app s) `sublist_of` mTransactions s
  /\ mPreviousLedgerHash (surgePricingFilter lm app s) = mPreviousLedgerHash s
  /\ (cacheCoherent s -> cacheCoherent (surgePricingFilter lm app s)).
Proof.
  unfold surgePricingFilter. case_decide; [|done].
  match goal with
  | |- context [foldl _ s ?g] =>
      pose proof (foldl_removeTx_frame g s) as [Hp1 Hc1];
      pose proof (erase_first_foldl_sublist g (mTransactions s)) as Hs1;
      rewrite <- removeTx_foldl_transactions in Hs1;
      set (s1 := foldl (fun s tx => removeTx tx s) s g) in *
  end.
  match goal with
  | |- context [if ?c then s1 else s] =>
      set (s2 := if c then s1 else s);
      assert (H2 : mTransactions s2 `sublist_of` mTransactions s
                   /\ mPreviousLedgerHash s2 = mPreviousLedgerHash s
                   /\ (cacheCoherent s -> cacheCoherent s2))
        by (unfold s2; destruct c; done)
  end.
  destruct H2 as (Hs2 & Hp2 & Hc2).
  case_decide; [done|].
  match goal with
  | |- context [foldl _ s2 ?g] =>
      pose proof (foldl_removeTx_frame g s2) as [Hp3 Hc3];
      pose proof (erase_first_foldl_sublist g (mTransactions s2)) as Hs3;
      rewrite <- removeTx_foldl_transactions in Hs3
  end.
  split; [by etrans|]. split; [congruence|]. auto.
Qed.

(** X8. [surgePricingFilter] only takes transactions out: what it leaves is
    a subsequence of the set, so a set in hash order stays in hash order;
    the parent hash is kept, and so is the coherence of the cache. *)
Theorem surgePricingFilter_only_removes (lm : LedgerManager)
    (app : Application) (s : TxSetFrame) :
  mTransactions (surgePricingFilter lm app s) `sublist_of` mTransactions s
  /\ mPreviousLedgerHash (surgePricingFilter lm app s) = mPreviousLedgerHash s
  /\ (StronglySorted (fun a b => (getFullHash a <= getFullHash b)%N)
                     (mTransactions s) ->
      StronglySorted (fun a b => (getFullHash a <= getFullHash b)%N)
                     (mTransactions (surgePricingFilter lm app s)))
  /\ (cacheCoherent s -> cacheCoherent (surgePricingFilter lm app s)).
Proof.
  destruct (surgePricingFilter_frame lm app s) as (Hsub & Hprev & Hc).
  split; [done|]. split; [done|].
  split; [|done]. by apply StronglySorted_sublist.
Qed.
End Removal.

Lemma removeTx_present_witness :
  exists l1 l2,
    mTransactions (frameOf [txA1; txA2; txB5]) = l1 ++ txA2 :: l2
    /\ (txA2 ∉ l1)
    /\ mTransactions (removeTx txA2 (frameOf [txA1; txA2; txB5]))
       = l1 ++ l2
    /\ mPreviousLedgerHash (removeTx txA2 (frameOf [txA1; txA2; txB5]))
       = mPreviousLedgerHash (frameOf [txA1; txA2; txB5])
    /\ fst (@getContentsHash reference_platform
              (removeTx txA2 (frameOf [txA1; txA2; txB5])))
       = @sha256 reference_platform
           (hashInput (mPreviousLedgerHash (frameOf [txA1; txA2; txB5]))
                      (@std_sort reference_platform _ HashTxSorter (l1 ++ l2))).
Proof.
  apply (@removeTx_present reference_platform txA2 (frameOf [txA1; txA2; txB5])).
  apply (bool_decide_unpack _). vm_compute. exact I.
Defined.

(** ** The surge-pricing filter: what is kept *)

Lemma filter_all {A} (Q : A -> Prop) `{!forall x, Decision (Q x)} (l : list A) :
  (forall x, x ∈ l -> Q x) -> filter Q l = l.
Proof.
  induction l as [|x l IH]; intros Hall; [done|].
  rewrite filter_cons, decide_True by (apply Hall; left).
  f_equal. apply IH. intros y Hy. apply Hall. by right.
Qed.

Lemma filter_none {A} (Q : A -> Prop) `{!forall x, Decision (Q x)} (l : list A) :
  (forall x, x ∈ l -> ~ Q x) -> filter Q l = [].
Proof.
  induction l as [|x l IH]; intros Hall; [done|].
  rewrite filter_cons, decide_False by (apply Hall; left).
  apply IH. intros y Hy. apply Hall. by right.
Qed.

Lemma surgeSeats_bounds (lm : LedgerManager) (app : Application)
    (s : TxSetFrame) :
  size (mTransactions s) > getMaxTxSetSize lm ->
  0 <= unwhitelistedReserve (getWhitelist app) (getMaxTxSetSize lm)
    <= getMaxTxSetSize lm ->
  0 <= whitelistedSeats lm app (mTransactions s)
    <= size (whitelistedOf app (mTransactions s))
  /\ 0 <= getMaxTxSetSize lm - whitelistedSeats lm app (mTransactions s)
       <= size (unwhitelistedOf app (mTransactions s))
  /\ surgeReserve lm app (mTransactions s)
     <= getMaxTxSetSize lm - whitelistedSeats lm app (mTransactions s).
Proof.
  intros Hbig Hres.
  assert (Hn : size (mTransactions s)
               = size (whitelistedOf app (mTransactions s))
                 + size (unwhitelistedOf app (mTransactions s))).
  { unfold size, whitelistedOf, unwhitelistedOf.
    rewrite <- (filter_app_complement (fun tx => isWhitelisted tx app = true)
                  (mTransactions s)) at 1.
    rewrite length_app. lia. }
  unfold whitelistedSeats, surgeReserve in *. unfold size in *. lia.
Qed.

Section SurgeKept.
Context {P : Platform}.
Variables (lm : LedgerManager) (app : Application) (s : TxSetFrame).
Hypothesis Hbig : size (mTransactions s) > getMaxTxSetSize lm.
Hypothesis Hmax : 0 <= getMaxTxSetSize lm < 2 ^ 64.
Hypothesis Hres :
  0 <= unwhitelistedReserve (getWhitelist app) (getMaxTxSetSize lm)
    <= getMaxTxSetSize lm.

(** The filter, as one pass of removals: the whitelisted transactions past
    their places, then the others past theirs. *)
Lemma surgePricingFilter_shape :
  let txs := mTransactions s in
  let afm := accountFeeMapOf lm txs in
  let wl := accountID (getWhitelist app) in
  let seats := whitelistedSeats lm app txs in
  mTransactions (surgePricingFilter lm app s)
  = foldl (fun v tx => erase_first tx v) txs
      (drop (Z.to_nat seats)
            (std_sort (SurgeSorter afm true wl) (whitelistedOf app txs))
       ++ drop (Z.to_nat (getMaxTxSetSize lm - seats))
               (std_sort (SurgeSorter afm false wl) (unwhitelistedOf app txs))).
Proof.
  intros txs afm wl seats.
  pose proof (surgeSeats_bounds lm app s Hbig Hres) as (HbW & HbU & _). fold txs seats in HbW, HbU.
  unfold surgePricingFilter. fold txs afm wl.
  fold (whitelistedOf app txs) (unwhitelistedOf app txs).
  set (max := getMaxTxSetSize lm) in *.
  set (r0 := unwhitelistedReserve (getWhitelist app) max) in *.
  set (W := whitelistedOf app txs) in *.
  set (U := unwhitelistedOf app txs) in *.
  set (cmpW := SurgeSorter afm true wl).
  set (cmpU := SurgeSorter afm false wl).
  rewrite decide_True by done.
  set (reserve := if decide (size U < r0) then size U else r0).
  assert (Hreserve : reserve = surgeReserve lm app txs).
  { unfold reserve, surgeReserve. fold U max r0. case_decide; lia. }
  assert (Hseats : seats = Z.min (size W) (max - reserve)).
  { unfold seats, whitelistedSeats. by rewrite Hreserve. }
  assert (Hr : 0 <= reserve <= max /\ reserve <= size U).
  { unfold reserve, size in *. case_decide; lia. }
  assert (Hcap : size_t_sub max reserve = max - reserve).
  { unfold size_t_sub. apply Z.mod_small. lia. }
  rewrite !Hcap.
  assert (HW : std_sort cmpW W ≡ₚ W) by apply std_sort_perm, SurgeSorter_swo.
  assert (HU : std_sort cmpU U ≡ₚ U) by apply std_sort_perm, SurgeSorter_swo.
  assert (HlenW : size (std_sort cmpW W) = size W)
    by (unfold size; by rewrite HW).
  assert (HlenU : size (std_sort cmpU U) = size U)
    by (unfold size; by rewrite HU).
  rewrite !HlenW.
  assert (Hs1 : mTransactions
                  (if decide (size W > max - reserve)
                   then foldl (fun s tx => removeTx tx s) s
                          (drop (Z.to_nat (max - reserve)) (std_sort cmpW W))
                   else s)
                = foldl (fun v tx => erase_first tx v) txs
                        (drop (Z.to_nat seats) (std_sort cmpW W))).
  { case_decide as Hc.
    - rewrite removeTx_foldl_transactions.
      replace seats with (max - reserve) by lia. done.
    - rewrite drop_ge; [done|]. unfold size in *. lia. }
  assert (Htotal : size_t_add reserve
                     (if decide (size W > max - reserve) then 0
                      else size_t_sub (max - reserve) (size W))
                   = max - seats).
  { unfold size_t_add, size_t_sub. case_decide.
    - rewrite Z.mod_small by lia. lia.
    - rewrite (Z.mod_small (max - reserve - size W)) by (unfold size in *; lia).
      rewrite Z.mod_small by (unfold size in *; lia). lia. }
  rewrite Htotal, foldl_app.
  destruct (decide (size U <= max - seats)) as [Hroom|Hroom].
  - rewrite Hs1. rewrite (drop_ge (std_sort cmpU U)); [done|].
    unfold size in *. lia.
  - by rewrite removeTx_foldl_transactions, Hs1.
Qed.

Lemma surgePricingFilter_kept :
  let txs := mTransactions s in
  let afm := accountFeeMapOf lm txs in
  let wl := accountID (getWhitelist app) in
  let seats := whitelistedSeats lm app txs in
  mTransactions (surgePricingFilter lm app s)
  ≡ₚ take (Z.to_nat seats)
          (std_sort (SurgeSorter afm true wl) (whitelistedOf app txs))
     ++ take (Z.to_nat (getMaxTxSetSize lm - seats))
             (std_sort (SurgeSorter afm false wl) (unwhitelistedOf app txs)).
Proof.
  intros txs afm wl seats. pose proof surgePricingFilter_shape as E.
  simpl in E. fold txs afm wl seats in E. rewrite E.
  apply foldl_erase_first_Permutation.
  set (sW := std_sort (SurgeSorter afm true wl) (whitelistedOf app txs)).
  set (sU := std_sort (SurgeSorter afm false wl) (unwhitelistedOf app txs)).
  set (n := Z.to_nat seats). set (m := Z.to_nat (getMaxTxSetSize lm - seats)).
  trans (sW ++ sU).
  - rewrite <- (take_drop n sW) at 3. rewrite <- (take_drop m sU) at 3.
    rewrite (Permutation_app_comm (drop n sW ++ drop m sU)).
    rewrite <- !app_assoc. apply Permutation_app_head.
    apply Permutation_app_swap_app.
  - unfold sW, sU. rewrite !std_sort_perm by apply SurgeSorter_swo.
    apply filter_app_complement.
Qed.
End SurgeKept.


Section SurgeClaims.
Context {P : Platform}.

(** X9. When the set holds more than the maximum, and the whitelist's
    reserve lies between 0 and the maximum, [surgePricingFilter] leaves
    exactly the maximum: the whitelisted transactions keep as many places as
    the adjusted reserve leaves them, the others get the rest, which is at
    least the adjusted reserve. *)
Theorem surgePricingFilter_seats (lm : LedgerManager) (app : Application)
    (s : TxSetFrame) :
  size (mTransactions s) > getMaxTxSetSize lm ->
  0 <= getMaxTxSetSize lm < 2 ^ 64 ->
  0 <= unwhitelistedReserve (getWhitelist app) (getMaxTxSetSize lm)
    <= getMaxTxSetSize lm ->
  let out := mTransactions (surgePricingFilter lm app s) in
  size out = getMaxTxSetSize lm
  /\ size (whitelistedOf app out) = whitelistedSeats lm app (mTransactions s)
  /\ size (unwhitelistedOf app out)
     = getMaxTxSetSize lm - whitelistedSeats lm app (mTransactions s)
  /\ surgeReserve lm app (mTransactions s) <= size (unwhitelistedOf app out).
Proof.
  intros Hbig Hmax Hres out.
  pose proof (surgePricingFilter_kept lm app s Hbig Hmax Hres) as Hk.
  pose proof (surgeSeats_bounds lm app s Hbig Hres) as (HbW & HbU & Hr).
  simpl in Hk. fold out in Hk.
  set (txs := mTransactions s) in *.
  set (seats := whitelistedSeats lm app txs) in *.
  set (afm := accountFeeMapOf lm txs) in *.
  set (wl := accountID (getWhitelist app)) in *.
  set (sW := std_sort (SurgeSorter afm true wl) (whitelistedOf app txs)) in *.
  set (sU := std_sort (SurgeSorter afm false wl) (unwhitelistedOf app txs)) in *.
  assert (HW : sW ≡ₚ whitelistedOf app txs) by apply std_sort_perm, SurgeSorter_swo.
  assert (HU : sU ≡ₚ unwhitelistedOf app txs) by apply std_sort_perm, SurgeSorter_swo.
  assert (HlW : length (take (Z.to_nat seats) sW) = Z.to_nat seats).
  { rewrite length_take, HW. unfold size in *. lia. }
  assert (HlU : length (take (Z.to_nat (getMaxTxSetSize lm - seats)) sU)
                = Z.to_nat (getMaxTxSetSize lm - seats)).
  { rewrite length_take, HU. unfold size in *. lia. }
  assert (HinW : forall x, x ∈ take (Z.to_nat seats) sW -> isWhitelisted x app = true).
  { intros x Hx.
    pose proof (elem_of_sublist _ _ _ Hx (sublist_take sW (Z.to_nat seats))) as Hx'.
    rewrite HW in Hx'. by apply list_elem_of_filter in Hx' as [? _]. }
  assert (HinU : forall x, x ∈ take (Z.to_nat (getMaxTxSetSize lm - seats)) sU ->
                           isWhitelisted x app <> true).
  { intros x Hx.
    pose proof (elem_of_sublist _ _ _ Hx
                  (sublist_take sU (Z.to_nat (getMaxTxSetSize lm - seats)))) as Hx'.
    rewrite HU in Hx'. by apply list_elem_of_filter in Hx' as [? _]. }
  assert (HoW : whitelistedOf app out ≡ₚ take (Z.to_nat seats) sW).
  { unfold whitelistedOf. rewrite Hk, filter_app.
    rewrite (filter_all _ (take _ sW)) by done.
    rewrite (filter_none _ (take _ sU)); [by rewrite app_nil_r|].
    intros x Hx. by apply HinU. }
  assert (HoU : unwhitelistedOf app out
                ≡ₚ take (Z.to_nat (getMaxTxSetSize lm - seats)) sU).
  { unfold unwhitelistedOf. rewrite Hk, filter_app.
    rewrite (filter_all _ (take _ sU)) by done.
    rewrite (filter_none _ (take _ sW)); [done|].
    intros x Hx Hn. apply Hn. by apply HinW. }
  unfold size in *. rewrite HoW, HoU, Hk, length_app, HlW, HlU. lia.
Qed.

End SurgeClaims.

(** ** The apply order: rounds *)

Lemma concat_resize {A} (bs : list (list A)) n :
  (length bs <= n)%nat -> concat (resize n [] bs) = concat bs.
Proof.
  intros Hn. rewrite resize_ge by done. rewrite concat_app.
  replace (concat (replicate (n - length bs) [])) with (@nil A);
    [by rewrite app_nil_r|].
  induction (n - length bs)%nat as [|k IH]; [done|]. by simpl.
Qed.

Lemma concat_alter_snoc {A} (bs : list (list A)) v (x : A) :
  (v < length bs)%nat ->
  concat (alter (fun b => b ++ [x]) v bs) ≡ₚ x :: concat bs.
Proof.
  revert v. induction bs as [|b bs IH]; intros v Hv; simpl in Hv; [lia|].
  destruct v as [|v].
  - simpl. rewrite <- app_assoc. simpl. symmetry. apply Permutation_middle.
  - change (concat (alter (fun b0 => b0 ++ [x]) (S v) (b :: bs)))
      with (b ++ concat (alter (fun b0 => b0 ++ [x]) v bs)).
    rewrite IH by lia. simpl. symmetry. apply Permutation_middle.
Qed.

Lemma foldl_batchStep_concat (p : list TransactionFramePtr) bs m :
  concat (fst (foldl batchStep (bs, m) p)) ≡ₚ concat bs ++ p.
Proof.
  revert bs m. induction p as [|tx p IH]; intros bs m.
  - simpl. by rewrite app_nil_r.
  - change (foldl batchStep (bs, m) (tx :: p))
      with (foldl batchStep (batchStep (bs, m) tx) p).
    set (v := default 0%nat (m !! getSourceID tx)).
    set (bs' := if decide (length bs <= v)%nat then resize (v + 4) [] bs else bs).
    assert (E : batchStep (bs, m) tx
                = (alter (fun batch => batch ++ [tx]) v bs',
                   <[getSourceID tx := S v]> m)) by reflexivity.
    rewrite E, IH.
    assert (Hv : (v < length bs')%nat).
    { unfold bs'. case_decide; [rewrite length_resize|]; lia. }
    assert (Hc : concat bs' = concat bs).
    { unfold bs'. case_decide; [|done]. apply concat_resize. lia. }
    rewrite (concat_alter_snoc bs' v tx Hv), Hc. simpl.
    apply Permutation_middle.
Qed.

Lemma concat_map_Permutation {A} (f : list A -> list A) (bs : list (list A)) :
  (forall b, f b ≡ₚ b) -> concat (map f bs) ≡ₚ concat bs.
Proof.
  intros Hf. induction bs as [|b bs IH]; [done|]. simpl. by rewrite Hf, IH.
Qed.

Lemma standsBefore_concat_two {A} (bs : list (list A)) j k bj bk (x y : A) :
  bs !! j = Some bj -> bs !! k = Some bk -> (j < k)%nat ->
  x ∈ bj -> y ∈ bk -> standsBefore x y (concat bs).
Proof.
  intros Hj Hk Hjk Hx Hy.
  apply list_elem_of_split in Hx as (a1 & a2 & ->).
  apply list_elem_of_split in Hy as (b1 & b2 & ->).
  assert (Hk' : drop (S j) bs !! (k - S j)%nat = Some (b1 ++ y :: b2)).
  { rewrite lookup_drop. replace (S j + (k - S j))%nat with k by lia. done. }
  rewrite <- (take_drop_middle bs j _ Hj).
  rewrite <- (take_drop_middle (drop (S j) bs) _ _ Hk').
  exists (concat (take j bs) ++ a1),
         (a2 ++ concat (take (k - S j) (drop (S j) bs)) ++ b1),
         (b2 ++ concat (drop (S (k - S j)) (drop (S j) bs))).
  rewrite !concat_app. simpl. rewrite !concat_app. simpl.
  repeat (rewrite <- app_assoc; simpl). done.
Qed.

Lemma standsBefore_concat_one {A} (bs : list (list A)) j b (x y : A) :
  bs !! j = Some b -> standsBefore x y b -> standsBefore x y (concat bs).
Proof.
  intros Hj (l1 & l2 & l3 & ->).
  rewrite <- (take_drop_middle bs j _ Hj).
  exists (concat (take j bs) ++ l1), l2, (l3 ++ concat (drop (S j) bs)).
  rewrite !concat_app. simpl.
  repeat (rewrite <- app_assoc; simpl). done.
Qed.

Lemma standsBefore_sorted {A} (cmp : A -> A -> bool) (l : list A) x y :
  StrictWeakOrder cmp -> StronglySorted (notAfter cmp) l ->
  x ∈ l -> y ∈ l -> cmp x y = true -> standsBefore x y l.
Proof.
  intros Hswo Hs Hx Hy Hxy.
  apply list_elem_of_split in Hx as (l1 & l2 & ->).
  apply elem_of_app in Hy as [Hy|Hy].
  - pose proof (StronglySorted_app_elems _ l1 (x :: l2) y x Hs Hy) as Hn.
    unfold notAfter in Hn. rewrite Hn in Hxy by left. done.
  - apply elem_of_cons in Hy as [->|Hy].
    + by rewrite (swo_irrefl cmp Hswo x) in Hxy.
    + apply list_elem_of_split in Hy as (m1 & m2 & ->).
      by exists l1, m1, m2.
Qed.

Lemma batchAt_elem (bs : list (list TransactionFramePtr)) j x :
  x ∈ batchAt bs j -> exists b, bs !! j = Some b /\ x ∈ b.
Proof.
  unfold batchAt. destruct (bs !! j) as [b|]; simpl; [eauto|].
  intros H. by inv H.
Qed.

Section ApplyRounds.
Context {P : Platform}.

(** X11. [sortForApply] returns the transactions of the set, every one as
    often as the set holds it, and leaves the frame as [getContentsHash]
    leaves it: with the same transactions, in hash order when the cache was
    not valid. *)
Theorem sortForApply_permutation (s : TxSetFrame) :
  fst (sortForApply s) ≡ₚ mTransactions s
  /\ snd (sortForApply s) = snd (getContentsHash s)
  /\ mTransactions (snd (sortForApply s)) ≡ₚ mTransactions s
  /\ mPreviousLedgerHash (snd (sortForApply s)) = mPreviousLedgerHash s
  /\ (mHashIsValid s = false ->
      mTransactions (snd (sortForApply s))
      = std_sort HashTxSorter (mTransactions s)).
Proof.
  rewrite sortForApply_eq. simpl. split; [|split; [done|]].
  - rewrite concat_map_Permutation
      by (intros b; apply std_sort_perm, ApplyTxSorter_swo).
    unfold buildBatches. rewrite foldl_batchStep_concat. simpl.
    apply std_sort_perm, SeqSorter_swo.
  - destruct (mHashIsValid s) eqn:Hv.
    + rewrite getContentsHash_valid by done. done.
    + rewrite getContentsHash_invalid by done. simpl.
      split; [apply std_sort_perm, HashTxSorter_swo|done].
Qed.

(** X12. The apply list goes by rounds: the transactions that are the first
    of their account in sequence order, then those that are the second, and
    so on.  A transaction that is the [j]-th of its account stands before
    one that is the [k]-th of its account whenever [j < k], whatever the
    two accounts. *)
Theorem sortForApply_rounds (s : TxSetFrame) (x y : TransactionFramePtr)
    (j k : nat) :
  let retList := std_sort SeqSorter (mTransactions s) in
  filter (fromAccount (getSourceID x)) retList !! j = Some x ->
  filter (fromAccount (getSourceID y)) retList !! k = Some y ->
  (j < k)%nat ->
  standsBefore x y (fst (sortForApply s)).
Proof.
  intros retList Hx Hy Hjk. rewrite sortForApply_eq. simpl. fold retList.
  apply batch_elem, batchAt_elem in Hx as (bj & Hj & Hx).
  apply batch_elem, batchAt_elem in Hy as (bk & Hk & Hy).
  set (f := std_sort (ApplyTxSorter (fst (getContentsHash s)))).
  assert (Hf : forall b, f b ≡ₚ b)
    by (intros b; apply std_sort_perm, ApplyTxSorter_swo).
  apply (standsBefore_concat_two _ j k (f bj) (f bk)); [| |done| |].
  - by rewrite list_lookup_fmap, Hj.
  - by rewrite list_lookup_fmap, Hk.
  - by rewrite Hf.
  - by rewrite Hf.
Qed.

(** X13. Within one round the order is by the full hash XORed with the
    content hash of the set: of two transactions that are both the [j]-th of
    their account, the one with the smaller XORed hash stands first. *)
Theorem sortForApply_round_order (s : TxSetFrame) (x y : TransactionFramePtr)
    (j : nat) :
  let retList := std_sort SeqSorter (mTransactions s) in
  let h := fst (getContentsHash s) in
  filter (fromAccount (getSourceID x)) retList !! j = Some x ->
  filter (fromAccount (getSourceID y)) retList !! j = Some y ->
  (N.lxor (getFullHash x) h < N.lxor (getFullHash y) h)%N ->
  standsBefore x y (fst (sortForApply s)).
Proof.
  intros retList h Hx Hy Hlt. rewrite sortForApply_eq. simpl. fold retList h.
  apply batch_elem, batchAt_elem in Hx as (b & Hj & Hx).
  apply batch_elem, batchAt_elem in Hy as (b' & Hj' & Hy).
  assert (b' = b) by congruence. subst b'.
  apply (standsBefore_concat_one _ j (std_sort (ApplyTxSorter h) b)).
  - by rewrite list_lookup_fmap, Hj.
  - apply (standsBefore_sorted (ApplyTxSorter h)).
    + apply ApplyTxSorter_swo.
    + apply std_sort_sorted, ApplyTxSorter_swo.
    + by rewrite std_sort_perm by apply ApplyTxSorter_swo.
    + by rewrite std_sort_perm by apply ApplyTxSorter_swo.
    + unfold ApplyTxSorter, lessThanXored. by apply N.ltb_lt.
Qed.
End ApplyRounds.

(** ** [checkOrTrim] without a callback *)

Lemma groupByAccount_Some_sorted txs lastHash m m' :
  groupByAccount txs lastHash m = Some m' ->
  StronglySorted (fun a b => (getFullHash a <= getFullHash b)%N) txs
  /\ Forall (fun tx => (lastHash <= getFullHash tx)%N) txs.
Proof.
  revert lastHash m. induction txs as [|tx txs IH]; intros lastHash m H.
  - split; constructor.
  - simpl in H. destruct (N.ltb_spec (getFullHash tx) lastHash) as [|Hle]; [done|].
    apply IH in H as [Hs Hf]. split; constructor; try done.
    eapply Forall_impl; [exact Hf|]. simpl. intros. lia.
Qed.

Lemma groupByAccount_hash_sorted txs :
  StronglySorted (fun a b => (getFullHash a <= getFullHash b)%N) txs ->
  groupByAccount txs 0%N ∅ = Some (foldl accountTxMap_push_back ∅ txs).
Proof.
  intros Hs. apply groupByAccount_sorted.
  - eapply StronglySorted_impl; [|exact Hs]. intros a b.
    by rewrite notAfter_HashTxSorter.
  - intros. lia.
Qed.

Lemma failedTxs_nil_passed app lastSeq item :
  failedTxs app lastSeq item = [] -> passedTxs app lastSeq item = item.
Proof.
  revert lastSeq. induction item as [|tx item IH]; intros lastSeq H; [done|].
  simpl in *. destruct (txCheckValid tx app lastSeq); [|done].
  f_equal. by apply IH.
Qed.

Section NoCallback.
Context {P : Platform} {St : Type}.
Variable app : Application.
Variable f : TransactionFramePtr -> SequenceNumber -> St -> bool * St.
Variable g : list TransactionFramePtr -> St -> bool * St.

Lemma scanAccount_clean item lastTx lastSeq totFee (st : St) :
  failedTxs app lastSeq item = [] ->
  scanAccount app f item lastTx lastSeq totFee st
  = (Some (match last (passedTxs app lastSeq item) with
           | Some t => Some t
           | None => lastTx
           end,
           totFee + nonWhitelistedFees app (passedTxs app lastSeq item)), st).
Proof.
  revert lastTx lastSeq totFee.
  induction item as [|tx item IH]; intros lastTx lastSeq totFee H.
  - simpl. do 3 f_equal. lia.
  - simpl in *. destruct (txCheckValid tx app lastSeq); [|done].
    rewrite IH by done. rewrite last_cons_match.
    destruct (last _); simpl; do 3 f_equal; lia.
Qed.

Lemma checkAccount_clean item (st : St) :
  itemOk app (std_sort SeqSorter item) ->
  checkAccount app f g item st = (true, st).
Proof.
  intros [Hf Hs]. unfold checkAccount. rewrite scanAccount_clean by done.
  destruct (last _) as [t|] eqn:El; [|done].
  case_decide as Hshort; [|done]. destruct Hs. exists t. split; [done|].
  by rewrite Z.add_0_l in Hshort.
Qed.

Lemma forAccounts_clean entries (st : St) :
  Forall (fun e => itemOk app (std_sort SeqSorter (snd e))) entries ->
  forAccounts app f g entries st = (true, st).
Proof.
  induction 1 as [|[k item] entries Hok _ IH]; [done|]. simpl.
  by rewrite checkAccount_clean.
Qed.

Lemma checkOrTrim_clean txs (st : St) :
  StronglySorted (fun a b => (getFullHash a <= getFullHash b)%N) txs ->
  (forall A, accountOk app txs A) ->
  checkOrTrim app f g txs st = (true, st).
Proof.
  intros Hs Hok. unfold checkOrTrim. rewrite groupByAccount_hash_sorted by done.
  apply forAccounts_clean, Forall_forall. intros [k v] Hin.
  apply elem_of_grouped in Hin as [-> _]. apply Hok.
Qed.

(** X14. [checkOrTrim] calls no callback, and so leaves what the callbacks
    work on untouched, in two cases: when the set is not in hash order,
    where it answers [false], and when the set is in hash order and every
    account is fine -- all its transactions pass [checkValid] in sequence
    order and its balance is not found short -- where it answers [true]. *)
Theorem checkOrTrim_no_callback (txs : list TransactionFramePtr) (st : St) :
  (~ StronglySorted (fun a b => (getFullHash a <= getFullHash b)%N) txs ->
   checkOrTrim app f g txs st = (false, st))
  /\ (StronglySorted (fun a b => (getFullHash a <= getFullHash b)%N) txs ->
      (forall A, accountOk app txs A) ->
      checkOrTrim app f g txs st = (true, st)).
Proof.
  split; [|apply checkOrTrim_clean].
  intros Hn. unfold checkOrTrim.
  destruct (groupByAccount txs 0%N ∅) as [m|] eqn:E; [|done].
  destruct Hn. by apply groupByAccount_Some_sorted in E as [? _].
Qed.
End NoCallback.

Section CheckValid.
Context {P : Platform}.
Variable app : Application.

Lemma scanAccount_reject item lastTx lastSeq totFee :
  failedTxs app lastSeq item <> [] ->
  scanAccount app rejectInvalidTx item lastTx lastSeq totFee tt = (None, tt).
Proof.
  revert lastTx lastSeq totFee.
  induction item as [|tx item IH]; intros lastTx lastSeq totFee H; [done|].
  simpl in *. destruct (txCheckValid tx app lastSeq); [|done]. by apply IH.
Qed.

Lemma checkAccount_reject item :
  checkAccount app rejectInvalidTx rejectInsufficientBalance item tt = (true, tt)
  -> itemOk app (std_sort SeqSorter item).
Proof.
  unfold checkAccount. intros H.
  destruct (decide (failedTxs app 0%N (std_sort SeqSorter item) = [])) as [Hf|Hf].
  - split; [done|]. rewrite scanAccount_clean in H by done.
    intros (t & El & Hshort). rewrite El in H.
    rewrite Z.add_0_l in H. by rewrite decide_True in H by done.
  - by rewrite scanAccount_reject in H by done.
Qed.

Lemma forAccounts_reject entries :
  forAccounts app rejectInvalidTx rejectInsufficientBalance entries tt
  = (true, tt) ->
  Forall (fun e => itemOk app (std_sort SeqSorter (snd e))) entries.
Proof.
  induction entries as [|[k item] entries IH]; intros H; [constructor|].
  simpl in H.
  destruct (checkAccount app rejectInvalidTx rejectInsufficientBalance item tt)
    as [ok []] eqn:E.
  destruct ok; [|done]. constructor; [|by apply IH].
  simpl. by apply checkAccount_reject.
Qed.

Lemma checkOrTrim_reject txs :
  checkOrTrim app rejectInvalidTx rejectInsufficientBalance txs tt = (true, tt) ->
  StronglySorted (fun a b => (getFullHash a <= getFullHash b)%N) txs
  /\ forall A, accountOk app txs A.
Proof.
  unfold checkOrTrim. intros H.
  destruct (groupByAccount txs 0%N ∅) as [m|] eqn:E; [|done].
  pose proof (groupByAccount_Some_sorted _ _ _ _ E) as [Hs _].
  apply groupByAccount_Some in E. subst m. split; [done|].
  apply forAccounts_reject in H. rewrite Forall_forall in H. intros A.
  unfold accountOk.
  destruct (decide (filter (fromAccount A) txs = [])) as [EA|EA].
  - rewrite EA, std_sort_nil by apply SeqSorter_swo. split; [done|].
    by intros (t & El & _).
  - apply (H (A, filter (fromAccount A) txs)). by apply elem_of_grouped.
Qed.

Lemma checkValid_accepts (s : TxSetFrame) :
  hash (getLastClosedLedgerHeader (getLedgerManager app))
  = mPreviousLedgerHash s ->
  size (mTransactions s)
  <= maxTxSetSize (header (getLastClosedLedgerHeader (getLedgerManager app))) ->
  StronglySorted (fun a b => (getFullHash a <= getFullHash b)%N)
                 (mTransactions s) ->
  (forall A, accountOk app (mTransactions s) A) ->
  checkValid app s = true.
Proof.
  intros Hh Hsz Hs Hok. unfold checkValid.
  rewrite decide_False by (intros Hn; by apply Hn).
  rewrite decide_False by lia. by rewrite checkOrTrim_clean.
Qed.

(** X15. [checkValid] accepts a set exactly when its parent hash is the hash
    of the last closed ledger, it holds no more transactions than that
    ledger's [maxTxSetSize], it is in ascending order of the full hashes,
    and every account is fine: taken in sequence order, each of the
    account's transactions passes [checkValid] against the sequence number
    of the one before it, and the account can pay the fees of those that are
    not whitelisted and keep its minimum balance. *)
Theorem checkValid_iff (s : TxSetFrame) :
  checkValid app s = true
  <-> hash (getLastClosedLedgerHeader (getLedgerManager app))
      = mPreviousLedgerHash s
      /\ size (mTransactions s)
         <= maxTxSetSize (header (getLastClosedLedgerHeader (getLedgerManager app)))
      /\ StronglySorted (fun a b => (getFullHash a <= getFullHash b)%N)
                        (mTransactions s)
      /\ forall A, accountOk app (mTransactions s) A.
Proof.
  unfold checkValid.
  change (fun _ _ (st : unit) => (false, st)) with rejectInvalidTx.
  change (fun _ (st : unit) => (false, st)) with rejectInsufficientBalance.
  destruct (decide (hash _ <> _)) as [Hne|Heq].
  { split; [done|]. by intros [E _]. }
  destruct (decide (size _ > _)) as [Hbig|Hfit].
  { split; [done|]. intros (_ & Hle & _). lia. }
  destruct (decide (hash (getLastClosedLedgerHeader (getLedgerManager app))
                    = mPreviousLedgerHash s)) as [E|E]; [|by destruct Heq].
  split.
  - intros H.
    destruct (checkOrTrim app rejectInvalidTx rejectInsufficientBalance
                (mTransactions s) tt) as [ok []] eqn:Ec.
    simpl in H. subst ok. apply checkOrTrim_reject in Ec as [Hs Hok].
    split; [done|]. split; [lia|]. done.
  - intros (_ & _ & Hs & Hok). by rewrite checkOrTrim_clean.
Qed.

(** X16. [trimInvalid] takes nothing out of a set whose accounts are all
    fine: it leaves the set sorted for the hash and [trimmed] as it was. *)
Theorem trimInvalid_fine_set (s : TxSetFrame)
    (trimmed : list TransactionFramePtr) :
  (forall A, accountOk app (mTransactions (sortForHash s)) A) ->
  trimInvalid app s trimmed = (sortForHash s, trimmed).
Proof.
  intros Hok. unfold trimInvalid. rewrite checkOrTrim_clean; [done| |done].
  apply sortForHash_sorted.
Qed.
End CheckValid.

(** ** [trimInvalid]: what is taken out *)

Lemma elem_of_concat_map {A B} (g : B -> list A) (l : list B) x :
  x ∈ concat (map g l) <-> exists e, e ∈ l /\ x ∈ g e.
Proof.
  induction l as [|e l IH]; simpl.
  - split; [by intros H; inv H|]. intros (e & He & _). by inv He.
  - rewrite elem_of_app, IH. split.
    + intros [H|(e' & He' & H)]; [exists e; split; [left|done]|].
      exists e'. split; [by right|done].
    + intros (e' & He' & H). apply elem_of_cons in He' as [->|He']; [by left|].
      right. eauto.
Qed.

Lemma failedTxs_subset app lastSeq item tx :
  tx ∈ failedTxs app lastSeq item -> tx ∈ item.
Proof.
  revert lastSeq. induction item as [|x item IH]; intros lastSeq H; [done|].
  simpl in H. destruct (txCheckValid x app lastSeq).
  - right. by eapply IH.
  - apply elem_of_cons in H as [->|H]; [left|right; by eapply IH].
Qed.

Lemma passed_or_failed app lastSeq item tx :
  tx ∈ item <-> tx ∈ passedTxs app lastSeq item \/ tx ∈ failedTxs app lastSeq item.
Proof.
  revert lastSeq. induction item as [|x item IH]; intros lastSeq; simpl.
  - split; [by intros H; inv H|]. by intros [H|H]; inv H.
  - destruct (txCheckValid x app lastSeq).
    + rewrite !elem_of_cons, (IH (getSeqNum x)). tauto.
    + rewrite !elem_of_cons, (IH lastSeq). tauto.
Qed.

Lemma passed_not_failed app lastSeq item tx :
  NoDup item -> tx ∈ passedTxs app lastSeq item ->
  tx ∉ failedTxs app lastSeq item.
Proof.
  revert lastSeq. induction item as [|x item IH]; intros lastSeq Hnd Hp Hf;
    [by inv Hp|].
  apply NoDup_cons in Hnd as [Hx Hnd]. simpl in *.
  destruct (txCheckValid x app lastSeq).
  - apply elem_of_cons in Hp as [->|Hp].
    + by apply failedTxs_subset in Hf.
    + by apply (IH _ Hnd Hp).
  - apply elem_of_cons in Hf as [->|Hf].
    + by apply passedTxs_subset in Hp.
    + by apply (IH _ Hnd Hp).
Qed.

Lemma shortItem_short app item :
  foundShort app item -> shortItem app item = item.
Proof.
  intros (t & El & Hs). unfold shortItem. rewrite El. by rewrite decide_True.
Qed.

Lemma shortItem_not_short app item :
  ~ foundShort app item -> shortItem app item = [].
Proof.
  intros Hn. unfold shortItem. destruct (last _) as [t|] eqn:El; [|done].
  case_decide; [|done]. destruct Hn. by exists t.
Qed.

Lemma elem_of_trimmedOf app item tx :
  tx ∈ trimmedOf app item
  <-> tx ∈ failedTxs app 0%N item \/ (foundShort app item /\ tx ∈ item).
Proof.
  unfold trimmedOf. rewrite elem_of_app.
  destruct (decide (foundShort app item)) as [Hs|Hs].
  - rewrite shortItem_short by done. tauto.
  - rewrite shortItem_not_short by done. split; [|tauto].
    intros [H|H]; [by left|by inv H].
Qed.

Lemma trimmedOf_subset app item tx : tx ∈ trimmedOf app item -> tx ∈ item.
Proof.
  rewrite elem_of_trimmedOf. intros [H|[_ H]]; [|done].
  by eapply failedTxs_subset.
Qed.

Lemma foldl_trimOne st (gone : list TransactionFramePtr) :
  foldl trimOne st gone
  = (foldl (fun s tx => removeTx tx s) (fst st) gone, snd st ++ gone).
Proof.
  revert st. induction gone as [|tx gone IH]; intros [s t]; simpl.
  - by rewrite app_nil_r.
  - rewrite IH. simpl. by rewrite <- app_assoc.
Qed.

Section TrimExact.
Context {P : Platform}.
Variable app : Application.

Lemma scanAccount_trim_eq item lastTx lastSeq totFee st :
  scanAccount app trimInvalidTx item lastTx lastSeq totFee st
  = (Some (match last (passedTxs app lastSeq item) with
           | Some t => Some t
           | None => lastTx
           end,
           totFee + nonWhitelistedFees app (passedTxs app lastSeq item)),
     foldl trimOne st (failedTxs app lastSeq item)).
Proof.
  revert lastTx lastSeq totFee st.
  induction item as [|tx item IH]; intros lastTx lastSeq totFee st.
  - simpl. do 3 f_equal. lia.
  - simpl. destruct (txCheckValid tx app lastSeq).
    + rewrite IH, last_cons_match.
      destruct (last _); simpl; do 3 f_equal; lia.
    + by rewrite IH.
Qed.

Lemma checkAccount_trim_eq item st :
  checkAccount app trimInvalidTx trimInsufficientBalance item st
  = (true, foldl trimOne st (trimmedOf app (std_sort SeqSorter item))).
Proof.
  unfold checkAccount, trimmedOf, shortItem.
  rewrite scanAccount_trim_eq, foldl_app, Z.add_0_l.
  destruct (last _) as [t|]; [|done]. by case_decide.
Qed.

Lemma forAccounts_trim_eq entries st :
  forAccounts app trimInvalidTx trimInsufficientBalance entries st
  = (true, foldl trimOne st
             (concat (map (fun e => trimmedOf app (std_sort SeqSorter (snd e)))
                          entries))).
Proof.
  revert st. induction entries as [|[k item] entries IH]; intros st; [done|].
  simpl. by rewrite checkAccount_trim_eq, IH, foldl_app.
Qed.

Lemma trimInvalid_unfold s trimmed :
  trimInvalid app s trimmed
  = (foldl (fun s tx => removeTx tx s) (sortForHash s)
           (trimmedOfSet app (mTransactions (sortForHash s))),
     trimmed ++ trimmedOfSet app (mTransactions (sortForHash s))).
Proof.
  unfold trimInvalid, checkOrTrim.
  rewrite groupByAccount_hash_sorted by apply sortForHash_sorted.
  by rewrite forAccounts_trim_eq, foldl_trimOne.
Qed.

Lemma elem_of_trimmedOfSet txs tx :
  tx ∈ trimmedOfSet app txs
  <-> tx ∈ trimmedOf app
             (std_sort SeqSorter (filter (fromAccount (getSourceID tx)) txs)).
Proof.
  unfold trimmedOfSet. rewrite elem_of_concat_map. split.
  - intros ([k v] & He & Hin). apply elem_of_grouped in He as [-> _].
    simpl in Hin. pose proof (trimmedOf_subset _ _ _ Hin) as Hin'.
    rewrite std_sort_perm in Hin' by apply SeqSorter_swo.
    apply list_elem_of_filter in Hin' as [<- _]. done.
  - intros Hin. exists (getSourceID tx, filter (fromAccount (getSourceID tx)) txs).
    split; [|done]. apply elem_of_grouped. split; [done|].
    apply trimmedOf_subset in Hin.
    rewrite std_sort_perm in Hin by apply SeqSorter_swo.
    intros E. rewrite E in Hin. by inv Hin.
Qed.

(** X17. [trimInvalid] appends to [trimmed] exactly what it takes out of the
    set, in the order it takes it out.  A transaction is taken out when, in
    the scan of its account in sequence order, it fails [checkValid], or
    when the balance of its account is found short; nothing else is.  What
    is left is a subsequence of the set in hash order; the parent hash is
    kept and the valid flag is cleared. *)
Theorem trimInvalid_exact (s : TxSetFrame) (trimmed : list TransactionFramePtr) :
  let sorted := std_sort HashTxSorter (mTransactions s) in
  let itemOf tx :=
    std_sort SeqSorter (filter (fromAccount (getSourceID tx)) sorted) in
  exists gone,
    snd (trimInvalid app s trimmed) = trimmed ++ gone
    /\ mTransactions (fst (trimInvalid app s trimmed))
       = foldl (fun v tx => erase_first tx v) sorted gone
    /\ (forall tx, tx ∈ gone <->
          tx ∈ failedTxs app 0%N (itemOf tx)
          \/ (foundShort app (itemOf tx) /\ tx ∈ mTransactions s))
    /\ mTransactions (fst (trimInvalid app s trimmed)) `sublist_of` sorted
    /\ mPreviousLedgerHash (fst (trimInvalid app s trimmed))
       = mPreviousLedgerHash s
    /\ mHashIsValid (fst (trimInvalid app s trimmed)) = false.
Proof.
  intros sorted itemOf. rewrite trimInvalid_unfold. simpl. fold sorted.
  exists (trimmedOfSet app sorted). split; [done|].
  split; [by rewrite removeTx_foldl_transactions|].
  split; [|split; [|split]].
  - intros tx. rewrite elem_of_trimmedOfSet, elem_of_trimmedOf. fold (itemOf tx).
    split; (intros [H|[Hs H]]; [by left|right; split; [done|]]).
    + unfold itemOf in H. rewrite std_sort_perm in H by apply SeqSorter_swo.
      apply list_elem_of_filter in H as [_ H]. unfold sorted in H.
      by rewrite std_sort_perm in H by apply HashTxSorter_swo.
    + unfold itemOf. rewrite std_sort_perm by apply SeqSorter_swo.
      apply list_elem_of_filter. split; [done|]. unfold sorted.
      by rewrite std_sort_perm by apply HashTxSorter_swo.
  - rewrite removeTx_foldl_transactions. apply erase_first_foldl_sublist.
  - apply (foldl_removeTx_frame _ (sortForHash s)).
  - destruct (trimmedOfSet app sorted) as [|tx gone] using rev_ind; [done|].
    by rewrite foldl_app.
Qed.
End TrimExact.

(** ** [trimInvalid]: what is left *)

Lemma filter_ext_elem {A} (Q1 Q2 : A -> Prop) `{!forall x, Decision (Q1 x)}
    `{!forall x, Decision (Q2 x)} (l : list A) :
  (forall x, x ∈ l -> (Q1 x <-> Q2 x)) -> filter Q1 l = filter Q2 l.
Proof.
  induction l as [|x l IH]; intros Hext; [done|].
  rewrite !filter_cons.
  rewrite IH by (intros y Hy; apply Hext; by right).
  destruct (decide (Q1 x)) as [H1|H1], (decide (Q2 x)) as [H2|H2]; try done.
  - destruct H2. apply Hext; [left|done].
  - destruct H1. apply Hext; [left|done].
Qed.

Lemma erase_first_NoDup x (l : list TransactionFramePtr) :
  NoDup l -> erase_first x l = filter (fun y => y <> x) l.
Proof.
  induction l as [|a l IH]; intros Hnd; [done|].
  apply NoDup_cons in Hnd as [Ha Hnd]. simpl. rewrite filter_cons.
  destruct (decide (a = x)) as [->|Hne].
  - rewrite decide_False by (intros Hn; by apply Hn).
    symmetry. apply filter_all. intros y Hy ->. done.
  - rewrite decide_True by done. f_equal. by apply IH.
Qed.

Lemma foldl_erase_first_NoDup (gone l : list TransactionFramePtr) :
  NoDup l ->
  foldl (fun v tx => erase_first tx v) l gone = filter (fun y => y ∉ gone) l.
Proof.
  revert l. induction gone as [|x gone IH]; intros l Hnd; simpl.
  - symmetry. apply filter_all. intros y _ Hy. by inv Hy.
  - rewrite erase_first_NoDup by done.
    rewrite IH by (by apply NoDup_filter).
    rewrite list_filter_filter. apply list_filter_iff.
    intros y. rewrite not_elem_of_cons. tauto.
Qed.

Lemma passed_filter app lastSeq (item : list TransactionFramePtr) :
  NoDup item ->
  filter (fun y => y ∉ failedTxs app lastSeq item) item
  = passedTxs app lastSeq item.
Proof.
  revert lastSeq. induction item as [|x item IH]; intros lastSeq Hnd; [done|].
  apply NoDup_cons in Hnd as [Hx Hnd]. simpl.
  destruct (txCheckValid x app lastSeq).
  - rewrite filter_cons, decide_True
      by (intros Hf; by apply failedTxs_subset in Hf).
    f_equal. by apply IH.
  - rewrite filter_cons, decide_False by (intros Hn; apply Hn; left).
    rewrite <- (IH lastSeq Hnd). apply filter_ext_elem.
    intros y Hy. rewrite not_elem_of_cons. split; [tauto|].
    intros H. split; [|done]. by intros ->.
Qed.

Lemma passedTxs_idem app lastSeq item :
  passedTxs app lastSeq (passedTxs app lastSeq item) = passedTxs app lastSeq item
  /\ failedTxs app lastSeq (passedTxs app lastSeq item) = [].
Proof.
  revert lastSeq. induction item as [|x item IH]; intros lastSeq; [done|].
  simpl. destruct (txCheckValid x app lastSeq) eqn:E; [|apply IH].
  simpl. rewrite E. destruct (IH (getSeqNum x)) as [-> ->]. done.
Qed.

Lemma itemOk_nil app : itemOk app [].
Proof. split; [done|]. by intros (t & E & _). Qed.

Section TrimKept.
Context {P : Platform}.
Variable app : Application.

(** X18. A transaction that fails [checkValid] in the scan of an account
    whose balance is then found short is appended to [trimmed] twice: once
    when it fails, once more with all the transactions of the account. *)
Theorem trimInvalid_trims_twice (s : TxSetFrame)
    (trimmed : list TransactionFramePtr) (tx : TransactionFramePtr) :
  let item :=
    std_sort SeqSorter
      (filter (fromAccount (getSourceID tx))
              (std_sort HashTxSorter (mTransactions s))) in
  tx ∈ failedTxs app 0%N item ->
  foundShort app item ->
  exists l1 l2 l3,
    snd (trimInvalid app s trimmed) = trimmed ++ l1 ++ tx :: l2 ++ tx :: l3.
Proof.
  intros item Hf Hs. rewrite trimInvalid_unfold. simpl.
  unfold trimmedOfSet.
  set (sorted := std_sort HashTxSorter (mTransactions s)) in *.
  assert (Hin : tx ∈ item) by (by eapply failedTxs_subset).
  assert (He : (getSourceID tx, filter (fromAccount (getSourceID tx)) sorted)
               ∈ inKeyOrder (foldl accountTxMap_push_back ∅ sorted)).
  { apply elem_of_grouped. split; [done|]. intros E.
    unfold item in Hin. rewrite std_sort_perm, E in Hin by apply SeqSorter_swo.
    by inv Hin. }
  apply list_elem_of_split in He as (e1 & e2 & ->).
  rewrite map_app, concat_app. simpl. fold item.
  unfold trimmedOf. rewrite (shortItem_short _ _ Hs).
  apply list_elem_of_split in Hf as (a & b & ->).
  apply list_elem_of_split in Hin as (c & d & Hitem).
  set (g := fun e : AccountID * list TransactionFramePtr =>
              failedTxs app 0%N (std_sort SeqSorter (snd e))
              ++ shortItem app (std_sort SeqSorter (snd e))).
  exists (concat (map g e1) ++ a), (b ++ c), (d ++ concat (map g e2)).
  f_equal. rewrite Hitem. repeat (rewrite <- app_assoc; simpl). done.
Qed.

(** X19. When the set holds no transaction twice, what [trimInvalid] leaves
    is exactly the transactions that pass [checkValid] in the scan of their
    account in sequence order, of the accounts whose balance is not found
    short. *)
Theorem trimInvalid_kept (s : TxSetFrame)
    (trimmed : list TransactionFramePtr) (tx : TransactionFramePtr) :
  let item :=
    std_sort SeqSorter
      (filter (fromAccount (getSourceID tx))
              (std_sort HashTxSorter (mTransactions s))) in
  NoDup (mTransactions s) ->
  tx ∈ mTransactions (fst (trimInvalid app s trimmed))
  <-> tx ∈ mTransactions s
      /\ tx ∈ passedTxs app 0%N item
      /\ ~ foundShort app item.
Proof.
  intros item Hnd. rewrite trimInvalid_unfold. simpl.
  rewrite removeTx_foldl_transactions. simpl.
  set (sorted := std_sort HashTxSorter (mTransactions s)) in *.
  assert (Hp : sorted ≡ₚ mTransactions s) by apply std_sort_perm, HashTxSorter_swo.
  assert (Hitem : item ≡ₚ filter (fromAccount (getSourceID tx)) sorted)
    by apply std_sort_perm, SeqSorter_swo.
  rewrite foldl_erase_first_NoDup by (by rewrite Hp).
  assert (Hmem : tx ∈ sorted <-> tx ∈ mTransactions s) by (by rewrite Hp).
  rewrite list_elem_of_filter, elem_of_trimmedOfSet, elem_of_trimmedOf, Hmem.
  fold item.
  split.
  - intros [Hn Hin]. split; [done|].
    assert (Hi : tx ∈ item).
    { rewrite Hitem. apply list_elem_of_filter. by rewrite Hmem. }
    split; [|tauto].
    apply (passed_or_failed app 0%N) in Hi as [Hi|Hi]; [done|]. tauto.
  - intros (Hin & Hpass & Hs). split; [|done].
    intros [Hf|[Hs' _]]; [|done].
    revert Hf. apply passed_not_failed; [|done].
    rewrite Hitem. apply NoDup_filter. by rewrite Hp.
Qed.

(** X20. What [trimInvalid] leaves passes [checkValid], when the parent
    hash of the set is the hash of the last closed ledger, the set holds no
    more than that ledger's [maxTxSetSize], and no account has two
    transactions with the same sequence number. *)
Theorem trimInvalid_then_checkValid (s : TxSetFrame)
    (trimmed : list TransactionFramePtr) :
  hash (getLastClosedLedgerHeader (getLedgerManager app))
  = mPreviousLedgerHash s ->
  size (mTransactions s)
  <= maxTxSetSize (header (getLastClosedLedgerHeader (getLedgerManager app))) ->
  NoDup (map (fun tx => (getSourceID tx, getSeqNum tx)) (mTransactions s)) ->
  checkValid app (fst (trimInvalid app s trimmed)) = true.
Proof.
  intros Hh Hsz Hkey.
  set (sorted := std_sort HashTxSorter (mTransactions s)).
  assert (Hp : sorted ≡ₚ mTransactions s) by apply std_sort_perm, HashTxSorter_swo.
  assert (Hnd : NoDup sorted).
  { rewrite Hp. by apply NoDup_fmap_1 in Hkey. }
  set (gone := trimmedOfSet app sorted).
  assert (HR : mTransactions (fst (trimInvalid app s trimmed))
               = filter (fun y => y ∉ gone) sorted).
  { rewrite trimInvalid_unfold. simpl. rewrite removeTx_foldl_transactions.
    simpl. by apply foldl_erase_first_NoDup. }
  assert (Hsub : mTransactions (fst (trimInvalid app s trimmed))
                 `sublist_of` sorted).
  { rewrite HR. apply sublist_filter. }
  apply checkValid_accepts.
  - rewrite trimInvalid_unfold. simpl.
    by rewrite (proj1 (foldl_removeTx_frame _ (sortForHash s))).
  - apply sublist_length in Hsub. apply Permutation_length in Hp.
    unfold size in *. lia.
  - eapply StronglySorted_sublist; [exact Hsub|]. apply (sortForHash_sorted s).
  - intros A. unfold accountOk. rewrite HR.
    set (item := std_sort SeqSorter (filter (fromAccount A) sorted)).
    set (T := trimmedOf app item).
    assert (Hitem : item ≡ₚ filter (fromAccount A) sorted)
      by apply std_sort_perm, SeqSorter_swo.
    assert (HF : filter (fromAccount A) (filter (fun y => y ∉ gone) sorted)
                 = filter (fun y => y ∉ T) (filter (fromAccount A) sorted)).
    { rewrite !list_filter_filter. apply list_filter_iff. intros y.
      split; intros [H1 H2].
      - split; [|done]. intros Hy. apply H2. apply elem_of_trimmedOfSet.
        unfold fromAccount in H1. by rewrite H1.
      - split; [done|]. intros Hy. apply H1. apply elem_of_trimmedOfSet in Hy.
        unfold fromAccount in H2. by rewrite H2 in Hy. }
    rewrite HF.
    assert (Hsort : std_sort SeqSorter
                      (filter (fun y => y ∉ T) (filter (fromAccount A) sorted))
                    = filter (fun y => y ∉ T) item).
    { apply (StronglySorted_unique_strong (notAfter SeqSorter)).
      - intros x1 x2 H1 H2 H12 H21.
        rewrite std_sort_perm in H1 by apply SeqSorter_swo.
        apply list_elem_of_filter in H1 as [_ H1].
        apply list_elem_of_filter in H2 as [_ H2]. rewrite Hitem in H2.
        apply list_elem_of_filter in H1 as [HA1 H1].
        apply list_elem_of_filter in H2 as [HA2 H2].
        rewrite Hp in H1, H2.
        apply notAfter_SeqSorter in H12, H21.
        apply (fmap_inj_on_NoDup _ _ _ _ Hkey H1 H2).
        unfold fromAccount in *. f_equal; [congruence|lia].
      - apply std_sort_sorted, SeqSorter_swo.
      - apply StronglySorted_filter, std_sort_sorted, SeqSorter_swo.
      - rewrite std_sort_perm by apply SeqSorter_swo. by rewrite Hitem. }
    rewrite Hsort.
    destruct (decide (foundShort app item)) as [Hs|Hs].
    + rewrite filter_none; [apply itemOk_nil|].
      intros y Hy Hn. apply Hn. apply elem_of_trimmedOf. by right.
    + unfold T, trimmedOf. rewrite (shortItem_not_short _ _ Hs), app_nil_r.
      rewrite passed_filter
        by (rewrite Hitem; by apply NoDup_filter).
      destruct (passedTxs_idem app 0%N item) as [Hi Hf].
      split; [done|]. unfold foundShort in *. by rewrite Hi.
Qed.
End TrimKept.

(** ** The comparators, the fee map and the cache *)

Lemma Double_ltb_irrefl a : Double.ltb a a = false.
Proof. destruct a; try done. simpl. apply Qlt_bool_ge, Qle_refl. Qed.

Lemma Double_ltb_NaN_r a : Double.ltb a Double.NaN = false.
Proof. by destruct a. Qed.

Lemma Double_ltb_trans a b c :
  Double.ltb a b = true -> Double.ltb b c = true -> Double.ltb a c = true.
Proof.
  destruct a, b, c; simpl; try done. rewrite !Qlt_bool_lt. apply Qlt_trans.
Qed.

Lemma Double_incomparable_trans a b c :
  a <> Double.NaN -> b <> Double.NaN -> c <> Double.NaN ->
  Double.ltb a b = false -> Double.ltb b a = false ->
  Double.ltb b c = false -> Double.ltb c b = false ->
  Double.ltb a c = false /\ Double.ltb c a = false.
Proof.
  intros Ha Hb Hc. destruct a, b, c; simpl; try done.
  rewrite !Qlt_bool_ge. intros Hab Hba Hbc Hcb.
  split; by eapply Qle_trans.
Qed.

Lemma Double_leb_total a b :
  a <> Double.NaN -> b <> Double.NaN ->
  Double.ltb b a = false -> Double.leb a b = true.
Proof.
  intros Ha Hb. unfold Double.leb. destruct a, b; simpl; try done.
  rewrite Qlt_bool_ge. intros Hle.
  apply Qle_lt_or_eq in Hle as [Hlt|Heq].
  - apply Qlt_bool_lt in Hlt. by rewrite Hlt.
  - apply Qeq_bool_iff in Heq. rewrite Heq. apply orb_true_r.
Qed.

(** Greater key first, for keys that are not NaN. *)
Lemma swo_by_double_key_desc {A} (key : A -> Double.t) :
  (forall a, key a <> Double.NaN) ->
  StrictWeakOrder (fun a b => Double.ltb (key b) (key a)).
Proof.
  intros Hn. split.
  - intros a. apply Double_ltb_irrefl.
  - intros a b c Hab Hbc. by eapply Double_ltb_trans.
  - intros a b c Hab Hba Hbc Hcb.
    destruct (Double_incomparable_trans (key a) (key b) (key c)) as [? ?];
      done.
Qed.

Lemma Double_byFee_distinct (fee1 fee2 : Double.t) (rest : bool) :
  fee1 <> Double.NaN -> fee2 <> Double.NaN ->
  (if Double.eqb fee1 fee2 then rest else Double.ltb fee2 fee1)
  = Double.ltb fee2 fee1 || negb (Double.ltb fee1 fee2) && rest.
Proof.
  intros H1 H2. destruct fee1, fee2; simpl; try done.
  apply byFee_distinct.
Qed.

(** On fee ratios none of which is NaN, [SurgeSorter] on doubles is a
    lexicographic order. *)
Lemma Double_SurgeSorter_lex afm w wl a b :
  (w = false -> forall id, Double.feeAt afm id <> Double.NaN) ->
  Double.SurgeSorter afm w wl a b
  = lexCmp (fun a b => (holderRank wl a <? holderRank wl b)%N)
      (if w
       then lexCmp (fun a b => (getSourceID a <? getSourceID b)%N) SeqSorter
       else lexCmp (fun a b => Double.ltb (Double.feeAt afm (getSourceID b))
                                          (Double.feeAt afm (getSourceID a)))
              (lexCmp (fun a b => (getSourceID a <? getSourceID b)%N) SeqSorter))
      a b.
Proof.
  intros Hn. unfold Double.SurgeSorter, lexCmp, holderRank, SeqSorter.
  destruct a as [addrA srcA seqA feeA hashA envA],
           b as [addrB srcB seqB feeB hashB envB].
  destruct w; simpl; (destruct (decide (srcA = srcB)) as [<-|Hne];
    [rewrite ?N.ltb_irrefl; rewrite ?Double_ltb_irrefl; done|]).
  - rewrite (bySource_distinct _ _ seqA seqB Hne).
    destruct wl as [wlID|]; [|done].
    destruct (decide (srcA = wlID)), (decide (srcB = wlID)); simpl;
      [congruence|done..].
  - rewrite (bySource_distinct _ _ seqA seqB Hne).
    rewrite <- Double_byFee_distinct by (by apply Hn).
    destruct wl as [wlID|]; [|done].
    destruct (decide (srcA = wlID)), (decide (srcB = wlID)); simpl;
      [congruence|done..].
Qed.

Lemma Double_SurgeSorter_swo afm w wl :
  (w = false -> forall id, afm !! id <> Some Double.NaN) ->
  StrictWeakOrder (Double.SurgeSorter afm w wl).
Proof.
  intros Hn.
  assert (Hfee : w = false -> forall id, Double.feeAt afm id <> Double.NaN).
  { intros Hw id. unfold Double.feeAt. specialize (Hn Hw id).
    destruct (afm !! id) as [d|]; simpl; [congruence|done]. }
  eapply swo_ext;
    [intros a b; symmetry; apply (Double_SurgeSorter_lex afm w wl a b Hfee)|].
  apply lexCmp_swo; [apply (swo_by_key (holderRank wl))|].
  assert (StrictWeakOrder
            (lexCmp (fun a b => (getSourceID a <? getSourceID b)%N) SeqSorter))
    by (apply lexCmp_swo; [apply (swo_by_key getSourceID)|apply SeqSorter_swo]).
  destruct w; [done|].
  apply lexCmp_swo; [|done].
  apply (swo_by_double_key_desc
           (fun tx => Double.feeAt afm (getSourceID tx))).
  intros a. by apply Hfee.
Qed.

Lemma Double_feeAt_numbers (afm : gmap AccountID Q) id :
  Double.feeAt (Double.Num <$> afm) id = Double.Num (feeAt afm id).
Proof.
  unfold Double.feeAt, feeAt. rewrite lookup_fmap. by destruct (afm !! id).
Qed.

(** X21. Every comparator this file hands to [std::sort] is a strict weak
    ordering -- irreflexive, transitive, and with a transitive
    incomparability -- as long as no fee ratio it reads is NaN.
    [HashTxSorter], [SeqSorter] and [ApplyTxSorter] read none, and so does
    [SurgeSorter] for the whitelisted transactions.  For the others
    [SurgeSorter] compares the doubles of the fee map: it is a strict weak
    ordering when no entry is NaN, and with a NaN entry it is not, an
    account at NaN being incomparable to one at 5 and to one at 1.  On a map
    of rational numbers it is the comparator the model of
    [surgePricingFilter] sorts with. *)
Theorem comparators_strict_weak_order :
  StrictWeakOrder HashTxSorter
  /\ StrictWeakOrder SeqSorter
  /\ (forall h, StrictWeakOrder (ApplyTxSorter h))
  /\ (forall afm wl, StrictWeakOrder (Double.SurgeSorter afm true wl))
  /\ (forall afm wl,
        (forall id, afm !! id <> Some Double.NaN) ->
        StrictWeakOrder (Double.SurgeSorter afm false wl))
  /\ ~ StrictWeakOrder (Double.SurgeSorter nanFeeMap false None)
  /\ (forall afm w wl a b,
        Double.SurgeSorter (Double.Num <$> afm) w wl a b
        = SurgeSorter afm w wl a b).
Proof.
  split; [apply HashTxSorter_swo|]. split; [apply SeqSorter_swo|].
  split; [apply ApplyTxSorter_swo|].
  split; [intros; by apply Double_SurgeSorter_swo|].
  split; [intros afm wl Hn; by apply Double_SurgeSorter_swo|].
  split.
  - intros Hswo.
    destruct (swo_incomp _ Hswo txA1 txB5 txC1) as [H _];
      [by vm_compute..|].
    vm_compute in H. discriminate H.
  - intros afm w wl a b. unfold Double.SurgeSorter, SurgeSorter.
    by rewrite !Double_feeAt_numbers.
Qed.

Lemma Double_feeMapStep_other ratio m tx A :
  getSourceID tx <> A -> Double.feeMapStep ratio m tx !! A = m !! A.
Proof.
  intros Hne. unfold Double.feeMapStep.
  repeat case_match; by rewrite ?lookup_insert_ne.
Qed.

(** What [accountFeeMap] holds for [A] after the transactions [p], when none
    of [A]'s fee ratios compares equal to zero: nothing before [A]'s first
    transaction, afterwards one of the ratios seen, than which none is
    less. *)
Lemma Double_accountFeeMapOf_inv ratio (p : list TransactionFramePtr) A :
  (forall tx, tx ∈ p -> getSourceID tx = A ->
              Double.eqb (ratio tx) Double.zero = false) ->
  match filter (fromAccount A) p with
  | [] => Double.accountFeeMapOf ratio p !! A = None
  | _ :: _ =>
      exists tx, tx ∈ p /\ getSourceID tx = A
        /\ Double.accountFeeMapOf ratio p !! A = Some (ratio tx)
        /\ forall tx', tx' ∈ p -> getSourceID tx' = A ->
             Double.ltb (ratio tx') (ratio tx) = false
  end.
Proof.
  unfold Double.accountFeeMapOf.
  induction p as [|t p IH] using rev_ind; intros Hnz; [done|].
  rewrite foldl_app, filter_snoc_account. simpl.
  assert (Hnz' : forall tx, tx ∈ p -> getSourceID tx = A ->
                   Double.eqb (ratio tx) Double.zero = false).
  { intros tx Hin. apply Hnz. apply elem_of_app. by left. }
  specialize (IH Hnz'). set (m := foldl (Double.feeMapStep ratio) ∅ p) in *.
  destruct (decide (getSourceID t = A)) as [HA|HA].
  - assert (Hin : t ∈ p ++ [t]) by (apply elem_of_app; right; by left).
    destruct (filter (fromAccount A) p) as [|x l] eqn:Hf; simpl.
    + exists t. split; [done|]. split; [done|]. split.
      * unfold Double.feeMapStep, Double.feeAt. rewrite HA, IH. simpl.
        by rewrite lookup_insert_eq.
      * intros tx' Hin' HA'. apply elem_of_app in Hin' as [Hin'|Hin'].
        -- assert (tx' ∈ filter (fromAccount A) p) as Hx
             by (by apply list_elem_of_filter).
           rewrite Hf in Hx. by inv Hx.
        -- apply list_elem_of_singleton in Hin'. subst.
           apply Double_ltb_irrefl.
    + destruct IH as (t0 & Hin0 & HA0 & Hm & Hmin).
      assert (Hnow : Double.feeAt m (getSourceID t) = ratio t0)
        by (unfold Double.feeAt; by rewrite HA, Hm).
      unfold Double.feeMapStep. rewrite Hnow.
      rewrite (Hnz' t0 Hin0 HA0).
      destruct (Double.ltb (ratio t) (ratio t0)) eqn:Hlt.
      * exists t.
        split; [done|]. split; [done|]. split; [by rewrite HA, lookup_insert_eq|].
        intros tx' Hin' HA'. apply elem_of_app in Hin' as [Hin'|Hin'].
        -- destruct (Double.ltb (ratio tx') (ratio t)) eqn:Hlt'; [|done].
           rewrite <- (Hmin tx' Hin' HA'). symmetry.
           by eapply Double_ltb_trans.
        -- apply list_elem_of_singleton in Hin'. subst.
           apply Double_ltb_irrefl.
      * exists t0.
        split; [apply elem_of_app; by left|]. split; [done|]. split; [done|].
        intros tx' Hin' HA'. apply elem_of_app in Hin' as [Hin'|Hin'].
        -- by apply Hmin.
        -- apply list_elem_of_singleton in Hin'. by subst.
  - rewrite app_nil_r, Double_feeMapStep_other by done.
    destruct (filter (fromAccount A) p) as [|x l]; [done|].
    destruct IH as (t0 & Hin0 & HA0 & Hm & Hmin).
    exists t0. split; [apply elem_of_app; by left|].
    split; [done|]. split; [done|].
    intros tx' Hin' HA'. apply elem_of_app in Hin' as [Hin'|Hin'].
    + by apply Hmin.
    + apply list_elem_of_singleton in Hin'. by subst.
Qed.

(** An entry that is NaN is never replaced. *)
Lemma Double_feeMap_NaN_stays ratio (p : list TransactionFramePtr) m A :
  m !! A = Some Double.NaN ->
  foldl (Double.feeMapStep ratio) m p !! A = Some Double.NaN.
Proof.
  revert m. induction p as [|x p IH]; intros m Hm; [done|]. simpl.
  apply IH. destruct (decide (getSourceID x = A)) as [HA|HA].
  - unfold Double.feeMapStep, Double.feeAt. rewrite HA, Hm. simpl.
    by rewrite Double_ltb_NaN_r.
  - by rewrite Double_feeMapStep_other.
Qed.

Lemma Double_feeMapStep_numbers lm (m : gmap AccountID Q) tx :
  Double.feeMapStep (fun tx => Double.Num (getFeeRatio tx lm))
    (Double.Num <$> m) tx
  = Double.Num <$> feeMapStep lm m tx.
Proof.
  unfold Double.feeMapStep, feeMapStep. rewrite Double_feeAt_numbers. simpl.
  destruct (Qeq_bool (feeAt m (getSourceID tx)) 0); [by rewrite fmap_insert|].
  destruct (Qlt_bool _ _); [by rewrite fmap_insert|done].
Qed.

(** X22. The fee ratio [surgePricingFilter] files under an account is the
    least fee ratio of the account's transactions, when none of these ratios
    is NaN or compares equal to zero.  A NaN ratio filed first for an
    account is never replaced: the entry of the account stays NaN whatever
    follows.  On fee ratios that are rational numbers the loop is the one
    the model of [surgePricingFilter] runs. *)
Theorem accountFeeMap_minimum
    (getFeeRatioOf : TransactionFramePtr -> Double.t)
    (txs : list TransactionFramePtr) :
  (forall A t,
     (forall tx, tx ∈ txs -> getSourceID tx = A ->
                 getFeeRatioOf tx <> Double.NaN
                 /\ Double.eqb (getFeeRatioOf tx) Double.zero = false) ->
     t ∈ txs -> getSourceID t = A ->
     exists tx,
       tx ∈ txs /\ getSourceID tx = A
       /\ Double.feeAt (Double.accountFeeMapOf getFeeRatioOf txs) A
          = getFeeRatioOf tx
       /\ forall tx', tx' ∈ txs -> getSourceID tx' = A ->
            Double.leb (getFeeRatioOf tx) (getFeeRatioOf tx') = true)
  /\ (forall first,
        getFeeRatioOf first = Double.NaN ->
        Double.feeAt (Double.accountFeeMapOf getFeeRatioOf (first :: txs))
                     (getSourceID first)
        = Double.NaN)
  /\ (forall lm,
        Double.accountFeeMapOf (fun tx => Double.Num (getFeeRatio tx lm)) txs
        = Double.Num <$> accountFeeMapOf lm txs).
Proof.
  split; [|split].
  - intros A t Hok Ht HA.
    pose proof (Double_accountFeeMapOf_inv getFeeRatioOf txs A) as H.
    assert (t ∈ filter (fromAccount A) txs) as Hx
      by (by apply list_elem_of_filter).
    destruct (filter (fromAccount A) txs) as [|x l]; [by inv Hx|].
    destruct H as (t0 & Hin0 & HA0 & Hm & Hmin).
    { intros tx Hin Hsrc. by apply Hok. }
    exists t0. split; [done|]. split; [done|].
    split; [unfold Double.feeAt; by rewrite Hm|].
    intros tx' Hin' HA'. apply Double_leb_total.
    + by apply Hok.
    + by apply Hok.
    + by apply Hmin.
  - intros first Hnan. unfold Double.accountFeeMapOf, Double.feeAt. simpl.
    rewrite (Double_feeMap_NaN_stays _ _ _ (getSourceID first)); [done|].
    unfold Double.feeMapStep, Double.feeAt. rewrite lookup_empty. simpl.
    by rewrite lookup_insert_eq, Hnan.
  - intros lm. unfold Double.accountFeeMapOf, accountFeeMapOf.
    rewrite <- (fmap_empty Double.Num).
    generalize (∅ : gmap AccountID Q).
    induction txs as [|tx l IH]; intros m; [done|]. simpl.
    by rewrite Double_feeMapStep_numbers, IH.
Qed.

Section Cache.
Context {P : Platform}.

(** X23. The cache stays coherent -- when the valid flag is set, [mHash] is
    the digest of the parent hash and the transactions the frame holds now
    -- through everything this file does to a frame: both constructors, the
    assignment of the parent hash, [sortForHash], [removeTx] and
    [trimInvalid] give a coherent frame, [surgePricingFilter] keeps a frame
    coherent, and so do [getContentsHash] and [sortForApply] when the full
    hashes are pairwise distinct. *)
Theorem cacheCoherent_kept (s : TxSetFrame) :
  (forall parent, cacheCoherent (TxSetFrame_new parent))
  /\ (forall make networkID xdrSet,
        cacheCoherent (TxSetFrame_fromWire make networkID xdrSet))
  /\ (forall h, cacheCoherent (previousLedgerHash_assign h s))
  /\ cacheCoherent (sortForHash s)
  /\ (forall tx, cacheCoherent (removeTx tx s))
  /\ (forall app trimmed, cacheCoherent (fst (trimInvalid app s trimmed)))
  /\ (forall lm app,
        cacheCoherent s -> cacheCoherent (surgePricingFilter lm app s))
  /\ (cacheCoherent s -> NoDup (map getFullHash (mTransactions s)) ->
      cacheCoherent (snd (getContentsHash s))
      /\ cacheCoherent (snd (sortForApply s))).
Proof.
  split; [by intros; apply cacheCoherent_invalid|].
  split; [by intros; apply cacheCoherent_invalid|].
  split; [by intros; apply cacheCoherent_invalid|].
  split; [apply sortForHash_coherent|].
  split; [intros; apply removeTx_coherent|].
  split.
  { intros app trimmed. rewrite trimInvalid_unfold. simpl.
    apply foldl_removeTx_frame, sortForHash_coherent. }
  split; [intros lm app; apply surgePricingFilter_frame|].
  intros Hc Hnd. rewrite sortForApply_eq. simpl.
  split; by apply getContentsHash_keeps_coherent.
Qed.

Lemma surgePricingFilter_full lm app s :
  size (mTransactions s) > getMaxTxSetSize lm ->
  0 <= getMaxTxSetSize lm < 2 ^ 64 ->
  0 <= unwhitelistedReserve (getWhitelist app) (getMaxTxSetSize lm)
    <= getMaxTxSetSize lm ->
  size (mTransactions (surgePricingFilter lm app s)) = getMaxTxSetSize lm.
Proof.
  intros Hbig Hmax Hres.
  pose proof (surgePricingFilter_kept lm app s Hbig Hmax Hres) as Hk.
  pose proof (surgeSeats_bounds lm app s Hbig Hres) as (HbW & HbU & _).
  simpl in Hk.
  assert (HW : forall w, length (std_sort (SurgeSorter (accountFeeMapOf lm (mTransactions s)) w
                                   (accountID (getWhitelist app)))
                                 (whitelistedOf app (mTransactions s)))
                         = length (whitelistedOf app (mTransactions s))).
  { intros w. apply Permutation_length, std_sort_perm, SurgeSorter_swo. }
  assert (HU : forall w, length (std_sort (SurgeSorter (accountFeeMapOf lm (mTransactions s)) w
                                   (accountID (getWhitelist app)))
                                 (unwhitelistedOf app (mTransactions s)))
                         = length (unwhitelistedOf app (mTransactions s))).
  { intros w. apply Permutation_length, std_sort_perm, SurgeSorter_swo. }
  unfold size in *.
  rewrite Hk, length_app, !length_take, HW, HU. lia.
Qed.

(** X24. [surgePricingFilter] is idempotent: run on its own result, it takes
    nothing more out.  As for the bound on the size, the whitelist's reserve
    lies between 0 and the maximum. *)
Theorem surgePricingFilter_idempotent (lm : LedgerManager) (app : Application)
    (s : TxSetFrame) :
  0 <= getMaxTxSetSize lm < 2 ^ 64 ->
  0 <= unwhitelistedReserve (getWhitelist app) (getMaxTxSetSize lm)
    <= getMaxTxSetSize lm ->
  surgePricingFilter lm app (surgePricingFilter lm app s)
  = surgePricingFilter lm app s.
Proof.
  intros Hmax Hres.
  destruct (decide (size (mTransactions s) > getMaxTxSetSize lm)) as [Hbig|Hfit].
  - pose proof (surgePricingFilter_full lm app s Hbig Hmax Hres) as Hfull.
    unfold surgePricingFilter at 1. rewrite decide_False by lia. done.
  - assert (E : surgePricingFilter lm app s = s)
      by (unfold surgePricingFilter; by rewrite decide_False).
    by rewrite !E.
Qed.
End Cache.

(** ** The properties above, on the sample data *)

Lemma surgePricingFilter_seats_witness :
  let out :=
    mTransactions (@surgePricingFilter reference_platform sampleLedger sampleApp
                     surgeFrame) in
  size out = getMaxTxSetSize sampleLedger
  /\ size (whitelistedOf sampleApp out)
     = whitelistedSeats sampleLedger sampleApp (mTransactions surgeFrame)
  /\ size (unwhitelistedOf sampleApp out)
     = getMaxTxSetSize sampleLedger
       - whitelistedSeats sampleLedger sampleApp (mTransactions surgeFrame)
  /\ surgeReserve sampleLedger sampleApp (mTransactions surgeFrame)
     <= size (unwhitelistedOf sampleApp out).
Proof.
  apply (@surgePricingFilter_seats reference_platform sampleLedger sampleApp
           surgeFrame).
  - vm_compute. reflexivity.
  - vm_compute. split; [discriminate|reflexivity].
  - vm_compute. split; discriminate.
Defined.


Lemma surgePricingFilter_idempotent_witness :
  @surgePricingFilter reference_platform sampleLedger sampleApp
    (surgePricingFilter sampleLedger sampleApp surgeFrame)
  = surgePricingFilter sampleLedger sampleApp surgeFrame.
Proof.
  apply (@surgePricingFilter_idempotent reference_platform sampleLedger
           sampleApp surgeFrame).
  - vm_compute. split; [discriminate|reflexivity].
  - vm_compute. split; discriminate.
Defined.

Lemma sortForApply_rounds_witness :
  standsBefore txB5 txA2
    (fst (@sortForApply reference_platform (frameOf [txA2; txB5; txA1]))).
Proof.
  apply (@sortForApply_rounds reference_platform (frameOf [txA2; txB5; txA1])
           txB5 txA2 0 1).
  - vm_compute. reflexivity.
  - vm_compute. reflexivity.
  - lia.
Defined.

Lemma sortForApply_round_order_witness :
  standsBefore txB5 txA1
    (fst (@sortForApply reference_platform (frameOf [txA1; txA2; txB5]))).
Proof.
  apply (@sortForApply_round_order reference_platform
           (frameOf [txA1; txA2; txB5]) txB5 txA1 0).
  - vm_compute. reflexivity.
  - vm_compute. reflexivity.
  - vm_compute. reflexivity.
Defined.

Lemma trimInvalid_fine_set_witness :
  @trimInvalid reference_platform sampleApp (frameOf [txA1; txA2]) []
  = (@sortForHash reference_platform (frameOf [txA1; txA2]), []).
Proof.
  apply (@trimInvalid_fine_set reference_platform sampleApp).
  apply (@checkOrTrim_reject reference_platform sampleApp).
  vm_compute. reflexivity.
Defined.

Lemma trimInvalid_trims_twice_witness :
  exists l1 l2 l3,
    snd (@trimInvalid reference_platform sampleApp
           (frameOf [txC1; txC2; txC4]) [])
    = [] ++ l1 ++ txC4 :: l2 ++ txC4 :: l3.
Proof.
  apply (@trimInvalid_trims_twice reference_platform sampleApp
           (frameOf [txC1; txC2; txC4]) [] txC4).
  - apply (bool_decide_unpack _). vm_compute. exact I.
  - apply (bool_decide_unpack _). vm_compute. exact I.
Defined.

Lemma trimInvalid_kept_witness :
  txA1 ∈ mTransactions
           (fst (@trimInvalid reference_platform sampleApp
                   (frameOf [txA1; txA2; txC1; txC2; txC4]) [])).
Proof.
  apply (@trimInvalid_kept reference_platform sampleApp
           (frameOf [txA1; txA2; txC1; txC2; txC4]) [] txA1).
  - apply (bool_decide_unpack _). vm_compute. exact I.
  - split; [|split].
    + apply (bool_decide_unpack _). vm_compute. exact I.
    + apply (bool_decide_unpack _). vm_compute. exact I.
    + apply (bool_decide_unpack _). vm_compute. exact I.
Defined.

Lemma trimInvalid_then_checkValid_witness :
  @checkValid reference_platform sampleApp
    (fst (@trimInvalid reference_platform sampleApp (frameOf [txC1; txC4]) []))
  = true.
Proof.
  apply (@trimInvalid_then_checkValid reference_platform sampleApp).
  - reflexivity.
  - vm_compute. discriminate.
  - apply (bool_decide_unpack _). vm_compute. exact I.
Defined.

Lemma accountFeeMap_minimum_witness :
  exists tx,
    tx ∈ [txA1; txB5; txA1'] /\ getSourceID tx = 10%N
    /\ Double.feeAt (Double.accountFeeMapOf sampleRatio [txA1; txB5; txA1']) 10%N
       = sampleRatio tx
    /\ forall tx', tx' ∈ [txA1; txB5; txA1'] -> getSourceID tx' = 10%N ->
         Double.leb (sampleRatio tx) (sampleRatio tx') = true.
Proof.
  apply (proj1 (accountFeeMap_minimum sampleRatio [txA1; txB5; txA1'])
           10%N txA1).
  - intros tx Hin _.
    repeat (apply elem_of_cons in Hin as [->|Hin]; [by vm_compute|]).
    by inv Hin.
  - left.
  - reflexivity.
Defined.
